(** * foxEPUB: speed-reading markup for EPUB files

    A shallow embedding of [app.py] and the verification of its specification.

    - Python [str] values that are sliced, measured or classified are lists of
      code points ([pystr]); strings that are only compared (tag names,
      attribute names and values, the mode selector) are [string]s holding
      their UTF-8 bytes, on which equality coincides with Python's.
    - Python integers used as positions are [Z]; slices follow Python's
      rules for negative and out-of-range bounds.
    - A [BeautifulSoup] tree is a forest of nodes, each carrying an object
      identity; the tree is mutated through those identities, as the
      program does through its object references.
    - The [zipfile] and [bs4] parser/serialiser entry points are library
      code; they appear as fields of interface records.
    - An exception is a value of [error]; what may raise returns a sum,
      and a raised exception ends the enclosing loop and function as it
      does in Python. *)

From Stdlib Require Import List ZArith NArith Bool Lia Arith String Ascii.
From Stdlib Require Import Permutation.
Import ListNotations.

Set Warnings "-register-all".

(* ================================================================== *)
(** * Part I. Definitions                                              *)
(* ================================================================== *)

(** ** Python strings *)

Module Py.

Definition char := N.
Definition pystr := list char.

(** UTF-8 decoding, used to write the program's literals as they appear in
    the source. *)
Fixpoint utf8_go (s : string) (acc : N) (need : nat) : pystr :=
  match s with
  | EmptyString => []
  | String a r =>
    let x := N_of_ascii a in
    match need with
    | O =>
      if (x <? 128)%N then x :: utf8_go r 0%N 0
      else if (x <? 224)%N then utf8_go r (N.land x 31) 1
      else if (x <? 240)%N then utf8_go r (N.land x 15) 2
      else utf8_go r (N.land x 7) 3
    | S k =>
      let acc' := (acc * 64 + N.land x 63)%N in
      match k with
      | O => acc' :: utf8_go r 0%N 0
      | S _ => utf8_go r acc' k
      end
    end
  end.

Definition utf8 (s : string) : pystr := utf8_go s 0%N 0.

Definition len (s : pystr) : Z := Z.of_nat (List.length s).

(** Normalisation of a slice bound: negative bounds count from the end, and
    every bound is clamped to [0 .. len]. *)
Definition norm_index (s : pystr) (i : Z) : nat :=
  Z.to_nat (if (i <? 0)%Z then Z.max 0 (i + len s) else Z.min i (len s)).

(** [s[lo:hi]], [s[lo:]] and [s[:hi]]. *)
Definition slice (s : pystr) (lo hi : Z) : pystr :=
  firstn (norm_index s hi - norm_index s lo) (skipn (norm_index s lo) s).
Definition slice_from (s : pystr) (lo : Z) : pystr := skipn (norm_index s lo) s.
Definition slice_to (s : pystr) (hi : Z) : pystr := firstn (norm_index s hi) s.

(** [s[i]]; [None] stands for [IndexError]. *)
Definition getitem (s : pystr) (i : Z) : option char :=
  let j := if (i <? 0)%Z then (i + len s)%Z else i in
  if (j <? 0)%Z then None else nth_error s (Z.to_nat j).

Fixpoint str_eqb (a b : pystr) : bool :=
  match a, b with
  | [], [] => true
  | x :: a', y :: b' => (x =? y)%N && str_eqb a' b'
  | _, _ => false
  end.

(** [ch in s] for a set or string of characters, [x in S] for a set of
    strings, [s.endswith(suffix)] and [s.endswith((s1, s2, ...))]. *)
Definition char_in (ch : char) (s : pystr) : bool := existsb (N.eqb ch) s.
Definition str_in (x : pystr) (S : list pystr) : bool := existsb (str_eqb x) S.
Definition endswith (s suffix : pystr) : bool :=
  (len suffix <=? len s)%Z &&
  str_eqb (skipn (List.length s - List.length suffix) s) suffix.
Definition endswith_any (s : pystr) (suffixes : list pystr) : bool :=
  existsb (endswith s) suffixes.

(** [str.lower], character by character.  The mapping below is Python's on
    basic Latin and on the Cyrillic block U+0400..U+042F, and the identity
    elsewhere.  The program lowers (a) clusters taken from tokens matched by
    [[А-Яа-яЁё]+] and (b) file names that are then tested against ASCII
    suffixes made of letters no non-ASCII character lowers to. *)
Definition lower_char (c : char) : char :=
  if ((65 <=? c) && (c <=? 90))%N then (c + 32)%N
  else if ((1040 <=? c) && (c <=? 1071))%N then (c + 32)%N
  else if ((1024 <=? c) && (c <=? 1039))%N then (c + 80)%N
  else c.
Definition lower (s : pystr) : pystr := map lower_char s.

End Py.
Import Py.

(** ** Module constants *)

Definition VOWELS : pystr :=
  Eval vm_compute in utf8 "аеёиоуыэюяАЕЁИОУЫЭЮЯ".
Definition CONSONANTS : pystr :=
  Eval vm_compute in utf8 "бвгджзйклмнпрстфхцчшщьъБВГДЖЗЙКЛМНПРСТФХЦЧШЩЬЪ".

Definition ALLOWED_ONSET_2 : list pystr :=
  Eval vm_compute in map utf8
  [ "бл"; "бр"; "вл"; "вр"; "гл"; "гр"; "дл"; "др"; "жр"; "зл"; "зр";
    "кл"; "кр"; "пл"; "пр"; "сл"; "см"; "сн"; "сп"; "ст"; "ск"; "ср";
    "сф"; "сх"; "св"; "шл"; "шр"; "тл"; "тр"; "фл"; "фр"; "хл"; "хр";
    "чр"; "вт"; "гн"; "мн"; "мл"; "мр"; "нл"; "нр" ]%string.
Definition ALLOWED_ONSET_3 : list pystr :=
  Eval vm_compute in map utf8
  [ "стр"; "скр"; "спр"; "скл"; "встр"; "всп" ]%string.

(** [WORD_RE = [А-Яа-яЁё]+]: the class is U+0410..U+042F, U+0430..U+044F,
    U+0401 and U+0451. *)
Definition is_word_char (c : char) : bool :=
  ((1040 <=? c) && (c <=? 1071) || (1072 <=? c) && (c <=? 1103)
   || (c =? 1025) || (c =? 1105))%N.

(** [PUNCT_CHARS], written by code point: comma, semicolon, colon, [!], [?],
    round, square and curly brackets, [«], [»], [“], [”], the ASCII double
    quote (34), em dash, en dash and the final literal hyphen (45). *)
Definition PUNCT_CHARS : pystr :=
  [44; 59; 58; 33; 63; 40; 41; 91; 93; 123; 125; 171; 187; 8220; 8221; 34;
   8212; 8211; 45]%N.
Definition is_punct_char (c : char) : bool := char_in c PUNCT_CHARS.

(** ** The segmenters *)

Definition _is_vowel (ch : char) : bool := char_in ch VOWELS.
Definition _is_consonant (ch : char) : bool := char_in ch CONSONANTS.

(** [[i for i, ch in enumerate(word) if _is_vowel(ch)]], counting from [i]. *)
Fixpoint vowel_positions_from (i : Z) (word : pystr) : list Z :=
  match word with
  | [] => []
  | ch :: w =>
    if _is_vowel ch then i :: vowel_positions_from (i + 1) w
    else vowel_positions_from (i + 1) w
  end.

(** The onset length chosen for a non-empty consonant cluster. *)
Definition onset_len (cluster : pystr) : Z :=
  let lower_cluster := lower cluster in
  if (2 <=? len cluster)%Z &&
     match getitem lower_cluster 0, getitem lower_cluster 1 with
     | Some a, Some b => (a =? b)%N
     | _, _ => false
     end
  then (len cluster - 1)%Z
  else if endswith_any lower_cluster [utf8 "ь"; utf8 "ъ"] then 1%Z
  else if (3 <=? len lower_cluster)%Z &&
          str_in (slice_from lower_cluster (-3)) ALLOWED_ONSET_3 then 3%Z
  else if (2 <=? len lower_cluster)%Z &&
          str_in (slice_from lower_cluster (-2)) ALLOWED_ONSET_2 then 2%Z
  else 1%Z.

(** The [for i in range(len(vowel_positions))] loop.  [vps] is
    [vowel_positions[i:]]; [start] and [syllables] are the loop's
    variables.  The last vowel appends the rest of the word and breaks. *)
Fixpoint syllables_loop (word : pystr) (vps : list Z) (start : Z)
         (syllables : list pystr) : list pystr :=
  match vps with
  | [] => syllables
  | vpos :: rest =>
    match rest with
    | [] => syllables ++ [slice_from word start]
    | next_vpos :: _ =>
      let cluster := slice word (vpos + 1) next_vpos in
      let boundary :=
        match cluster with
        | [] => next_vpos
        | _ :: _ => (next_vpos - onset_len cluster)%Z
        end in
      let boundary := if (boundary <=? start)%Z then next_vpos else boundary in
      syllables_loop word rest boundary
                     (syllables ++ [slice word start boundary])
    end
  end.

Definition split_russian_syllables (word : pystr) : list pystr :=
  let vowel_positions := vowel_positions_from 0 word in
  if (Z.of_nat (List.length vowel_positions) <=? 1)%Z then [word]
  else syllables_loop word vowel_positions 0 [].

(** [lru_cache] memoises a pure function of the word; the function itself is
    modelled. *)
Definition first_syllable_parts (word : pystr) : pystr * pystr :=
  let syllables := split_russian_syllables word in
  match syllables with
  | [] => (word, [])
  | first :: _ => (first, slice_from word (len first))
  end.

Definition bionic_parts (word : pystr) : pystr * pystr :=
  let length := len word in
  let n :=
    if (length <=? 3)%Z then length
    else if (length <=? 5)%Z then 2%Z
    else if (length <=? 7)%Z then 2%Z
    else if (length <=? 10)%Z then 3%Z
    else Z.max 3 (length / 3) in
  (slice_to word n, slice_from word n).


(** ** The tokenizer: [TOKEN_RE] and [WORD_RE] *)

(** A match object: [start()], [end()] and [group(0)]. *)
Record Match := { m_start : Z; m_end : Z; m_group : pystr }.

(** Length of the longest prefix of word characters: what the greedy
    [[А-Яа-яЁё]+] consumes. *)
Fixpoint word_run (s : pystr) : nat :=
  match s with
  | c :: s' => if is_word_char c then S (word_run s') else 0
  | [] => 0
  end.

(** [TOKEN_RE.finditer]: the scan of [[А-Яа-яЁё]+|[PUNCT_CHARS]] over
    [text].  [s] is [text[pos:]]; [skip] counts the characters of [s] that
    the previous match has consumed.  At a free position the first
    alternative is tried, then the second, else the scan moves on by one. *)
Fixpoint scan (text s : pystr) (pos : Z) (skip : nat) : list Match :=
  match s with
  | [] => []
  | c :: s' =>
    match skip with
    | S k => scan text s' (pos + 1) k
    | O =>
      if is_word_char c then
        let e := (pos + Z.of_nat (word_run s))%Z in
        {| m_start := pos; m_end := e; m_group := slice text pos e |}
          :: scan text s' (pos + 1) (word_run s - 1)
      else if is_punct_char c then
        {| m_start := pos; m_end := pos + 1;
           m_group := slice text pos (pos + 1) |}
          :: scan text s' (pos + 1) 0
      else scan text s' (pos + 1) 0
    end
  end.

Definition TOKEN_RE_finditer (text : pystr) : list Match := scan text text 0 0.
Definition TOKEN_RE_search (text : pystr) : option Match :=
  hd_error (TOKEN_RE_finditer text).
Definition WORD_RE_fullmatch (token : pystr) : bool :=
  match token with
  | [] => false
  | _ :: _ => forallb is_word_char token
  end.

(** ** The document tree *)

(** [NavigableString] and its subclasses; [find_all(string=True)] yields
    all of them. *)
Inductive strkind :=
  NavigableString | Comment | CData | ProcessingInstruction | Declaration
| Doctype.

(** An attribute value: a string, or a list for multi-valued attributes
    such as [class]. *)
Inductive attrval := AStr (v : string) | AList (vs : list string).
Definition attrs := list (string * attrval).

(** A node of the tree.  [oid] is the identity of the Python object: the
    program keeps references to nodes while it mutates the tree, and the
    model follows a reference by looking its [oid] up. *)
Inductive node :=
| Str (oid : nat) (kind : strkind) (s : pystr)
| Tag (oid : nat) (name : string) (a : attrs) (contents : list node).

Definition oid (n : node) : nat :=
  match n with Str o _ _ => o | Tag o _ _ _ => o end.

(** A [BeautifulSoup] object: the top-level nodes and the next free
    identity. *)
Definition soup := (list node * nat)%type.

(** Text content of a node: its strings in document order. *)
Fixpoint node_text (n : node) : pystr :=
  match n with
  | Str _ _ s => s
  | Tag _ _ _ cs => flat_map node_text cs
  end.
Definition nodes_text (l : list node) : pystr := flat_map node_text l.

(** *** Document order

    bs4 links all nodes of a document in one chain ([next_element]) and
    runs [find], [find_all] and [descendants] over it.  [flat] is that
    chain; each entry records the node's identity, its ancestors (nearest
    first, with their names) and what the node itself holds. *)
Inductive label :=
| LStr (k : strkind) (s : pystr)
| LTag (name : string) (a : attrs).

Record entry := { e_oid : nat; e_anc : list (nat * string); e_label : label }.

Fixpoint flat_node (anc : list (nat * string)) (n : node) : list entry :=
  match n with
  | Str o k s => [{| e_oid := o; e_anc := anc; e_label := LStr k s |}]
  | Tag o nm a cs =>
    {| e_oid := o; e_anc := anc; e_label := LTag nm a |}
      :: flat_map (flat_node ((o, nm) :: anc)) cs
  end.
Definition flat (anc : list (nat * string)) (f : list node) : list entry :=
  flat_map (flat_node anc) f.

Definition oids (f : list node) : list nat := map e_oid (flat [] f).

Definition is_str (e : entry) : bool :=
  match e_label e with LStr _ _ => true | LTag _ _ => false end.
Definition is_tag_named (nm : string) (e : entry) : bool :=
  match e_label e with LTag n _ => String.eqb n nm | LStr _ _ => false end.
Definition under (o : nat) (e : entry) : bool :=
  existsb (fun a => Nat.eqb (fst a) o) (e_anc e).

(** [text_node.parent.name]; the parent of a top-level node is the soup
    object itself, whose name is [[document]]. *)
Definition parent_name (e : entry) : string :=
  match e_anc e with
  | (_, nm) :: _ => nm
  | [] => "[document]"%string
  end.

(** The entry of the node a reference points to. *)
Definition find_entry (t : list node) (o : nat) : option entry :=
  find (fun e => Nat.eqb (e_oid e) o) (flat [] t).

(** [soup.head], [soup.body]: the first tag of that name in the document. *)
Definition soup_find (t : list node) (nm : string) : option entry :=
  find (is_tag_named nm) (flat [] t).

(** [tag.find_all(name)]: the descendants of [tag] with that name, in
    document order. *)
Definition find_all_named (t : list node) (tag : nat) (nm : string) : list nat :=
  map e_oid (filter (fun e => is_tag_named nm e && under tag e) (flat [] t)).

(** [tag.find_all(string=True)]: every string below [tag], at any depth
    and of any kind. *)
Definition find_all_strings (t : list node) (tag : nat) : list nat :=
  map e_oid (filter (fun e => is_str e && under tag e) (flat [] t)).

(** Attribute lookup and the two value tests the program makes. *)
Fixpoint attr_get (a : attrs) (k : string) : option attrval :=
  match a with
  | [] => None
  | (k', v) :: r => if String.eqb k' k then Some v else attr_get r k
  end.

(** [x in tag.get(k, [])]. *)
Definition attr_contains (a : attrs) (k x : string) : bool :=
  match attr_get a k with
  | None => false
  | Some (AList vs) => existsb (String.eqb x) vs
  | Some (AStr v) => match String.index 0 x v with Some _ => true | None => false end
  end.

(** The attribute filter [k=x] of [find]: a string value must equal [x]; a
    multi-valued one matches through one of its items or as a whole. *)
Definition attr_matches (a : attrs) (k x : string) : bool :=
  match attr_get a k with
  | None => false
  | Some (AStr v) => String.eqb v x
  | Some (AList vs) =>
    existsb (fun v => String.eqb v x) vs || String.eqb (String.concat " " vs) x
  end.

(** [tag.find("style", id=...)] as a test. *)
Definition is_style_with_id (id : string) (e : entry) : bool :=
  match e_label e with
  | LTag nm a => String.eqb nm "style" && attr_matches a "id" id
  | LStr _ _ => false
  end.
Definition find_style (t : list node) (tag : nat) (id : string) : option entry :=
  find (fun e => is_style_with_id id e && under tag e) (flat [] t).

(** [p.find_next_sibling()]: the next tag among the siblings that follow
    the node.  The outer [option] is [None] when the reference is not in
    the tree. *)
Definition first_tag (l : list node) : option node :=
  find (fun n => match n with Tag _ _ _ _ => true | Str _ _ _ => false end) l.

Fixpoint next_sibling_in (o : nat) (n : node) : option (option node) :=
  match n with
  | Str _ _ _ => None
  | Tag _ _ _ cs =>
    (fix go (l : list node) : option (option node) :=
       match l with
       | [] => None
       | c :: r =>
         if Nat.eqb (oid c) o then Some (first_tag r)
         else match next_sibling_in o c with
              | Some x => Some x
              | None => go r
              end
       end) cs
  end.

Definition find_next_sibling (t : list node) (o : nat) : option (option node) :=
  next_sibling_in o (Tag 0 "[document]" [] t).

(** *** Mutation

    [edit o mk] rebuilds the tree with the node of identity [o] replaced
    by [mk] of it.  In a well-formed soup an identity occurs once, so this
    is the mutation of the one object the reference points to; a reference
    that is not in the tree changes nothing. *)
Fixpoint edit_node (o : nat) (mk : node -> list node) (n : node) : list node :=
  let n' :=
    match n with
    | Str _ _ _ => n
    | Tag i nm a cs => Tag i nm a (flat_map (edit_node o mk) cs)
    end in
  if Nat.eqb (oid n) o then mk n' else [n'].
Definition edit (o : nat) (mk : node -> list node) (f : list node) : list node :=
  flat_map (edit_node o mk) f.

(** [ref.insert_after(new)], [ref.replace_with(new)], [ref.append(new)]. *)
Definition insert_after (t : list node) (ref : nat) (new : node) : list node :=
  edit ref (fun n => [n; new]) t.
Definition replace_with (t : list node) (ref : nat) (new : node) : list node :=
  edit ref (fun _ => [new]) t.
Definition append_child (n new : node) : node :=
  match n with
  | Str _ _ _ => n
  | Tag i nm a cs => Tag i nm a (cs ++ [new])
  end.
Definition append (t : list node) (ref : nat) (new : node) : list node :=
  edit ref (fun n => [append_child n new]) t.

(** Object creation: [NavigableString(s)] / [soup.new_string(s)],
    [soup.new_tag(name, **attrs)] and [tag.string = s], each taking the
    next free identity. *)
Definition new_string (s : pystr) (next : nat) : node * nat :=
  (Str next NavigableString s, S next).
Definition new_tag (nm : string) (a : attrs) (next : nat) : node * nat :=
  (Tag next nm a [], S next).
Definition set_string (n : node) (s : pystr) (next : nat) : node * nat :=
  match n with
  | Str _ _ _ => (n, next)
  | Tag i nm a _ => (Tag i nm a [Str next NavigableString s], S next)
  end.

(** ** The word annotator *)

(** The nodes appended for one token. *)
Definition token_nodes (token : pystr) (mode : string) (next : nat)
  : list node * nat :=
  if WORD_RE_fullmatch token then
    let '(strong_text, rest_text) :=
      if String.eqb mode "bionic" then bionic_parts token
      else first_syllable_parts token in
    match strong_text with
    | _ :: _ =>
      let '(strong_tag, next) := new_tag "strong" [] next in
      let '(strong_tag, next) := set_string strong_tag strong_text next in
      match rest_text with
      | _ :: _ =>
        let '(rest, next) := new_string rest_text next in
        ([strong_tag; rest], next)
      | [] => ([strong_tag], next)
      end
    | [] =>
      let '(plain, next) := new_string token next in ([plain], next)
    end
  else
    let '(span, next) := new_tag "span" [("class", AList ["punct"])]%string next in
    let '(span, next) := set_string span token next in
    ([span], next).

(** One turn of [for match in TOKEN_RE.finditer(text)]; the state is
    [(nodes, i, next)]. *)
Definition build_step (text : pystr) (mode : string)
           (st : list node * Z * nat) (m : Match) : list node * Z * nat :=
  let '(nodes, i, next) := st in
  let '(before, next) :=
    if (i <? m_start m)%Z then
      let '(plain, next) := new_string (slice text i (m_start m)) next in
      ([plain], next)
    else ([], next) in
  let '(tok, next) := token_nodes (m_group m) mode next in
  (nodes ++ before ++ tok, m_end m, next).

(** [build_nodes_for_text(soup, text, mode)]; [None] is Python's [None].
    The soup contributes the identities of the nodes created. *)
Definition build_nodes_for_text (next : nat) (text : pystr) (mode : string)
  : option (list node * nat) :=
  match TOKEN_RE_search text with
  | None => None
  | Some _ =>
    let '(nodes, i, next) :=
      fold_left (build_step text mode) (TOKEN_RE_finditer text) ([], 0%Z, next) in
    if (i <? len text)%Z then
      let '(plain, next) := new_string (slice_from text i) next in
      Some (nodes ++ [plain], next)
    else Some (nodes, next)
  end.

(** ** The document rewriter *)

(** [replace_text_node]: the first node takes the place of the text node,
    each further node goes after the one before it. *)
Definition replace_text_node (t : list node) (text_node : nat)
           (nodes : list node) : list node :=
  match nodes with
  | [] => t
  | first :: rest =>
    fst (fold_left
           (fun (st : list node * node) (nd : node) =>
              (insert_after (fst st) (oid (snd st)) nd, nd))
           rest (replace_with t text_node first, first))
  end.

Definition STYLE_ID : string := "speedread-style".
Definition STYLE_CSS : pystr := Eval vm_compute in utf8
  ("p { text-indent: 1.25em; margin-top: 0; margin-bottom: 0; }" ++
   " p + p { margin-top: 0; }" ++
   " .sr-gap { text-indent: 0; margin: 0 0 1em 0; }" ++
   " .punct { color: #666; opacity: 0.65; }").

Definition ensure_style (s : soup) : soup :=
  let '(t, next) := s in
  match soup_find t "head" with
  | None => s
  | Some head =>
    match find_style t (e_oid head) STYLE_ID with
    | Some _ => s
    | None =>
      let '(style, next) :=
        new_tag "style" [("id", AStr STYLE_ID); ("type", AStr "text/css")]%string
                next in
      let '(style, next) := set_string style STYLE_CSS next in
      (append t (e_oid head) style, next)
    end
  end.

(** The body of [for text_node in text_nodes]. *)
Definition rewrite_text_node (mode : string) (s : soup) (text_node : nat) : soup :=
  let '(t, next) := s in
  match find_entry t text_node with
  | None => s
  | Some e =>
    match e_label e with
    | LTag _ _ => s
    | LStr _ original =>
      if String.eqb (parent_name e) "script" || String.eqb (parent_name e) "style"
      then s
      else
        match build_nodes_for_text next original mode with
        | None => s
        | Some (nodes, next') => (replace_text_node t text_node nodes, next')
        end
    end
  end.

(** The body of the first [for p in paragraphs]: the strings below [p] are
    listed, then rewritten one by one. *)
Definition rewrite_paragraph (mode : string) (s : soup) (p : nat) : soup :=
  fold_left (rewrite_text_node mode) (find_all_strings (fst s) p) s.

(** The gap paragraph. *)
Definition new_gap (next : nat) : node * nat :=
  let '(gap, next) := new_tag "p" [] next in
  let gap :=
    match gap with
    | Tag i nm _ cs => Tag i nm [("class", AList ["sr-gap"])]%string cs
    | Str _ _ _ => gap
    end in
  let '(nbsp, next) := new_string [160%N] next in
  (append_child gap nbsp, next).

(** The body of the second [for p in paragraphs]. *)
Definition insert_gap (s : soup) (p : nat) : soup :=
  let '(t, next) := s in
  let skip :=
    match find_next_sibling t p with
    | Some (Some (Tag _ nm a _)) =>
      String.eqb nm "p" && attr_contains a "class" "sr-gap"
    | _ => false
    end in
  if skip then s
  else let '(gap, next) := new_gap next in (insert_after t p gap, next).

(** The two passes over [body.find_all("p")]; each takes its list of
    paragraphs before it starts. *)
Definition annotate_paragraphs (mode : string) (s : soup) (body : nat) : soup :=
  fold_left (rewrite_paragraph mode) (find_all_named (fst s) body "p") s.
Definition insert_gaps (s : soup) (body : nat) : soup :=
  fold_left insert_gap (find_all_named (fst s) body "p") s.

(** What [process_html_bytes] does to the parsed tree; [None] when there is
    no body. *)
Definition rewrite_soup (mode : string) (s : soup) : option soup :=
  match soup_find (fst s) "body" with
  | None => None
  | Some body =>
    let s := ensure_style s in
    let s := annotate_paragraphs mode s (e_oid body) in
    Some (insert_gaps s (e_oid body))
  end.

Definition bytes := list Byte.byte.

(** The exceptions the program meets: [zipfile.BadZipFile], the one
    [convert] catches; [KeyError], raised by [read] for a name the archive
    does not list; and any other exception, by the name of its class:
    [RuntimeError] for an encrypted entry, [NotImplementedError] for a
    compression method the library lacks, [ParserRejectedMarkup] from the
    HTML parser. *)
Inductive error := BadZipFile | KeyError | Other (cls : string).

(** The bs4 entry points: [BeautifulSoup(data, "html.parser")], which
    gives the tree or raises, and [str(soup).encode("utf-8")]. *)
Record Bs4 := {
  BeautifulSoup : bytes -> error + soup;
  soup_encode : list node -> bytes
}.

(** [process_html_bytes]; an exception of the parser leaves it without a
    value ([inl]). *)
Definition process_html_bytes (bs : Bs4) (data : bytes) (mode : string)
  : error + bytes :=
  match BeautifulSoup bs data with
  | inl e => inl e
  | inr s =>
    match rewrite_soup mode s with
    | None => inr data
    | Some s => inr (soup_encode bs (fst s))
    end
  end.

(** ** The archive rewriter *)

(** The fields of [zipfile.ZipInfo] that describe an entry (sizes, CRC and
    offsets are recomputed by the writer). *)
Record ZipInfo := {
  filename : pystr;
  date_time : Z * Z * Z * Z * Z * Z;
  compress_type : Z;
  comment : bytes;
  extra : bytes;
  create_system : Z;
  create_version : Z;
  extract_version : Z;
  reserved : Z;
  flag_bits : Z;
  volume : Z;
  internal_attr : Z;
  external_attr : Z
}.

(** [zipfile.ZipInfo(filename=..., date_time=...)]: every other field takes
    the library's default ([ZIP_STORED], version 20, system [sys]). *)
Definition ZipInfo_new (sys : Z) (fn : pystr) (dt : Z * Z * Z * Z * Z * Z) : ZipInfo :=
  {| filename := fn; date_time := dt; compress_type := 0; comment := [];
     extra := []; create_system := sys; create_version := 20;
     extract_version := 20; reserved := 0; flag_bits := 0; volume := 0;
     internal_attr := 0; external_attr := 0 |}.

(** Field assignment [info.field = v], one per field the program sets. *)
Definition set_compress_type (v : Z) (i : ZipInfo) : ZipInfo :=
  {| filename := filename i; date_time := date_time i; compress_type := v;
     comment := comment i; extra := extra i; create_system := create_system i;
     create_version := create_version i; extract_version := extract_version i;
     reserved := reserved i; flag_bits := flag_bits i; volume := volume i;
     internal_attr := internal_attr i; external_attr := external_attr i |}.
Definition set_external_attr (v : Z) (i : ZipInfo) : ZipInfo :=
  {| filename := filename i; date_time := date_time i;
     compress_type := compress_type i;
     comment := comment i; extra := extra i; create_system := create_system i;
     create_version := create_version i; extract_version := extract_version i;
     reserved := reserved i; flag_bits := flag_bits i; volume := volume i;
     internal_attr := internal_attr i; external_attr := v |}.
Definition set_internal_attr (v : Z) (i : ZipInfo) : ZipInfo :=
  {| filename := filename i; date_time := date_time i;
     compress_type := compress_type i;
     comment := comment i; extra := extra i; create_system := create_system i;
     create_version := create_version i; extract_version := extract_version i;
     reserved := reserved i; flag_bits := flag_bits i; volume := volume i;
     internal_attr := v; external_attr := external_attr i |}.
Definition set_flag_bits (v : Z) (i : ZipInfo) : ZipInfo :=
  {| filename := filename i; date_time := date_time i;
     compress_type := compress_type i;
     comment := comment i; extra := extra i; create_system := create_system i;
     create_version := create_version i; extract_version := extract_version i;
     reserved := reserved i; flag_bits := v; volume := volume i;
     internal_attr := internal_attr i; external_attr := external_attr i |}.
Definition set_create_system (v : Z) (i : ZipInfo) : ZipInfo :=
  {| filename := filename i; date_time := date_time i;
     compress_type := compress_type i;
     comment := comment i; extra := extra i; create_system := v;
     create_version := create_version i; extract_version := extract_version i;
     reserved := reserved i; flag_bits := flag_bits i; volume := volume i;
     internal_attr := internal_attr i; external_attr := external_attr i |}.
Definition set_create_version (v : Z) (i : ZipInfo) : ZipInfo :=
  {| filename := filename i; date_time := date_time i;
     compress_type := compress_type i;
     comment := comment i; extra := extra i; create_system := create_system i;
     create_version := v; extract_version := extract_version i;
     reserved := reserved i; flag_bits := flag_bits i; volume := volume i;
     internal_attr := internal_attr i; external_attr := external_attr i |}.
Definition set_extract_version (v : Z) (i : ZipInfo) : ZipInfo :=
  {| filename := filename i; date_time := date_time i;
     compress_type := compress_type i;
     comment := comment i; extra := extra i; create_system := create_system i;
     create_version := create_version i; extract_version := v;
     reserved := reserved i; flag_bits := flag_bits i; volume := volume i;
     internal_attr := internal_attr i; external_attr := external_attr i |}.
Definition set_volume (v : Z) (i : ZipInfo) : ZipInfo :=
  {| filename := filename i; date_time := date_time i;
     compress_type := compress_type i;
     comment := comment i; extra := extra i; create_system := create_system i;
     create_version := create_version i; extract_version := extract_version i;
     reserved := reserved i; flag_bits := flag_bits i; volume := v;
     internal_attr := internal_attr i; external_attr := external_attr i |}.
Definition set_comment (v : bytes) (i : ZipInfo) : ZipInfo :=
  {| filename := filename i; date_time := date_time i;
     compress_type := compress_type i;
     comment := v; extra := extra i; create_system := create_system i;
     create_version := create_version i; extract_version := extract_version i;
     reserved := reserved i; flag_bits := flag_bits i; volume := volume i;
     internal_attr := internal_attr i; external_attr := external_attr i |}.
Definition set_extra (v : bytes) (i : ZipInfo) : ZipInfo :=
  {| filename := filename i; date_time := date_time i;
     compress_type := compress_type i;
     comment := comment i; extra := v; create_system := create_system i;
     create_version := create_version i; extract_version := extract_version i;
     reserved := reserved i; flag_bits := flag_bits i; volume := volume i;
     internal_attr := internal_attr i; external_attr := external_attr i |}.

(** An open archive: its entries in directory order, each with what
    reading its data gives: the bytes stored for it, or the exception
    raised on the way ([RuntimeError] for an encrypted entry,
    [NotImplementedError] for an unsupported method, [BadZipFile] for a bad
    CRC). *)
Definition archive := list (ZipInfo * (error + bytes)).

(** The [writestr] calls made on the output container, in order. *)
Definition writes := list (ZipInfo * bytes).

(** The [zipfile] entry points.  [ZipFile_open] is
    [zipfile.ZipFile(io.BytesIO(b), "r")]; [None] is [zipfile.BadZipFile].
    [ZipFile_close] gives the bytes of the container that the library
    closes over the listed [writestr] calls: what the library makes of
    each header is its own business, the program decides the calls.
    [default_system] is the [create_system] of a fresh [ZipInfo]. *)
Record ZipLib := {
  ZipFile_open : bytes -> option archive;
  ZipFile_close : writes -> bytes;
  default_system : Z
}.

Definition infolist (zin : archive) : list ZipInfo := map fst zin.

(** [zin.getinfo(name)]: the archive keeps a dictionary from names to
    entries, filled in directory order, so a name shared by several entries
    leads to the last of them. *)
Fixpoint getinfo (zin : archive) (name : pystr)
  : option (ZipInfo * (error + bytes)) :=
  match zin with
  | [] => None
  | entry :: r =>
    match getinfo r name with
    | Some x => Some x
    | None => if str_eqb (filename (fst entry)) name then Some entry else None
    end
  end.

(** [zin.read(name)]: [KeyError] for a name that is not listed, else what
    reading that entry gives. *)
Definition read (zin : archive) (name : pystr) : error + bytes :=
  match getinfo zin name with
  | None => inl KeyError
  | Some (_, data) => data
  end.

Definition is_html_name (fn : pystr) : bool :=
  let lower := lower fn in
  endswith_any lower [utf8 ".xhtml"; utf8 ".html"; utf8 ".htm"].

(** The header the program builds for the copy of [info]. *)
Definition copy_info (z : ZipLib) (info : ZipInfo) : ZipInfo :=
  let new_info := ZipInfo_new (default_system z) (filename info) (date_time info) in
  let new_info := set_compress_type (compress_type info) new_info in
  let new_info := set_external_attr (external_attr info) new_info in
  let new_info := set_internal_attr (internal_attr info) new_info in
  let new_info := set_flag_bits (flag_bits info) new_info in
  let new_info := set_create_system (create_system info) new_info in
  let new_info := set_create_version (create_version info) new_info in
  let new_info := set_extract_version (extract_version info) new_info in
  let new_info := set_volume (volume info) new_info in
  let new_info := set_comment (comment info) new_info in
  set_extra (extra info) new_info.

(** The body of [for info in zin.infolist()]; [zout] is the list of
    [writestr] calls made so far, or the exception that ended the loop. *)
Definition copy_entry (bs : Bs4) (z : ZipLib) (mode : string) (zin : archive)
           (zout : error + writes) (info : ZipInfo) : error + writes :=
  match zout with
  | inl e => inl e
  | inr written =>
    match read zin (filename info) with
    | inl e => inl e
    | inr data =>
      let data :=
        if is_html_name (filename info) then process_html_bytes bs data mode
        else inr data in
      match data with
      | inl e => inl e
      | inr data => inr (written ++ [(copy_info z info, data)])
      end
    end
  end.

(** The loop of [process_epub], and the function: an exception leaves it
    without a value ([inl]); otherwise the bytes of the closed output
    container are returned. *)
Definition copy_entries (bs : Bs4) (z : ZipLib) (mode : string) (zin : archive)
  : error + writes :=
  fold_left (copy_entry bs z mode zin) (infolist zin) (inr []).

Definition process_epub (bs : Bs4) (z : ZipLib) (epub_bytes : bytes)
           (mode : string) : error + bytes :=
  match ZipFile_open z epub_bytes with
  | None => inl BadZipFile
  | Some zin =>
    match copy_entries bs z mode zin with
    | inl e => inl e
    | inr written => inr (ZipFile_close z written)
    end
  end.

(** [convert], from the reading of the upload on: the mode field defaults
    to [syllable], [BadZipFile] becomes a redirect, any other exception
    escapes. *)
Inductive response :=
| Redirect
| SendFile (out_bytes : bytes)
| Uncaught (e : error).

Definition form_mode (field : option string) : string :=
  match field with Some m => m | None => "syllable"%string end.

Definition convert (bs : Bs4) (z : ZipLib) (epub_bytes : bytes)
           (field : option string) : response :=
  let mode := form_mode field in
  match process_epub bs z epub_bytes mode with
  | inl BadZipFile => Redirect
  | inl e => Uncaught e
  | inr out_bytes => SendFile out_bytes
  end.

(** ** Sample data

    Concrete documents, archives and library stand-ins on which the
    definitions above are run. *)

(** A parser that yields the given tree, with a serialiser that keeps no
    bytes. *)
Definition sample_bs (s : soup) : Bs4 :=
  {| BeautifulSoup := fun _ => inr s; soup_encode := fun _ => [] |}.

(** The header that [zipfile] reads for a stored entry written on a
    POSIX system with mode 0644. *)
Definition sample_info (name : string) : ZipInfo :=
  {| filename := utf8 name; date_time := (2024, 1, 2, 3, 4, 6)%Z;
     compress_type := 0; comment := []; extra := []; create_system := 3;
     create_version := 20; extract_version := 20; reserved := 0;
     flag_bits := 0; volume := 0; internal_attr := 0;
     external_attr := 2175008768 |}.





(** Two entries that share the name [a.txt] and hold different bytes: what
    [dup_container] holds. *)
Definition dup_archive : archive :=
  [ (sample_info "a.txt", inr [Byte.x31]); (sample_info "a.txt", inr [Byte.x32]) ].





(** [<html><body><p>да</p></body></html>]: a body, no head. *)
Definition doc_no_head : soup :=
  ([Tag 0 "html" []
      [Tag 1 "body" []
         [Tag 2 "p" [] [Str 3 NavigableString (utf8 "да")]]]], 4).

(** [<html><head></head><p>да</p></html>]: a head, no body. *)
Definition doc_no_body : soup :=
  ([Tag 0 "html" []
      [Tag 1 "head" [] []; Tag 2 "p" [] [Str 3 NavigableString (utf8 "да")]]], 4).

(** [<html><head></head><body><p>да, <em>нет</em></p>вот</body></html>]. *)
Definition doc_inline : soup :=
  ([Tag 0 "html" []
      [Tag 1 "head" [] [];
       Tag 2 "body" []
         [Tag 3 "p" []
            [Str 4 NavigableString (utf8 "да, ");
             Tag 5 "em" [] [Str 6 NavigableString (utf8 "нет")]];
          Str 7 NavigableString (utf8 "вот")]]], 8).

(** Number of paragraph elements in a tree. *)
Definition paragraph_count (t : list node) : nat :=
  List.length (filter (is_tag_named "p") (flat [] t)).

(** The style elements with the reserved identifier inside the head. *)
Definition head_styles (t : list node) : list entry :=
  match soup_find t "head" with
  | None => []
  | Some head =>
    filter (fun e => is_style_with_id STYLE_ID e && under (e_oid head) e)
           (flat [] t)
  end.

(** ** Notions used to state the properties of the rewriter *)

(** A soup is well formed when no two nodes share an identity and the next
    free identity is above all of them, as for any tree of live Python
    objects. *)
Definition wf (s : soup) : Prop :=
  NoDup (oids (fst s)) /\ Forall (fun o => o < snd s) (oids (fst s)).

Fixpoint nodupb (l : list nat) : bool :=
  match l with
  | [] => true
  | x :: r => negb (existsb (Nat.eqb x) r) && nodupb r
  end.
Definition wfb (s : soup) : bool :=
  nodupb (oids (fst s)) && forallb (fun o => o <? snd s) (oids (fst s)).

(** Equality of attribute dictionaries. *)
Fixpoint strings_eqb (a b : list string) : bool :=
  match a, b with
  | [], [] => true
  | x :: a', y :: b' => String.eqb x y && strings_eqb a' b'
  | _, _ => false
  end.
Definition attrval_eqb (v w : attrval) : bool :=
  match v, w with
  | AStr x, AStr y => String.eqb x y
  | AList x, AList y => strings_eqb x y
  | _, _ => false
  end.
Fixpoint attrs_eqb (a b : attrs) : bool :=
  match a, b with
  | [], [] => true
  | (k, v) :: a', (k', v') :: b' =>
    String.eqb k k' && attrval_eqb v v' && attrs_eqb a' b'
  | _, _ => false
  end.

(** The nodes the two passes create: plain strings, bare [strong]
    elements, [span] elements of class [punct] and paragraphs of class
    [sr-gap]; the style injection adds the [style] element with the
    reserved identifier. *)
Definition pass_kind (e : entry) : bool :=
  match e_label e with
  | LStr NavigableString _ => true
  | LStr _ _ => false
  | LTag nm a =>
    String.eqb nm "strong" && attrs_eqb a []
    || String.eqb nm "span" && attrs_eqb a [("class", AList ["punct"])]%string
    || String.eqb nm "p" && attrs_eqb a [("class", AList ["sr-gap"])]%string
  end.
Definition added_kind (e : entry) : bool :=
  pass_kind e
  || match e_label e with
     | LTag nm a =>
       String.eqb nm "style"
       && attrs_eqb a [("id", AStr STYLE_ID); ("type", AStr "text/css")]%string
     | LStr _ _ => false
     end.

(** [in_paragraph body anc]: among the ancestors [anc] there is a [p]
    element that itself lies below [body]. *)
Fixpoint in_paragraph (body : nat) (anc : list (nat * string)) : bool :=
  match anc with
  | [] => false
  | (_, nm) :: above =>
    String.eqb nm "p" && existsb (fun a => Nat.eqb (fst a) body) above
    || in_paragraph body above
  end.

(** The strings the loop over [p.find_all(string=True)] does not skip:
    strings of any class, at any depth below a paragraph of the body,
    whose parent is neither [script] nor [style]. *)
Definition replaceable (body : nat) (e : entry) : bool :=
  is_str e
  && negb (String.eqb (parent_name e) "script"
           || String.eqb (parent_name e) "style")
  && in_paragraph body (e_anc e).

(** A text node proper: a plain [NavigableString], not a comment, CDATA
    section, processing instruction, declaration or doctype. *)
Definition is_text (e : entry) : bool :=
  match e_label e with
  | LStr NavigableString _ => true
  | _ => false
  end.

(** The text nodes the annotation is meant for: text at any depth below
    a paragraph of the body, whose parent is neither [script] nor
    [style]. *)
Definition eligible (body : nat) (e : entry) : bool :=
  is_text e && replaceable body e.

(** A document whose paragraphs hold text only: among the strings the
    loop does not skip there is no comment and no other special string. *)
Definition text_only (body : nat) (t : list node) : bool :=
  forallb (fun e => implb (replaceable body e) (is_text e)) (flat [] t).

(** Where the rewriter puts what it adds.  Annotation output and the text
    of a gap lie below a paragraph of the body; a gap paragraph lies below
    the body; the style element is a child of the head, and its text a
    child of a style element of the head. *)
Definition is_head (head : option nat) (o : nat) : bool :=
  match head with Some h => Nat.eqb o h | None => false end.
Definition added_place (head : option nat) (body : nat) (e : entry) : bool :=
  match e_label e with
  | LTag nm _ =>
    if String.eqb nm "style" then
      match e_anc e with
      | (h, _) :: _ => is_head head h
      | [] => false
      end
    else if String.eqb nm "p" then under body e
    else in_paragraph body (e_anc e)
  | LStr _ _ =>
    in_paragraph body (e_anc e)
    || match e_anc e with
       | (_, nm) :: (h, _) :: _ => String.eqb nm "style" && is_head head h
       | _ => false
       end
  end.

(** Every node with an identity from [bound] on satisfies [P]. *)
Definition placed (P : entry -> bool) (bound : nat) (t : list node) : Prop :=
  Forall (fun e => bound <= e_oid e -> P e = true) (flat [] t).

(** [<html><body><p><!--да-->нет</p></body></html>]: a comment inside a
    paragraph. *)
Definition doc_comment : soup :=
  ([Tag 0 "html" []
      [Tag 1 "body" []
         [Tag 2 "p" []
            [Str 3 Comment (utf8 "да");
             Str 4 NavigableString (utf8 "нет")]]]], 5).

(** The strings that are children of a paragraph. *)
Definition paragraph_child (e : entry) : bool :=
  is_str e && String.eqb (parent_name e) "p".

Definition mem (x : nat) (l : list nat) : bool := existsb (Nat.eqb x) l.

(** [evolve K s s' rm]: from [s] to [s'] the nodes with identities [rm]
    were taken out, nodes with new identities and of kind [K] were put in,
    and all other nodes are where and what they were: same order, same
    ancestors, same content. *)
Definition evolve (K : entry -> bool) (s s' : soup) (rm : list nat) : Prop :=
  snd s <= snd s'
  /\ filter (fun e => e_oid e <? snd s) (flat [] (fst s'))
     = filter (fun e => negb (mem (e_oid e) rm)) (flat [] (fst s))
  /\ Forall (fun e => snd s <= e_oid e -> K e = true) (flat [] (fst s')).

(** Newly created nodes: pairwise distinct identities taken from
    [next .. next' - 1], all of kind [K]. *)
Definition fresh_nodes (K : entry -> bool) (next next' : nat)
           (ns : list node) : Prop :=
  NoDup (oids ns)
  /\ forall anc e, In e (flat anc ns) ->
                   next <= e_oid e < next' /\ K e = true.

(** Running the rewriter [n] times on a tree. *)
Fixpoint rewrite_times (mode : string) (n : nat) (s : soup) : option soup :=
  match n with
  | O => Some s
  | S k =>
    match rewrite_soup mode s with
    | None => None
    | Some s' => rewrite_times mode k s'
    end
  end.

(** ** Notions used to state the properties of the archive rewriter and
    of the tokenizer *)

(** Matches come one after the other: each starts at or after the end of
    the one before, and its group is the slice between its bounds. *)
Fixpoint ordered (text : pystr) (from : Z) (ms : list Match) : Prop :=
  match ms with
  | [] => True
  | m :: r =>
    (from <= m_start m <= m_end m)%Z
    /\ m_group m = slice text (m_start m) (m_end m)
    /\ ordered text (m_end m) r
  end.

(** The exception, if any, that the turn of one entry raises: that of
    reading it by its name or, for an entry of the HTML family, that of
    the parser. *)
Definition entry_error (bs : Bs4) (zin : archive) (info : ZipInfo)
  : option error :=
  match read zin (filename info) with
  | inl e => Some e
  | inr data =>
    if is_html_name (filename info) then
      match BeautifulSoup bs data with
      | inl e => Some e
      | inr _ => None
      end
    else None
  end.

(** The first exception in the order of the list. *)
Fixpoint first_error (A : Type) (f : A -> option error) (l : list A)
  : option error :=
  match l with
  | [] => None
  | x :: r =>
    match f x with
    | Some e => Some e
    | None => first_error A f r
    end
  end.

(** [data'] is the document [data] rewritten: the serialised tree after
    the rewriter has run on the parsed document, or [data] itself when the
    document has no body. *)
Definition rewritten (bs : Bs4) (mode : string) (data data' : bytes) : Prop :=
  exists s,
    BeautifulSoup bs data = inr s
    /\ data' = match rewrite_soup mode s with
               | None => data
               | Some s' => soup_encode bs (fst s')
               end.

(** The header fields the program sets on the copy. *)
Definition same_header (info new_info : ZipInfo) : Prop :=
  filename new_info = filename info
  /\ date_time new_info = date_time info
  /\ compress_type new_info = compress_type info
  /\ external_attr new_info = external_attr info
  /\ internal_attr new_info = internal_attr info
  /\ flag_bits new_info = flag_bits info
  /\ create_system new_info = create_system info
  /\ create_version new_info = create_version info
  /\ extract_version new_info = extract_version info
  /\ volume new_info = volume info
  /\ comment new_info = comment info
  /\ extra new_info = extra info.

(** What one [writestr] call owes to the entry [info] of [zin]: the
    header fields of [info], and the bytes read under the name of [info],
    rewritten when the name is of the HTML family. *)
Definition written_for (bs : Bs4) (mode : string) (zin : archive)
           (info : ZipInfo) (w : ZipInfo * bytes) : Prop :=
  same_header info (fst w)
  /\ exists data,
      read zin (filename info) = inr data
      /\ if is_html_name (filename info) then rewritten bs mode data (snd w)
         else snd w = data.


(** ** Notions used in the analysis of the mutations *)

(** An edit either finds nothing, or replaces, in document order, the run
    of entries of the node [x] it points to by the entries of [mk x]. *)
Definition edit_shape (o : nat) (mk : node -> list node)
           (old new : list entry) : Prop :=
  exists x anc_x l1 l2,
    old = l1 ++ flat_node anc_x x ++ l2
    /\ oid x = o
    /\ new = l1 ++ flat anc_x (mk x) ++ l2.

Definition edit_node_shape_at (o : nat) (mk : node -> list node) (n : node)
  : Prop :=
  forall anc,
    NoDup (oids [n]) ->
    (~ In o (oids [n]) /\ edit_node o mk n = [n])
    \/ edit_shape o mk (flat_node anc n) (flat anc (edit_node o mk n)).

(** What is asked of a node about to be put into the tree [t], in a run
    that started from the soup [s0]: identities that are new, and the kind
    [K]. *)
Definition insertable (K : entry -> bool) (s0 : soup) (t : list node)
           (bound' : nat) (n : node) : Prop :=
  NoDup (oids [n])
  /\ forall anc e, In e (flat_node anc n) ->
                   snd s0 <= e_oid e < bound' /\ ~ In (e_oid e) (oids t)
                   /\ K e = true.

(** The invariant of a run of the rewriter that started from [s0], with
    body [body]: the soup is well formed, it has evolved from [s0] by
    additions of kind [K] and by removals, and whatever node of [s0] was
    removed was a replaceable string. *)
Definition removed_ok (s0 : soup) (body : nat) (rm : list nat) : Prop :=
  forall x, In x rm ->
            forall e, In e (flat [] (fst s0)) -> e_oid e = x ->
                      replaceable body e = true.

Definition run_invariant (K : entry -> bool) (s0 : soup) (body : nat)
           (s : soup) : Prop :=
  wf s /\ exists rm, evolve K s0 s rm /\ removed_ok s0 body rm.


(** The [style] element made by [ensure_style]. *)
Definition style_node (next : nat) : node :=
  Tag next "style" [("id", AStr STYLE_ID); ("type", AStr "text/css")]%string
      [Str (S next) NavigableString STYLE_CSS].


(** Every ancestor recorded in an entry is itself listed in the document,
    as a tag with that name and with the ancestors above it. *)
Definition ancestors_listed_at (n : node) : Prop :=
  forall anc e,
    In e (flat_node anc n) ->
    exists pre,
      e_anc e = pre ++ anc
      /\ forall a1 q nm a2,
          pre = a1 ++ (q, nm) :: a2 ->
          exists a, In {| e_oid := q; e_anc := a2 ++ anc; e_label := LTag nm a |}
                       (flat_node anc n).

(** ** Notions used to state further properties *)

(** A character that starts a token: a letter of [WORD_RE] or a character
    of [PUNCT_CHARS]. *)
Definition is_token_char (c : char) : bool := is_word_char c || is_punct_char c.

(** The siblings' side of [next_sibling_in]: the search through a list of
    children. *)
Fixpoint next_sibling_forest (o : nat) (l : list node) : option (option node) :=
  match l with
  | [] => None
  | c :: r =>
    if Nat.eqb (oid c) o then Some (first_tag r)
    else match next_sibling_in o c with
         | Some x => Some x
         | None => next_sibling_forest o r
         end
  end.

(** A gap paragraph, as the second loop recognises it, and the test that
    the next sibling element of a node is one. *)
Definition is_gap (n : node) : bool :=
  match n with
  | Tag _ nm a _ => String.eqb nm "p" && attr_contains a "class" "sr-gap"
  | Str _ _ _ => false
  end.
Definition gap_follows (t : list node) (p : nat) : bool :=
  match find_next_sibling t p with
  | Some (Some n) => is_gap n
  | _ => false
  end.


(** The nodes the word annotator creates. *)
Definition ann_kind (e : entry) : bool :=
  match e_label e with
  | LStr NavigableString _ => true
  | LStr _ _ => false
  | LTag nm a =>
    String.eqb nm "strong" && attrs_eqb a []
    || String.eqb nm "span" && attrs_eqb a [("class", AList ["punct"])]%string
  end.


(** What is expected of one match of [TOKEN_RE] in [text]: it lies inside
    the text, is not empty, holds the slice between its bounds, and is
    either a run of letters that stops at a non-letter or at the end, or
    one punctuation character. *)
Definition token_ok (text : pystr) (m : Match) : Prop :=
  (0 <= m_start m < m_end m)%Z /\ (m_end m <= len text)%Z
  /\ m_group m = slice text (m_start m) (m_end m)
  /\ len (m_group m) = (m_end m - m_start m)%Z
  /\ ((WORD_RE_fullmatch (m_group m) = true
       /\ forall c, getitem text (m_end m) = Some c -> is_word_char c = false)
      \/ (exists c, m_group m = [c] /\ is_punct_char c = true
                    /\ is_word_char c = false)).

(** Number of vowels of a string. *)
Definition count_vowels (s : pystr) : nat := List.length (filter _is_vowel s).

(** Positions that increase strictly, from [lo] on and below [hi]. *)
Fixpoint positions_chain (lo hi : Z) (l : list Z) : Prop :=
  match l with
  | [] => True
  | v :: r => (lo <= v < hi)%Z /\ positions_chain (v + 1) hi r
  end.


(** The boundary the syllable loop computes between the vowels at [vpos]
    and [next_vpos], the current syllable starting at [start]. *)
Definition next_boundary (word : pystr) (vpos next_vpos start : Z) : Z :=
  let cluster := slice word (vpos + 1) next_vpos in
  let boundary :=
    match cluster with
    | [] => next_vpos
    | _ :: _ => (next_vpos - onset_len cluster)%Z
    end in
  if (boundary <=? start)%Z then next_vpos else boundary.


(** The elements the annotator makes for a word and for a punctuation
    character. *)
Definition is_strong (n : node) : bool :=
  match n with
  | Tag _ nm _ _ => String.eqb nm "strong"
  | Str _ _ _ => false
  end.
Definition is_punct_span (n : node) : bool :=
  match n with
  | Tag _ nm a _ => String.eqb nm "span" && attr_contains a "class" "punct"
  | Str _ _ _ => false
  end.
Definition is_word_match (m : Match) : bool := WORD_RE_fullmatch (m_group m).

Definition count {A : Type} (f : A -> bool) (l : list A) : nat :=
  List.length (filter f l).






(** The test of the second loop on the result of [find_next_sibling()]. *)
Definition is_gap_opt (x : option node) : bool :=
  match x with Some n => is_gap n | None => false end.



(** Nothing is left between the matches: from [from] to the first match,
    from one match to the next and after the last one, no character is a
    letter of the word alphabet or a punctuation character. *)
Fixpoint gaps_plain (text : pystr) (from : Z) (ms : list Match) : bool :=
  match ms with
  | [] => forallb (fun c => negb (is_token_char c)) (slice_from text from)
  | m :: r =>
    forallb (fun c => negb (is_token_char c)) (slice text from (m_start m))
    && gaps_plain text (m_end m) r
  end.

(** The two expressions of [convert] on the name of the upload, where
    [filename] is what [secure_filename] returned (an ASCII string): the
    extension test and the download name. *)
Definition is_epub_name (filename : pystr) : bool :=
  endswith (lower filename) (utf8 ".epub").
Definition out_name (filename : pystr) : pystr :=
  slice_to filename (-5) ++ utf8 "-speedread.epub".



(* ================================================================== *)
(** * Part II. Properties                                              *)
(* ================================================================== *)

(** ** Slices *)

Lemma len_nonneg (s : pystr) : (0 <= len s)%Z.
Proof. unfold len; lia. Qed.

Lemma norm_index_nonneg (s : pystr) (i : Z) :
  (0 <= i)%Z -> norm_index s i = Nat.min (Z.to_nat i) (List.length s).
Proof.
  intros Hi. unfold norm_index, len.
  destruct (Z.ltb_spec i 0); lia.
Qed.

Lemma slice_to_from (s : pystr) (n : Z) : slice_to s n ++ slice_from s n = s.
Proof. unfold slice_to, slice_from. apply firstn_skipn. Qed.

Lemma slice_app_from (t : pystr) (a b : Z) :
  (0 <= a <= b)%Z -> slice t a b ++ slice_from t b = slice_from t a.
Proof.
  intros [Ha Hab]. unfold slice, slice_from.
  rewrite !norm_index_nonneg by lia.
  set (na := Nat.min (Z.to_nat a) (List.length t)).
  set (nb := Nat.min (Z.to_nat b) (List.length t)).
  assert (Hle : na <= nb) by (subst na nb; lia).
  replace (skipn nb t) with (skipn (nb - na) (skipn na t)).
  - apply firstn_skipn.
  - rewrite skipn_skipn. f_equal. lia.
Qed.

Lemma slice_from_zero (t : pystr) : slice_from t 0 = t.
Proof. unfold slice_from. rewrite norm_index_nonneg by lia. reflexivity. Qed.

Lemma slice_from_end (t : pystr) (i : Z) : (len t <= i)%Z -> slice_from t i = [].
Proof.
  intros H. pose proof (len_nonneg t). unfold slice_from.
  rewrite norm_index_nonneg by lia. unfold len in *.
  apply skipn_all2. lia.
Qed.

(** A prefix of a word and the slice that starts at its length make up the
    word. *)
Lemma prefix_parts (w : pystr) (k : nat) :
  firstn k w ++ slice_from w (len (firstn k w)) = w.
Proof.
  unfold slice_from. rewrite norm_index_nonneg by apply len_nonneg.
  unfold len. rewrite Nat2Z.id, length_firstn.
  replace (Nat.min (Nat.min k (List.length w)) (List.length w))
    with (Nat.min k (List.length w)) by lia.
  destruct (Nat.le_ge_cases k (List.length w)) as [H | H].
  - rewrite Nat.min_l by lia. apply firstn_skipn.
  - rewrite Nat.min_r by lia. rewrite firstn_all2 by lia.
    rewrite skipn_all. apply app_nil_r.
Qed.

Lemma slice_zero_prefix (w : pystr) (b : Z) : exists k, slice w 0 b = firstn k w.
Proof.
  unfold slice. exists (norm_index w b - norm_index w 0).
  rewrite (norm_index_nonneg w 0) by lia. reflexivity.
Qed.

(** ** The segmenters *)

(** The syllable loop only ever appends: what is already collected stays
    in front. *)
Lemma syllables_loop_acc (word : pystr) (vps : list Z) :
  forall start acc,
    syllables_loop word vps start acc
    = acc ++ syllables_loop word vps start [].
Proof.
  induction vps as [| vpos rest IH]; intros start acc; simpl.
  - now rewrite app_nil_r.
  - destruct rest as [| next_vpos rest'].
    + reflexivity.
    + rewrite IH. symmetry. rewrite IH. now rewrite app_assoc.
Qed.

(** The first syllable is a prefix of the word. *)
Lemma first_syllable_prefix (word : pystr) :
  exists k, fst (first_syllable_parts word) = firstn k word.
Proof.
  unfold first_syllable_parts, split_russian_syllables.
  destruct (Z.of_nat (List.length (vowel_positions_from 0 word)) <=? 1)%Z.
  - exists (List.length word). simpl. now rewrite firstn_all.
  - destruct (vowel_positions_from 0 word) as [| vpos rest]; simpl.
    + exists (List.length word). now rewrite firstn_all.
    + destruct rest as [| next_vpos rest'].
      * simpl. exists (List.length word).
        rewrite slice_from_zero. now rewrite firstn_all.
      * rewrite syllables_loop_acc. simpl. apply slice_zero_prefix.
Qed.

Lemma first_syllable_parts_snd (word : pystr) :
  snd (first_syllable_parts word)
  = slice_from word (len (fst (first_syllable_parts word))).
Proof.
  unfold first_syllable_parts.
  destruct (split_russian_syllables word) as [| first tl]; simpl.
  - symmetry. apply slice_from_end. lia.
  - reflexivity.
Qed.

Lemma first_syllable_parts_app (w : pystr) :
  fst (first_syllable_parts w) ++ snd (first_syllable_parts w) = w.
Proof.
  rewrite first_syllable_parts_snd.
  destruct (first_syllable_prefix w) as [k ->]. apply prefix_parts.
Qed.

Lemma bionic_parts_app (w : pystr) :
  fst (bionic_parts w) ++ snd (bionic_parts w) = w.
Proof. unfold bionic_parts. simpl. apply slice_to_from. Qed.

(** C2. Both segmenters split a word into a head and a remainder whose
    concatenation is the word itself, code point for code point; this holds
    for every string, the non-empty words in particular. *)
Theorem segmentation_reassembles_word (w : pystr) :
  (let '(head, remainder) := first_syllable_parts w in head ++ remainder = w)
  /\ (let '(head, remainder) := bionic_parts w in head ++ remainder = w).
Proof.
  split.
  - pose proof (first_syllable_parts_app w) as H.
    now destruct (first_syllable_parts w).
  - pose proof (bionic_parts_app w) as H.
    now destruct (bionic_parts w).
Qed.

(** The segmenters on sample words. *)
Example first_syllable_proiskhodit :
  first_syllable_parts (utf8 "происходит") = (utf8 "про", utf8 "исходит").
Proof. reflexivity. Qed.

Example syllables_proiskhodit :
  split_russian_syllables (utf8 "происходит")
  = [utf8 "про"; utf8 "и"; utf8 "схо"; utf8 "дит"].
Proof. reflexivity. Qed.

Example syllables_soft_sign :
  split_russian_syllables (utf8 "письмо") = [utf8 "пись"; utf8 "мо"].
Proof. reflexivity. Qed.

Example syllables_double_consonant :
  split_russian_syllables (utf8 "ванна") = [utf8 "ван"; utf8 "на"].
Proof. reflexivity. Qed.

Example first_syllable_one_vowel :
  first_syllable_parts (utf8 "мир") = (utf8 "мир", []).
Proof. reflexivity. Qed.

Example bionic_mir :
  bionic_parts (utf8 "мир") = (utf8 "мир", []).
Proof. reflexivity. Qed.

Example bionic_privet :
  bionic_parts (utf8 "привет") = (utf8 "пр", utf8 "ивет").
Proof. reflexivity. Qed.

Example tokens_of_sample :
  map m_group (TOKEN_RE_finditer (utf8 "Ёж — ёж, a1"))
  = [utf8 "Ёж"; utf8 "—"; utf8 "ёж"; utf8 ","].
Proof. reflexivity. Qed.

(** The head the bionic segmenter takes has the length [n] it computes,
    because [n] never exceeds the word. *)
Lemma slice_to_length (w : pystr) (n : Z) :
  (0 <= n <= len w)%Z -> len (slice_to w n) = n.
Proof.
  intros H. unfold slice_to. rewrite norm_index_nonneg by lia.
  unfold len in *. rewrite length_firstn. lia.
Qed.

Lemma slice_to_all (w : pystr) : slice_to w (len w) = w.
Proof.
  unfold slice_to. rewrite norm_index_nonneg by apply len_nonneg.
  unfold len. rewrite Nat2Z.id, Nat.min_id. apply firstn_all.
Qed.

(** C5. The bionic head length follows the length-bucket table: the whole
    word up to length 3, two characters for lengths 4 to 7, three for 8 to
    10, and [max(3, length // 3)] from 11 on; so length 3 gives the full
    word, 5 gives 2, 10 gives 3 and 12 gives 4.  The remainder is the rest
    of the word. *)
Theorem bionic_head_length_table (w : pystr) :
  let head := fst (bionic_parts w) in
  ((len w <= 3)%Z -> head = w)
  /\ ((4 <= len w <= 5)%Z -> len head = 2%Z)
  /\ ((6 <= len w <= 7)%Z -> len head = 2%Z)
  /\ ((8 <= len w <= 10)%Z -> len head = 3%Z)
  /\ ((11 <= len w)%Z -> len head = Z.max 3 (len w / 3))
  /\ (len w = 3%Z -> head = w)
  /\ (len w = 5%Z -> len head = 2%Z)
  /\ (len w = 10%Z -> len head = 3%Z)
  /\ (len w = 12%Z -> len head = 4%Z)
  /\ snd (bionic_parts w) = slice_from w (len head).
Proof.
  pose proof (len_nonneg w) as Hn.
  assert (Hdiv : (11 <= len w -> 3 <= len w / 3 <= len w)%Z).
  { intros H. split.
    - apply Z.div_le_lower_bound; lia.
    - apply Z.div_le_upper_bound; lia. }
  assert (T1 : (len w <= 3)%Z -> fst (bionic_parts w) = w).
  { intros H. unfold bionic_parts; simpl.
    destruct (Z.leb_spec (len w) 3); [apply slice_to_all | lia]. }
  assert (T2 : (4 <= len w <= 7)%Z -> len (fst (bionic_parts w)) = 2%Z).
  { intros H. unfold bionic_parts; simpl.
    destruct (Z.leb_spec (len w) 3); [lia |].
    destruct (Z.leb_spec (len w) 5); [apply slice_to_length; lia |].
    destruct (Z.leb_spec (len w) 7); [apply slice_to_length; lia | lia]. }
  assert (T3 : (8 <= len w <= 10)%Z -> len (fst (bionic_parts w)) = 3%Z).
  { intros H. unfold bionic_parts; simpl.
    destruct (Z.leb_spec (len w) 3); [lia |].
    destruct (Z.leb_spec (len w) 5); [lia |].
    destruct (Z.leb_spec (len w) 7); [lia |].
    destruct (Z.leb_spec (len w) 10); [apply slice_to_length; lia | lia]. }
  assert (T4 : (11 <= len w)%Z ->
               len (fst (bionic_parts w)) = Z.max 3 (len w / 3)).
  { intros H. specialize (Hdiv H). unfold bionic_parts; simpl.
    destruct (Z.leb_spec (len w) 3); [lia |].
    destruct (Z.leb_spec (len w) 5); [lia |].
    destruct (Z.leb_spec (len w) 7); [lia |].
    destruct (Z.leb_spec (len w) 10); [lia |].
    apply slice_to_length; lia. }
  assert (T5 : snd (bionic_parts w)
               = slice_from w (len (fst (bionic_parts w)))).
  { unfold bionic_parts. cbn [fst snd].
    rewrite slice_to_length; [reflexivity |].
    destruct (Z.leb_spec (len w) 3); [lia |].
    destruct (Z.leb_spec (len w) 5); [lia |].
    destruct (Z.leb_spec (len w) 7); [lia |].
    destruct (Z.leb_spec (len w) 10); [lia |].
    specialize (Hdiv ltac:(lia)). lia. }
  cbv zeta.
  repeat split; try assumption; intros H.
  - apply T2; lia.
  - apply T2; lia.
  - apply T1; lia.
  - apply T2; lia.
  - apply T3; lia.
  - rewrite T4 by lia. rewrite H. reflexivity.
Qed.

Lemma bionic_head_length_table_witness :
  (len (utf8 "переговорный") = 12%Z)
  /\ len (fst (bionic_parts (utf8 "переговорный"))) = 4%Z
  /\ len (fst (bionic_parts (utf8 "переговорный")))
     = Z.max 3 (len (utf8 "переговорный") / 3).
Proof.
  split; [reflexivity |].
  pose proof (bionic_head_length_table (utf8 "переговорный")) as T.
  cbv zeta in T.
  destruct T as (_ & _ & _ & _ & T11 & _ & _ & _ & T12 & _).
  split.
  - apply T12. reflexivity.
  - apply T11. vm_compute. discriminate.
Defined.

(** ** The tokenizer and the word annotator *)

Lemma nodes_text_app (a b : list node) :
  nodes_text (a ++ b) = nodes_text a ++ nodes_text b.
Proof. apply flat_map_app. Qed.

(** The nodes made for a token carry the token, whatever the mode and
    whichever branch is taken. *)
Lemma token_nodes_text (token : pystr) (mode : string) (next : nat) :
  nodes_text (fst (token_nodes token mode next)) = token.
Proof.
  unfold token_nodes.
  destruct (WORD_RE_fullmatch token).
  - set (parts := if String.eqb mode "bionic" then bionic_parts token
                  else first_syllable_parts token).
    assert (H : fst parts ++ snd parts = token).
    { subst parts. destruct (String.eqb mode "bionic").
      - apply bionic_parts_app.
      - apply first_syllable_parts_app. }
    destruct parts as [strong_text rest_text]. simpl in H.
    destruct strong_text as [| c strong_text'].
    + simpl. now rewrite app_nil_r.
    + destruct rest_text as [| d rest_text']; simpl.
      * rewrite !app_nil_r in *. exact H.
      * rewrite !app_nil_r. exact H.
  - simpl. now rewrite !app_nil_r.
Qed.

Lemma word_run_pos (c : char) (s : pystr) :
  is_word_char c = true -> 1 <= word_run (c :: s).
Proof. intros H. simpl. rewrite H. lia. Qed.

Lemma scan_ordered (text : pystr) :
  forall s pos skip from,
    (from <= pos + Z.of_nat skip)%Z -> ordered text from (scan text s pos skip).
Proof.
  induction s as [| c s' IH]; intros pos skip from H; [exact I |].
  cbn [scan]. destruct skip as [| k].
  - destruct (is_word_char c) eqn:Hw.
    + pose proof (@word_run_pos c s' Hw) as Hr.
      cbn [ordered m_start m_end m_group]. repeat split; try lia.
      apply IH. lia.
    + destruct (is_punct_char c).
      * cbn [ordered m_start m_end m_group]. repeat split; try lia.
        apply IH. lia.
      * apply IH. lia.
  - apply IH. lia.
Qed.

Lemma TOKEN_RE_finditer_ordered (text : pystr) :
  ordered text 0 (TOKEN_RE_finditer text).
Proof. apply scan_ordered. lia. Qed.

(** One turn of the loop keeps the text: what the nodes hold so far,
    followed by the text from [i] on, does not change. *)
Lemma build_step_text (text : pystr) (mode : string) (m : Match)
      (nodes : list node) (i : Z) (next : nat) :
  (0 <= i <= m_start m)%Z -> (m_start m <= m_end m)%Z ->
  m_group m = slice text (m_start m) (m_end m) ->
  let '(nodes', i', _) := build_step text mode (nodes, i, next) m in
  i' = m_end m /\
  nodes_text nodes' ++ slice_from text i' = nodes_text nodes ++ slice_from text i.
Proof.
  intros Hi Hse Hg. unfold build_step.
  destruct (Z.ltb_spec i (m_start m)) as [Hlt | Hge].
  - cbn [new_string].
    pose proof (token_nodes_text (m_group m) mode (S next)) as Ht.
    destruct (token_nodes (m_group m) mode (S next)) as [tok next'].
    cbn [fst] in Ht. split; [reflexivity |].
    rewrite !nodes_text_app, Ht, Hg. cbn [nodes_text flat_map node_text].
    rewrite app_nil_r, <- !app_assoc.
    rewrite slice_app_from by lia. now rewrite slice_app_from by lia.
  - pose proof (token_nodes_text (m_group m) mode next) as Ht.
    destruct (token_nodes (m_group m) mode next) as [tok next'].
    cbn [fst] in Ht. split; [reflexivity |].
    assert (i = m_start m) by lia. subst i.
    rewrite !nodes_text_app, Ht, Hg. cbn [nodes_text flat_map app].
    rewrite <- !app_assoc. now rewrite slice_app_from by lia.
Qed.

Lemma build_loop_text (text : pystr) (mode : string) :
  forall ms nodes i next,
    (0 <= i)%Z -> ordered text i ms ->
    let '(nodes', i', _) :=
      fold_left (build_step text mode) ms (nodes, i, next) in
    (0 <= i')%Z /\
    nodes_text nodes' ++ slice_from text i' = nodes_text nodes ++ slice_from text i.
Proof.
  induction ms as [| m r IH]; intros nodes i next Hi Ho.
  - simpl. split; [assumption | reflexivity].
  - cbn [fold_left]. destruct Ho as ((H1 & H2) & Hg & Hr).
    pose proof (@build_step_text text mode m nodes i next
                  (conj Hi H1) H2 Hg) as Hs.
    destruct (build_step text mode (nodes, i, next) m) as [[nodes1 i1] next1].
    destruct Hs as [-> Hs].
    specialize (IH nodes1 (m_end m) next1 ltac:(lia) Hr).
    destruct (fold_left (build_step text mode) r (nodes1, m_end m, next1))
      as [[nodes' i'] next'].
    destruct IH as [IH1 IH2]. split; [assumption |].
    now rewrite IH2.
Qed.

(** C4. Whenever the word annotator returns a sequence of nodes, the text
    of those nodes, concatenated in order, is the input text. *)
Theorem build_nodes_for_text_preserves_text
        (next : nat) (text : pystr) (mode : string)
        (nodes : list node) (next' : nat) :
  build_nodes_for_text next text mode = Some (nodes, next') ->
  nodes_text nodes = text.
Proof.
  unfold build_nodes_for_text. intros H.
  destruct (TOKEN_RE_search text); [| discriminate].
  pose proof (@build_loop_text text mode (TOKEN_RE_finditer text) [] 0%Z next
                ltac:(lia) (TOKEN_RE_finditer_ordered text)) as Hl.
  destruct (fold_left (build_step text mode) (TOKEN_RE_finditer text)
                      ([], 0%Z, next)) as [[nodes1 i1] next1].
  destruct Hl as [Hi Hl]. cbn [nodes_text flat_map app] in Hl.
  rewrite slice_from_zero in Hl.
  destruct (Z.ltb_spec i1 (len text)) as [Hlt | Hge].
  - cbn [new_string] in H. injection H as <- _.
    rewrite nodes_text_app. cbn [nodes_text flat_map node_text].
    now rewrite app_nil_r.
  - injection H as <- _. rewrite slice_from_end in Hl by lia.
    now rewrite app_nil_r in Hl.
Qed.

Lemma build_nodes_for_text_preserves_text_witness :
  exists nodes next',
    build_nodes_for_text 0 (utf8 "Привет, мир! abc") "bionic"
    = Some (nodes, next')
    /\ nodes_text nodes = utf8 "Привет, мир! abc".
Proof.
  eexists. eexists. split.
  - vm_compute. reflexivity.
  - apply (@build_nodes_for_text_preserves_text
             0 (utf8 "Привет, мир! abc") "bionic" _ 11).
    vm_compute. reflexivity.
Defined.

(** The mode is looked at only to tell [bionic] from everything else. *)
Lemma token_nodes_mode (token : pystr) (m1 m2 : string) (next : nat) :
  String.eqb m1 "bionic" = String.eqb m2 "bionic" ->
  token_nodes token m1 next = token_nodes token m2 next.
Proof. intros H. unfold token_nodes. now rewrite H. Qed.

Lemma fold_left_ext (A B : Type) (f g : A -> B -> A) :
  (forall a b, f a b = g a b) ->
  forall l a, fold_left f l a = fold_left g l a.
Proof.
  intros H. induction l as [| b l IH]; intros a; simpl.
  - reflexivity.
  - now rewrite H, IH.
Qed.

Lemma build_step_mode (text : pystr) (m1 m2 : string) :
  String.eqb m1 "bionic" = String.eqb m2 "bionic" ->
  forall st m, build_step text m1 st m = build_step text m2 st m.
Proof.
  intros H [[nodes i] n] m. unfold build_step.
  destruct (i <? m_start m)%Z; cbn [new_string];
    now rewrite (token_nodes_mode _ m1 m2 _ H).
Qed.

Lemma build_nodes_for_text_mode (next : nat) (text : pystr) (m1 m2 : string) :
  String.eqb m1 "bionic" = String.eqb m2 "bionic" ->
  build_nodes_for_text next text m1 = build_nodes_for_text next text m2.
Proof.
  intros H. unfold build_nodes_for_text.
  now rewrite (fold_left_ext _ _ _ _ (build_step_mode text m1 m2 H)).
Qed.

(** ** The archive rewriter *)

Lemma str_eqb_refl (a : pystr) : str_eqb a a = true.
Proof. induction a as [| x a IH]; simpl; [| rewrite N.eqb_refl]; auto. Qed.

Lemma str_eqb_eq (a b : pystr) : str_eqb a b = true <-> a = b.
Proof.
  split.
  - revert b. induction a as [| x a IH]; intros [| y b] H; simpl in H;
      try discriminate; [reflexivity |].
    apply andb_true_iff in H as [H1 H2]. apply N.eqb_eq in H1.
    f_equal; auto.
  - intros <-. apply str_eqb_refl.
Qed.

Lemma getinfo_some (zin : archive) (name : pystr)
      (entry : ZipInfo * (error + bytes)) :
  getinfo zin name = Some entry ->
  In entry zin /\ filename (fst entry) = name.
Proof.
  induction zin as [| [i1 d1] r IH]; intros E; [discriminate E |].
  cbn [getinfo fst] in E.
  destruct (getinfo r name) as [y |].
  - injection E as ->. destruct (IH eq_refl) as [H1 H2].
    split; [now right | exact H2].
  - destruct (str_eqb (filename i1) name) eqn:Eq; [| discriminate E].
    injection E as <-. split; [now left |]. now apply str_eqb_eq.
Qed.

(** Reading by the name of a listed entry is reading one of the entries
    that carry this name: the lookup itself never raises [KeyError]. *)
Lemma getinfo_listed (zin : archive) (info : ZipInfo) :
  In info (infolist zin) ->
  exists entry,
    getinfo zin (filename info) = Some entry
    /\ In entry zin /\ filename (fst entry) = filename info.
Proof.
  intros H.
  assert (Hsome : exists entry, getinfo zin (filename info) = Some entry).
  { induction zin as [| [info0 data0] r IH]; [contradiction |].
    cbn [infolist map fst In] in H. cbn [getinfo fst].
    destruct (getinfo r (filename info)) as [x |] eqn:E; [eauto |].
    destruct H as [H | H].
    - subst info0. rewrite str_eqb_refl. eauto.
    - destruct (IH H) as [entry E1]. discriminate E1. }
  destruct Hsome as [entry E]. exists entry. split; [exact E |].
  exact (getinfo_some zin (filename info) entry E).
Qed.



Lemma copy_info_same_header (z : ZipLib) (info : ZipInfo) :
  same_header info (copy_info z info).
Proof. repeat split. Qed.

(** One turn of the loop: the exception of the entry, or one more
    [writestr] call. *)
Lemma copy_entry_cases (bs : Bs4) (z : ZipLib) (mode : string) (zin : archive)
      (written : writes) (info : ZipInfo) :
  match entry_error bs zin info with
  | Some e => copy_entry bs z mode zin (inr written) info = inl e
  | None =>
    exists w,
      copy_entry bs z mode zin (inr written) info = inr (written ++ [w])
      /\ written_for bs mode zin info w
  end.
Proof.
  unfold entry_error, copy_entry, written_for.
  destruct (read zin (filename info)) as [e | data]; [reflexivity |].
  destruct (is_html_name (filename info)).
  - unfold process_html_bytes, rewritten.
    destruct (BeautifulSoup bs data) as [e | s] eqn:Eb; [reflexivity |].
    exists (copy_info z info,
            match rewrite_soup mode s with
            | None => data
            | Some s' => soup_encode bs (fst s')
            end).
    split; [destruct (rewrite_soup mode s); reflexivity |]. cbn [fst snd].
    split; [apply copy_info_same_header |].
    exists data. split; [reflexivity |]. exists s.
    split; [first [exact Eb | reflexivity] | reflexivity].
  - eexists. split; [reflexivity |]. cbn [fst snd].
    split; [apply copy_info_same_header |]. exists data. auto.
Qed.

Lemma copy_entry_raised (bs : Bs4) (z : ZipLib) (mode : string) (zin : archive)
      (e : error) (infos : list ZipInfo) :
  fold_left (copy_entry bs z mode zin) infos (inl e) = inl e.
Proof. induction infos as [| info infos IH]; [reflexivity | exact IH]. Qed.

Lemma copy_entry_loop (bs : Bs4) (z : ZipLib) (mode : string) (zin : archive) :
  forall infos written,
    match first_error ZipInfo (entry_error bs zin) infos with
    | Some e =>
      fold_left (copy_entry bs z mode zin) infos (inr written) = inl e
    | None =>
      exists new,
        fold_left (copy_entry bs z mode zin) infos (inr written)
        = inr (written ++ new)
        /\ Forall2 (written_for bs mode zin) infos new
    end.
Proof.
  induction infos as [| info infos IH]; intros written.
  - exists []. cbn [fold_left]. rewrite app_nil_r. split; [reflexivity | constructor].
  - cbn [fold_left first_error].
    pose proof (copy_entry_cases bs z mode zin written info) as Hc.
    destruct (entry_error bs zin info) as [e |].
    + rewrite Hc. apply copy_entry_raised.
    + destruct Hc as (w & -> & Hw). specialize (IH (written ++ [w])).
      destruct (first_error ZipInfo (entry_error bs zin) infos) as [e |];
        [exact IH |].
      destruct IH as (new & E & F). exists (w :: new). split.
      * etransitivity; [exact E |]. now rewrite <- app_assoc.
      * constructor; assumption.
Qed.

Lemma copy_entries_spec (bs : Bs4) (z : ZipLib) (mode : string) (zin : archive) :
  match first_error ZipInfo (entry_error bs zin) (infolist zin) with
  | Some e => copy_entries bs z mode zin = inl e
  | None =>
    exists written,
      copy_entries bs z mode zin = inr written
      /\ Forall2 (written_for bs mode zin) (infolist zin) written
  end.
Proof.
  exact (copy_entry_loop bs z mode zin (infolist zin) []).
Qed.

(** A container that opens: the exception of the first entry that fails,
    or one [writestr] call for each entry. *)
Lemma process_epub_opened (bs : Bs4) (z : ZipLib) (epub_bytes : bytes)
      (mode : string) (zin : archive) :
  ZipFile_open z epub_bytes = Some zin ->
  match first_error ZipInfo (entry_error bs zin) (infolist zin) with
  | Some e => process_epub bs z epub_bytes mode = inl e
  | None =>
    exists written,
      process_epub bs z epub_bytes mode = inr (ZipFile_close z written)
      /\ Forall2 (written_for bs mode zin) (infolist zin) written
  end.
Proof.
  intros H. unfold process_epub. rewrite H.
  pose proof (copy_entries_spec bs z mode zin) as Hl.
  destruct (first_error ZipInfo (entry_error bs zin) (infolist zin)) as [e |].
  - now rewrite Hl.
  - destruct Hl as (new & E & F). exists new. rewrite E.
    split; [reflexivity | exact F].
Qed.






(** C3 (the code departs from the claim). On an archive with two entries
    named [a.txt], neither of the HTML family, both written entries hold
    the bytes of the second: the first entry's payload is not preserved. *)
Theorem duplicate_names_lose_payload (bs : Bs4) (z : ZipLib) (mode : string) :
  is_html_name (utf8 "a.txt") = false
  /\ map snd dup_archive = [inr [Byte.x31]; inr [Byte.x32]]
  /\ exists w1 w2,
      copy_entries bs z mode dup_archive = inr [w1; w2]
      /\ snd w1 = [Byte.x32] /\ snd w2 = [Byte.x32]
      /\ snd w1 <> [Byte.x31].
Proof.
  split; [reflexivity |]. split; [reflexivity |].
  eexists. eexists. split; [reflexivity |].
  repeat split. discriminate.
Qed.

(** ** The document rewriter *)

(** C9. When the parsed document has no body element, [process_html_bytes]
    returns the bytes it was given, and raises nothing. *)
Theorem process_html_bytes_no_body (bs : Bs4) (data : bytes) (mode : string)
        (s : soup) :
  BeautifulSoup bs data = inr s ->
  soup_find (fst s) "body" = None ->
  process_html_bytes bs data mode = inr data.
Proof.
  intros Hs H. unfold process_html_bytes, rewrite_soup. now rewrite Hs, H.
Qed.

Lemma process_html_bytes_no_body_witness :
  BeautifulSoup (sample_bs doc_no_body) [Byte.x3c] = inr doc_no_body
  /\ soup_find (fst doc_no_body) "body" = None
  /\ process_html_bytes (sample_bs doc_no_body) [Byte.x3c] "syllable"
     = inr [Byte.x3c].
Proof.
  split; [reflexivity |]. split; [reflexivity |].
  apply (process_html_bytes_no_body (sample_bs doc_no_body) [Byte.x3c]
                                    "syllable" doc_no_body);
    reflexivity.
Defined.

(** *** Induction over trees *)

Lemma node_induction (P : node -> Prop) :
  (forall o k s, P (Str o k s)) ->
  (forall o nm a cs, Forall P cs -> P (Tag o nm a cs)) ->
  forall n, P n.
Proof.
  intros HStr HTag. fix IH 1. intros [o k s | o nm a cs].
  - apply HStr.
  - apply HTag. induction cs as [| c cs IHcs]; constructor.
    + apply IH.
    + exact IHcs.
Qed.

Lemma flat_app (anc : list (nat * string)) (f g : list node) :
  flat anc (f ++ g) = flat anc f ++ flat anc g.
Proof. apply flat_map_app. Qed.

Lemma flat_cons (anc : list (nat * string)) (n : node) (f : list node) :
  flat anc (n :: f) = flat_node anc n ++ flat anc f.
Proof. reflexivity. Qed.

(** The identities met in document order do not depend on the ancestors
    the walk starts with. *)
Lemma flat_node_oids (n : node) :
  forall anc anc',
    map e_oid (flat_node anc n) = map e_oid (flat_node anc' n).
Proof.
  induction n as [o k s | o nm a cs IH] using node_induction; intros anc anc'.
  - reflexivity.
  - cbn [flat_node map e_oid]. f_equal.
    generalize ((o, nm) :: anc) ((o, nm) :: anc'). intros b b'.
    induction IH as [| c r Hc Hr IHr]; [reflexivity |].
    cbn [flat_map]. rewrite !map_app. now rewrite (Hc b b'), IHr.
Qed.

Lemma flat_oids (f : list node) (anc : list (nat * string)) :
  map e_oid (flat anc f) = oids f.
Proof.
  unfold oids, flat. induction f as [| n f IH]; [reflexivity |].
  cbn [flat_map]. rewrite !map_app. now rewrite (flat_node_oids n anc []), IH.
Qed.

Lemma oids_cons (n : node) (f : list node) : oids (n :: f) = oids [n] ++ oids f.
Proof.
  unfold oids. rewrite flat_cons, map_app. cbn [flat flat_map].
  now rewrite app_nil_r.
Qed.

Lemma oids_tag (o : nat) (nm : string) (a : attrs) (cs : list node) :
  oids [Tag o nm a cs] = o :: oids cs.
Proof.
  unfold oids. cbn [flat flat_map flat_node]. rewrite app_nil_r.
  cbn [map e_oid]. f_equal. apply flat_oids.
Qed.

Lemma flat_node_oids_single (n : node) (anc : list (nat * string)) :
  map e_oid (flat_node anc n) = oids [n].
Proof.
  rewrite <- (flat_oids [n] anc). cbn [flat flat_map]. now rewrite app_nil_r.
Qed.

Lemma flat_single (anc : list (nat * string)) (n : node) :
  flat anc [n] = flat_node anc n.
Proof. cbn [flat flat_map]. apply app_nil_r. Qed.

Lemma flat_node_tag (anc : list (nat * string)) (o : nat) (nm : string)
      (a : attrs) (cs : list node) :
  flat_node anc (Tag o nm a cs)
  = {| e_oid := o; e_anc := anc; e_label := LTag nm a |}
      :: flat ((o, nm) :: anc) cs.
Proof. reflexivity. Qed.

Lemma flat_node_head (n : node) (anc : list (nat * string)) :
  exists e tl, flat_node anc n = e :: tl /\ e_oid e = oid n /\ e_anc e = anc.
Proof. destruct n; simpl; eauto. Qed.

(** *** The shape of an edit *)

(** A reference that is not in the tree changes nothing. *)
Lemma edit_absent (o : nat) (mk : node -> list node) (n : node) :
  ~ In o (oids [n]) -> edit_node o mk n = [n].
Proof.
  induction n as [i k s | i nm a cs IH] using node_induction; intros H.
  - cbn [edit_node oid]. destruct (Nat.eqb_spec i o) as [-> | _]; [| reflexivity].
    exfalso. apply H. now left.
  - rewrite oids_tag in H. cbn [edit_node oid].
    destruct (Nat.eqb_spec i o) as [-> | _].
    + exfalso. apply H. now left.
    + do 2 f_equal.
      assert (Hcs : ~ In o (oids cs)) by (intros Hc; apply H; now right).
      clear H. induction IH as [| c r Hc Hr IHr]; [reflexivity |].
      rewrite oids_cons in Hcs. cbn [flat_map].
      rewrite Hc by (intros X; apply Hcs, in_or_app; now left).
      rewrite IHr by (intros X; apply Hcs, in_or_app; now right).
      reflexivity.
Qed.

Lemma edit_absent_forest (o : nat) (mk : node -> list node) (f : list node) :
  ~ In o (oids f) -> edit o mk f = f.
Proof.
  induction f as [| n f IH]; intros H; [reflexivity |].
  rewrite oids_cons in H. unfold edit. cbn [flat_map].
  rewrite edit_absent by (intros X; apply H, in_or_app; now left).
  fold (edit o mk f).
  rewrite IH by (intros X; apply H, in_or_app; now right).
  reflexivity.
Qed.

Lemma edit_shape_in (o : nat) (mk : node -> list node) (old new : list entry) :
  edit_shape o mk old new -> In o (map e_oid old).
Proof.
  intros (x & anc_x & l1 & l2 & -> & <- & _).
  destruct (flat_node_head x anc_x) as (e & tl & -> & He & _).
  rewrite map_app. apply in_or_app. right. left. exact He.
Qed.

Lemma NoDup_app_disjoint (A : Type) (l1 l2 : list A) (a : A) :
  NoDup (l1 ++ l2) -> In a l1 -> ~ In a l2.
Proof.
  induction l1 as [| x l1 IH]; intros Hnd H1 H2; [contradiction |].
  simpl in Hnd. inversion Hnd as [| ? ? Hx Hnd']; subst.
  destruct H1 as [-> | H1].
  - apply Hx, in_or_app. now right.
  - now apply (IH Hnd' H1).
Qed.

Lemma edit_forest_shape_from (o : nat) (mk : node -> list node) (cs : list node) :
  Forall (edit_node_shape_at o mk) cs ->
  forall b,
    NoDup (oids cs) ->
    (~ In o (oids cs) /\ edit o mk cs = cs)
    \/ edit_shape o mk (flat b cs) (flat b (edit o mk cs)).
Proof.
  intros IH b. unfold edit.
  induction IH as [| c r Hc Hr IHr]; intros Hcs.
  - left. split; [intros [] | reflexivity].
  - rewrite oids_cons in Hcs.
    pose proof (NoDup_app_remove_r _ _ Hcs) as Hndc.
    pose proof (NoDup_app_remove_l _ _ Hcs) as Hndr.
    cbn [flat_map]. rewrite flat_cons, flat_app.
    destruct (Hc b Hndc) as [[Hnc Ec] | Hs].
    + rewrite Ec. destruct (IHr Hndr) as [[Hnr Er] | Hs].
      * left. split.
        -- rewrite oids_cons. intros X.
           apply in_app_or in X as [X | X]; auto.
        -- now rewrite Er.
      * right. destruct Hs as (x & ax & l1 & l2 & E1 & Ex & E2).
        exists x, ax, (flat_node b c ++ l1), l2.
        cbn [flat flat_map]. rewrite app_nil_r.
        fold (flat b r). rewrite E1.
        fold (flat b (flat_map (edit_node o mk) r)). rewrite E2.
        rewrite <- !app_assoc. auto.
    + right.
      assert (Hin : In o (oids [c])).
      { rewrite <- (flat_node_oids_single c b).
        exact (edit_shape_in _ _ _ _ Hs). }
      assert (Hnr : ~ In o (oids r))
        by exact (NoDup_app_disjoint _ _ _ _ Hcs Hin).
      fold (edit o mk r). rewrite (edit_absent_forest o mk r Hnr).
      destruct Hs as (x & ax & l1 & l2 & E1 & Ex & E2).
      exists x, ax, l1, (l2 ++ flat b r).
      rewrite E1, E2. rewrite <- !app_assoc. auto.
Qed.

Lemma edit_node_shape (o : nat) (mk : node -> list node) (n : node) :
  edit_node_shape_at o mk n.
Proof.
  induction n as [i k s | i nm a cs IH] using node_induction; intros anc Hnd.
  - cbn [edit_node oid]. destruct (Nat.eqb_spec i o) as [-> | Hne].
    + right. exists (Str o k s), anc, [], [].
      cbn [app]. rewrite !app_nil_r. auto.
    + left. split; [| reflexivity]. intros [H | []]. now apply Hne.
  - rewrite oids_tag in Hnd. inversion Hnd as [| ? ? Hi Hcs]; subst.
    cbn [edit_node oid]. fold (edit o mk cs).
    destruct (Nat.eqb_spec i o) as [-> | Hne].
    + right. rewrite (edit_absent_forest o mk cs Hi).
      exists (Tag o nm a cs), anc, [], [].
      cbn [app]. rewrite !app_nil_r. auto.
    + destruct (edit_forest_shape_from o mk cs IH ((i, nm) :: anc) Hcs)
        as [[Hnc Ec] | Hs].
      * left. split.
        -- rewrite oids_tag. intros [X | X]; auto.
        -- now rewrite Ec.
      * right. destruct Hs as (x & ax & l1 & l2 & E1 & Ex & E2).
        exists x, ax,
          ({| e_oid := i; e_anc := anc; e_label := LTag nm a |} :: l1), l2.
        rewrite flat_single, !flat_node_tag, E1, E2. auto.
Qed.

Lemma edit_forest_shape (o : nat) (mk : node -> list node) (f : list node) :
  NoDup (oids f) ->
  (~ In o (oids f) /\ edit o mk f = f)
  \/ edit_shape o mk (flat [] f) (flat [] (edit o mk f)).
Proof.
  apply edit_forest_shape_from.
  apply Forall_forall. intros n _. apply edit_node_shape.
Qed.

(** *** Lists *)

Lemma filter_filter (A : Type) (f g : A -> bool) (l : list A) :
  filter f (filter g l) = filter (fun x => f x && g x) l.
Proof.
  induction l as [| x l IH]; [reflexivity |]. simpl.
  destruct (g x); simpl.
  - rewrite andb_true_r. destruct (f x); now rewrite IH.
  - now rewrite andb_false_r.
Qed.

Lemma filter_id (A : Type) (f : A -> bool) (l : list A) :
  (forall x, In x l -> f x = true) -> filter f l = l.
Proof.
  induction l as [| x l IH]; intros H; [reflexivity |]. simpl.
  rewrite (H x (or_introl eq_refl)). f_equal. apply IH.
  intros y Hy. apply H. now right.
Qed.

Lemma filter_none (A : Type) (f : A -> bool) (l : list A) :
  (forall x, In x l -> f x = false) -> filter f l = [].
Proof.
  induction l as [| x l IH]; intros H; [reflexivity |]. simpl.
  rewrite (H x (or_introl eq_refl)). apply IH.
  intros y Hy. apply H. now right.
Qed.

Lemma find_filter (A : Type) (f : A -> bool) (l : list A) :
  find f l = hd_error (filter f l).
Proof.
  induction l as [| x l IH]; [reflexivity |]. simpl.
  destruct (f x); [reflexivity | exact IH].
Qed.

Lemma mem_In (x : nat) (l : list nat) : mem x l = true <-> In x l.
Proof.
  unfold mem. rewrite existsb_exists. split.
  - intros (y & Hy & E). apply Nat.eqb_eq in E. now subst.
  - intros H. exists x. split; [exact H | apply Nat.eqb_refl].
Qed.

Lemma mem_app (x : nat) (l1 l2 : list nat) :
  mem x (l1 ++ l2) = mem x l1 || mem x l2.
Proof. apply existsb_app. Qed.

Lemma NoDup_oid_eq (l : list entry) (e e' : entry) :
  NoDup (map e_oid l) -> In e l -> In e' l -> e_oid e = e_oid e' -> e = e'.
Proof.
  induction l as [| x l IH]; intros Hnd He He' E; [contradiction |].
  simpl in Hnd. inversion Hnd as [| ? ? Hx Hnd']; subst.
  destruct He as [-> | He], He' as [-> | He'].
  - reflexivity.
  - exfalso. apply Hx. rewrite E. now apply in_map.
  - exfalso. apply Hx. rewrite <- E. now apply in_map.
  - now apply IH.
Qed.

Lemma NoDup_mid_remove (A : Type) (l1 R l2 : list A) :
  NoDup (l1 ++ R ++ l2) -> NoDup (l1 ++ l2).
Proof.
  induction R as [| x R IH]; intros H; [exact H |].
  apply IH. simpl in H. exact (NoDup_remove_1 _ _ _ H).
Qed.

Lemma NoDup_mid_disjoint (A : Type) (l1 R l2 : list A) (x : A) :
  NoDup (l1 ++ R ++ l2) -> In x R -> ~ In x (l1 ++ l2).
Proof.
  intros H Hx Hin.
  apply in_app_or in Hin as [Hin | Hin].
  - refine (NoDup_app_disjoint _ _ _ _ H Hin _).
    apply in_or_app. now left.
  - apply NoDup_app_remove_l in H.
    exact (NoDup_app_disjoint _ _ _ _ H Hx Hin).
Qed.

Lemma NoDup_mid_insert (A : Type) (l1 N l2 : list A) :
  NoDup (l1 ++ l2) -> NoDup N -> (forall x, In x N -> ~ In x (l1 ++ l2)) ->
  NoDup (l1 ++ N ++ l2).
Proof.
  intros H HN Hd.
  apply (Permutation_NoDup (l := N ++ l1 ++ l2)).
  - rewrite !app_assoc. apply Permutation_app_tail, Permutation_app_comm.
  - apply NoDup_app; assumption.
Qed.

(** *** The effect of one splice on a well-formed soup *)

Lemma wf_bound (s : soup) (e : entry) :
  wf s -> In e (flat [] (fst s)) -> e_oid e < snd s.
Proof.
  intros [_ Hb] He. rewrite Forall_forall in Hb. apply Hb.
  unfold oids. now apply in_map.
Qed.

Lemma evolve_refl (K : entry -> bool) (s : soup) : wf s -> evolve K s s [].
Proof.
  intros Hwf. split; [lia |]. split.
  - rewrite !filter_id; [reflexivity | reflexivity |].
    intros e He. apply Nat.ltb_lt. exact (wf_bound s e Hwf He).
  - rewrite Forall_forall. intros e He Hge.
    pose proof (wf_bound s e Hwf He). lia.
Qed.

Lemma filter_notin_app (rm1 rm2 : list nat) (l : list entry) :
  filter (fun e => negb (mem (e_oid e) (rm1 ++ rm2))) l
  = filter (fun e => negb (mem (e_oid e) rm2))
           (filter (fun e => negb (mem (e_oid e) rm1)) l).
Proof.
  rewrite filter_filter. apply filter_ext. intros e.
  rewrite mem_app, negb_orb. apply andb_comm.
Qed.

Lemma filter_comm (A : Type) (f g : A -> bool) (l : list A) :
  filter f (filter g l) = filter g (filter f l).
Proof.
  rewrite !filter_filter. apply filter_ext. intros x. apply andb_comm.
Qed.

(** One splice, seen from the soup [s0] the run started with: the entries
    [R] leave the document, the new entries [N] take their place. *)
Lemma splice_step (K : entry -> bool) (s0 : soup) (rm : list nat)
      (t t' : list node) (bound bound' : nat) (l1 R N l2 : list entry) :
  wf (t, bound) ->
  evolve K s0 (t, bound) rm ->
  flat [] t = l1 ++ R ++ l2 ->
  flat [] t' = l1 ++ N ++ l2 ->
  bound <= bound' ->
  NoDup (map e_oid N) ->
  (forall e, In e N ->
             snd s0 <= e_oid e < bound' /\ ~ In (e_oid e) (oids t)
             /\ K e = true) ->
  wf (t', bound')
  /\ evolve K s0 (t', bound') (rm ++ map e_oid R)
  /\ (forall x, In x (oids t') -> In x (oids t) \/ In x (map e_oid N)).
Proof.
  intros Hwf (Hlo & Hfil & HK0) Eo En Hle HN HK. cbn [fst snd] in *.
  assert (Hold : forall e, In e (l1 ++ R ++ l2) -> e_oid e < bound).
  { intros e He. rewrite <- Eo in He. exact (wf_bound (t, bound) e Hwf He). }
  destruct Hwf as [Hnd _]. cbn [fst snd] in *.
  assert (Hnd' : NoDup (map e_oid (l1 ++ R ++ l2)))
    by (rewrite <- Eo; exact Hnd).
  rewrite !map_app in Hnd'.
  assert (Hl1 : forall e, In e l1 -> e_oid e < bound).
  { intros e He. apply Hold, in_or_app. now left. }
  assert (Hl2 : forall e, In e l2 -> e_oid e < bound).
  { intros e He. apply Hold, in_or_app. right. apply in_or_app. now right. }
  assert (Hsub : forall x, In x (map e_oid (l1 ++ l2)) -> In x (oids t)).
  { intros x Hx. unfold oids. rewrite Eo, !map_app.
    rewrite map_app in Hx. apply in_app_or in Hx as [Hx | Hx];
      apply in_or_app; [now left | right; apply in_or_app; now right]. }
  split; [split | split]; unfold evolve; cbn [fst snd].
  - unfold oids. rewrite En, !map_app.
    apply NoDup_mid_insert; [exact (NoDup_mid_remove _ _ _ _ Hnd') | exact HN |].
    intros x Hx Hin. apply in_map_iff in Hx as (e & <- & He).
    destruct (HK e He) as (_ & Hnew & _). apply Hnew, Hsub.
    now rewrite map_app.
  - unfold oids. rewrite En, Forall_forall. intros x Hx.
    apply in_map_iff in Hx as (e & <- & He).
    apply in_app_or in He as [He | He]; [apply Hl1 in He; lia |].
    apply in_app_or in He as [He | He]; [| apply Hl2 in He; lia].
    destruct (HK e He) as [[_ Hhi] _]. exact Hhi.
  - split; [lia |]. split.
    + rewrite filter_notin_app, <- Hfil, Eo, En, filter_comm, !filter_app.
      rewrite (filter_none _ _ N), (filter_none _ _ R).
      * rewrite (filter_id _ (fun e => negb (mem (e_oid e) (map e_oid R))) l1),
          (filter_id _ (fun e => negb (mem (e_oid e) (map e_oid R))) l2);
          [reflexivity | |].
        -- intros e He. apply negb_true_iff.
           destruct (mem (e_oid e) (map e_oid R)) eqn:Em; [| reflexivity].
           exfalso. apply mem_In in Em.
           apply (NoDup_mid_disjoint _ _ _ _ _ Hnd' Em).
           apply in_or_app. right. now apply in_map.
        -- intros e He. apply negb_true_iff.
           destruct (mem (e_oid e) (map e_oid R)) eqn:Em; [| reflexivity].
           exfalso. apply mem_In in Em.
           apply (NoDup_mid_disjoint _ _ _ _ _ Hnd' Em).
           apply in_or_app. left. now apply in_map.
      * intros e He. apply negb_false_iff, mem_In. now apply in_map.
      * intros e He. destruct (HK e He) as [[Hge _] _].
        apply Nat.ltb_ge. exact Hge.
    + rewrite En, Forall_forall. rewrite Eo, Forall_forall in HK0.
      intros e He Hge.
      apply in_app_or in He as [He | He];
        [apply HK0; [apply in_or_app; now left | exact Hge] |].
      apply in_app_or in He as [He | He].
      * exact (proj2 (proj2 (HK e He))).
      * apply HK0; [| exact Hge].
        apply in_or_app. right. apply in_or_app. now right.
  - intros x Hx. unfold oids in Hx. rewrite En, !map_app in Hx.
    apply in_app_or in Hx as [Hx | Hx].
    + left. apply Hsub. rewrite map_app. apply in_or_app. now left.
    + apply in_app_or in Hx as [Hx | Hx]; [now right |].
      left. apply Hsub. rewrite map_app. apply in_or_app. now right.
Qed.

(** Leaving the tree alone, while identities may be consumed. *)
Lemma same_step (K : entry -> bool) (s0 : soup) (rm : list nat)
      (t : list node) (bound bound' : nat) :
  wf (t, bound) -> evolve K s0 (t, bound) rm -> bound <= bound' ->
  wf (t, bound') /\ evolve K s0 (t, bound') rm.
Proof.
  intros Hwf Hev Hle.
  destruct (splice_step K s0 rm t t bound bound' (flat [] t) [] [] [])
    as (H1 & H2 & _); auto.
  - now rewrite !app_nil_r.
  - now rewrite !app_nil_r.
  - constructor.
  - intros e [].
  - split; [exact H1 |]. cbn [map] in H2. now rewrite app_nil_r in H2.
Qed.

(** *** The three mutations *)

(** A reference that is in the tree is found at the one place where its
    entry stands. *)
Lemma edit_found (o : nat) (mk : node -> list node) (t : list node) (e : entry) :
  NoDup (oids t) -> In e (flat [] t) -> e_oid e = o ->
  exists x tl l1 l2,
    flat_node (e_anc e) x = e :: tl
    /\ flat [] t = l1 ++ (e :: tl) ++ l2
    /\ flat [] (edit o mk t) = l1 ++ flat (e_anc e) (mk x) ++ l2.
Proof.
  intros Hnd He Eo.
  destruct (edit_forest_shape o mk t Hnd) as [[Habs _] | Hs].
  - exfalso. apply Habs. unfold oids. rewrite <- Eo. now apply in_map.
  - destruct Hs as (x & ax & l1 & l2 & E1 & Ex & E2).
    destruct (flat_node_head x ax) as (e0 & tl & Eh & Ho & Ha).
    assert (e0 = e).
    { apply (NoDup_oid_eq (flat [] t)); [exact Hnd | | exact He | congruence].
      rewrite E1, Eh. apply in_or_app. right. now left. }
    subst e0. subst ax. exists x, tl, l1, l2.
    rewrite <- Eh. auto.
Qed.

Section Mutations.
Variable K : entry -> bool.
Variable s0 : soup.

Lemma insertable_entries (t : list node) (bound' : nat) (n : node)
      (anc : list (nat * string)) :
  insertable K s0 t bound' n ->
  NoDup (map e_oid (flat_node anc n))
  /\ forall e, In e (flat_node anc n) ->
               snd s0 <= e_oid e < bound' /\ ~ In (e_oid e) (oids t)
               /\ K e = true.
Proof.
  intros [Hnd H]. split.
  - now rewrite flat_node_oids_single.
  - intros e He. exact (H anc e He).
Qed.

Lemma insert_after_step (rm : list nat) (t : list node) (bound bound' : nat)
      (o : nat) (n : node) :
  wf (t, bound) -> evolve K s0 (t, bound) rm -> bound <= bound' ->
  insertable K s0 t bound' n ->
  wf (insert_after t o n, bound')
  /\ evolve K s0 (insert_after t o n, bound') rm
  /\ (forall x, In x (oids (insert_after t o n)) ->
                In x (oids t) \/ In x (oids [n])).
Proof.
  intros Hwf Hev Hle Hn. unfold insert_after.
  destruct (in_dec Nat.eq_dec o (oids t)) as [Hin | Hout].
  - unfold oids in Hin. apply in_map_iff in Hin as (e & Eo & He).
    destruct (edit_found o (fun x => [x; n]) t e (proj1 Hwf) He Eo)
      as (x & tl & l1 & l2 & Ex & E1 & E2).
    destruct (insertable_entries t bound' n (e_anc e) Hn) as [HN HK].
    destruct (splice_step K s0 rm t (edit o (fun x => [x; n]) t) bound bound'
                (l1 ++ e :: tl) [] (flat_node (e_anc e) n) l2)
      as (H1 & H2 & H3); auto.
    + rewrite E1. cbn [app]. now rewrite <- app_assoc.
    + rewrite E2. cbn [flat flat_map]. rewrite Ex, app_nil_r.
      now rewrite <- !app_assoc.
    + split; [exact H1 |]. cbn [map] in H2. rewrite app_nil_r in H2.
      split; [exact H2 |]. intros y Hy.
      rewrite <- (flat_node_oids_single n (e_anc e)). auto.
  - rewrite (edit_absent_forest o _ t Hout).
    destruct (same_step K s0 rm t bound bound' Hwf Hev Hle) as [H1 H2].
    auto.
Qed.

Lemma replace_with_step (rm : list nat) (t : list node) (bound bound' : nat)
      (o : nat) (e : entry) (n : node) :
  wf (t, bound) -> evolve K s0 (t, bound) rm -> bound <= bound' ->
  In e (flat [] t) -> e_oid e = o -> is_str e = true ->
  insertable K s0 t bound' n ->
  wf (replace_with t o n, bound')
  /\ evolve K s0 (replace_with t o n, bound') (rm ++ [o])
  /\ (forall x, In x (oids (replace_with t o n)) ->
                In x (oids t) \/ In x (oids [n])).
Proof.
  intros Hwf Hev Hle He Eo Hs Hn. unfold replace_with.
  destruct (edit_found o (fun _ => [n]) t e (proj1 Hwf) He Eo)
    as (x & tl & l1 & l2 & Ex & E1 & E2).
  assert (tl = []).
  { destruct x as [i k s | i nm a cs]; cbn [flat_node] in Ex.
    - now injection Ex as _ <-.
    - injection Ex as Hrec _. rewrite <- Hrec in Hs. discriminate Hs. }
  subst tl.
  destruct (insertable_entries t bound' n (e_anc e) Hn) as [HN HK].
  destruct (splice_step K s0 rm t (edit o (fun _ => [n]) t) bound bound'
              l1 [e] (flat_node (e_anc e) n) l2)
    as (H1 & H2 & H3); auto.
  - rewrite E2. now rewrite flat_single.
  - split; [exact H1 |]. cbn [map] in H2. rewrite Eo in H2.
    split; [exact H2 |]. intros y Hy.
    rewrite <- (flat_node_oids_single n (e_anc e)). auto.
Qed.

Lemma append_step (rm : list nat) (t : list node) (bound bound' : nat)
      (o : nat) (e : entry) (nm : string) (a : attrs) (n : node) :
  wf (t, bound) -> evolve K s0 (t, bound) rm -> bound <= bound' ->
  In e (flat [] t) -> e_oid e = o -> e_label e = LTag nm a ->
  insertable K s0 t bound' n ->
  wf (append t o n, bound')
  /\ evolve K s0 (append t o n, bound') rm
  /\ exists l1 l2,
      flat [] t = l1 ++ l2
      /\ flat [] (append t o n)
         = l1 ++ flat_node ((o, nm) :: e_anc e) n ++ l2.
Proof.
  intros Hwf Hev Hle He Eo Hl Hn. unfold append.
  destruct (edit_found o (fun x => [append_child x n]) t e (proj1 Hwf) He Eo)
    as (x & tl & l1 & l2 & Ex & E1 & E2).
  destruct x as [i k s | i nm' a' cs]; cbn [flat_node] in Ex.
  - injection Ex as Hrec _. rewrite <- Hrec in Hl. discriminate Hl.
  - injection Ex as Hrec Htl.
    assert (i = o) by (rewrite <- Eo, <- Hrec; reflexivity).
    assert (Hl' : LTag nm' a' = LTag nm a) by (rewrite <- Hl, <- Hrec; reflexivity).
    injection Hl' as -> ->. subst i.
    fold (flat ((o, nm) :: e_anc e) cs) in Htl.
    destruct (insertable_entries t bound' n ((o, nm) :: e_anc e) Hn)
      as [HN HK].
    assert (E2' : flat [] (edit o (fun x => [append_child x n]) t)
                  = (l1 ++ e :: tl)
                      ++ flat_node ((o, nm) :: e_anc e) n ++ l2).
    { rewrite E2. cbn [append_child]. rewrite flat_single, flat_node_tag.
      rewrite flat_app, flat_single, Htl, Hrec.
      cbn [app]. rewrite <- !app_assoc. reflexivity. }
    destruct (splice_step K s0 rm t (edit o (fun x => [append_child x n]) t)
                bound bound'
                (l1 ++ e :: tl) []
                (flat_node ((o, nm) :: e_anc e) n) l2)
      as (H1 & H2 & H3); auto.
    + rewrite E1. cbn [app]. now rewrite <- app_assoc.
    + split; [exact H1 |]. cbn [map] in H2. rewrite app_nil_r in H2.
      split; [exact H2 |].
      exists (l1 ++ e :: tl), l2.
      split; [| exact E2'].
      rewrite E1. cbn [app]. now rewrite <- app_assoc.
Qed.

End Mutations.

(** *** Newly created nodes *)

Lemma oids_app (f g : list node) : oids (f ++ g) = oids f ++ oids g.
Proof. unfold oids. now rewrite flat_app, map_app. Qed.

Lemma fresh_nodes_nil (K : entry -> bool) (a b : nat) : fresh_nodes K a b [].
Proof. split; [constructor | intros anc e []]. Qed.

Lemma fresh_nodes_oids (K : entry -> bool) (a b : nat) (l : list node) (x : nat) :
  fresh_nodes K a b l -> In x (oids l) -> a <= x < b.
Proof.
  intros [_ H] Hx. unfold oids in Hx. apply in_map_iff in Hx as (e & <- & He).
  exact (proj1 (H [] e He)).
Qed.

Lemma fresh_nodes_app (K : entry -> bool) (a b c : nat) (l1 l2 : list node) :
  fresh_nodes K a b l1 -> fresh_nodes K b c l2 -> a <= b -> b <= c ->
  fresh_nodes K a c (l1 ++ l2).
Proof.
  intros H1 H2 Hab Hbc. split.
  - rewrite oids_app. apply NoDup_app; [exact (proj1 H1) | exact (proj1 H2) |].
    intros x Hx1 Hx2.
    pose proof (fresh_nodes_oids K a b l1 x H1 Hx1).
    pose proof (fresh_nodes_oids K b c l2 x H2 Hx2). lia.
  - intros anc e He. rewrite flat_app in He.
    apply in_app_or in He as [He | He].
    + destruct (proj2 H1 anc e He) as [Hr Hk]. split; [lia | exact Hk].
    + destruct (proj2 H2 anc e He) as [Hr Hk]. split; [lia | exact Hk].
Qed.

Lemma fresh_nodes_kind (K K' : entry -> bool) (a b : nat) (l : list node) :
  (forall e, K e = true -> K' e = true) ->
  fresh_nodes K a b l -> fresh_nodes K' a b l.
Proof.
  intros HK [Hnd H]. split; [exact Hnd |].
  intros anc e He. destruct (H anc e He) as [Hr Hk]. auto.
Qed.

Ltac fresh_tac :=
  split;
  [ unfold oids; cbn;
    repeat (constructor; [cbn; intuition lia |]); constructor
  | intros anc e He; cbn in He;
    repeat (destruct He as [<- | He]; [cbn; split; [lia | reflexivity] |]);
    contradiction ].

Lemma token_nodes_fresh (token : pystr) (mode : string) (next : nat) :
  next <= snd (token_nodes token mode next)
  /\ fresh_nodes ann_kind next (snd (token_nodes token mode next))
                 (fst (token_nodes token mode next)).
Proof.
  unfold token_nodes.
  destruct (WORD_RE_fullmatch token).
  - destruct (if String.eqb mode "bionic" then bionic_parts token
              else first_syllable_parts token) as [strong_text rest_text].
    destruct strong_text as [| c strong_text'].
    + cbn. split; [lia | fresh_tac].
    + destruct rest_text as [| d rest_text']; cbn; (split; [lia | fresh_tac]).
  - cbn. split; [lia | fresh_tac].
Qed.

Lemma new_gap_fresh (next : nat) :
  snd (new_gap next) = S (S next)
  /\ fresh_nodes pass_kind next (S (S next)) [fst (new_gap next)].
Proof. cbn. split; [reflexivity | fresh_tac]. Qed.

Lemma build_step_fresh (text : pystr) (mode : string) (m : Match)
      (nodes : list node) (i : Z) (next n : nat) :
  next <= n -> fresh_nodes ann_kind next n nodes ->
  let '(nodes', _, n') := build_step text mode (nodes, i, n) m in
  n <= n' /\ fresh_nodes ann_kind next n' nodes'.
Proof.
  intros Hle Hf. unfold build_step.
  destruct (i <? m_start m)%Z.
  - cbn [new_string].
    pose proof (token_nodes_fresh (m_group m) mode (S n)) as [Hn Ht].
    destruct (token_nodes (m_group m) mode (S n)) as [tok n'].
    cbn [fst snd] in *. split; [lia |].
    apply (fresh_nodes_app ann_kind next n n'); [exact Hf | | lia | lia].
    apply (fresh_nodes_app ann_kind n (S n) n'); [fresh_tac | exact Ht | lia | lia].
  - pose proof (token_nodes_fresh (m_group m) mode n) as [Hn Ht].
    destruct (token_nodes (m_group m) mode n) as [tok n'].
    cbn [fst snd app] in *. split; [lia |].
    apply (fresh_nodes_app ann_kind next n n'); [exact Hf | exact Ht | lia | lia].
Qed.

Lemma build_loop_fresh (text : pystr) (mode : string) (next : nat) :
  forall ms nodes i n,
    next <= n -> fresh_nodes ann_kind next n nodes ->
    let '(nodes', _, n') :=
      fold_left (build_step text mode) ms (nodes, i, n) in
    n <= n' /\ fresh_nodes ann_kind next n' nodes'.
Proof.
  induction ms as [| m r IH]; intros nodes i n Hle Hf.
  - cbn. split; [lia | exact Hf].
  - cbn [fold_left].
    pose proof (build_step_fresh text mode m nodes i next n Hle Hf) as Hs.
    destruct (build_step text mode (nodes, i, n) m) as [[nodes1 i1] n1].
    destruct Hs as [Hn1 Hf1].
    specialize (IH nodes1 i1 n1 ltac:(lia) Hf1).
    destruct (fold_left (build_step text mode) r (nodes1, i1, n1))
      as [[nodes' i'] n'].
    destruct IH as [Hn' Hf']. split; [lia | exact Hf'].
Qed.

(** The nodes the annotator returns are new objects: strings, [strong]
    and [span] elements with identities from [next] on. *)
Lemma build_nodes_for_text_fresh_ann (next : nat) (text : pystr) (mode : string)
      (nodes : list node) (next' : nat) :
  build_nodes_for_text next text mode = Some (nodes, next') ->
  next <= next' /\ fresh_nodes ann_kind next next' nodes.
Proof.
  unfold build_nodes_for_text. intros H.
  destruct (TOKEN_RE_search text); [| discriminate].
  pose proof (build_loop_fresh text mode next (TOKEN_RE_finditer text)
                [] 0%Z next (le_n next) (fresh_nodes_nil ann_kind next next))
    as Hl.
  destruct (fold_left (build_step text mode) (TOKEN_RE_finditer text)
                      ([], 0%Z, next)) as [[nodes1 i1] n1].
  destruct Hl as [Hn Hf].
  destruct (i1 <? len text)%Z.
  - cbn [new_string] in H. injection H as <- <-. split; [lia |].
    apply (fresh_nodes_app ann_kind next n1 (S n1));
      [exact Hf | fresh_tac | lia | lia].
  - injection H as <- <-. split; [lia | exact Hf].
Qed.

Lemma ann_kind_pass (e : entry) : ann_kind e = true -> pass_kind e = true.
Proof.
  unfold ann_kind, pass_kind. destruct (e_label e); [tauto |].
  intros H. now rewrite H.
Qed.

Lemma build_nodes_for_text_fresh (next : nat) (text : pystr) (mode : string)
      (nodes : list node) (next' : nat) :
  build_nodes_for_text next text mode = Some (nodes, next') ->
  next <= next' /\ fresh_nodes pass_kind next next' nodes.
Proof.
  intros H.
  destruct (build_nodes_for_text_fresh_ann next text mode nodes next' H)
    as [Hle Hf].
  split; [exact Hle |].
  exact (fresh_nodes_kind ann_kind pass_kind next next' nodes ann_kind_pass Hf).
Qed.

(** *** Replacing a text node by a run of nodes *)

Lemma insert_chain_step (K : entry -> bool) (s0 : soup) (rm : list nat)
      (bound next' : nat) :
  snd s0 <= bound ->
  forall rest tk cur D,
    wf (tk, next') -> evolve K s0 (tk, next') rm ->
    (forall x, In x (oids tk) -> x < bound \/ In x D) ->
    NoDup (oids rest) ->
    (forall x, In x (oids rest) -> ~ In x D) ->
    (forall anc e, In e (flat anc rest) ->
                   bound <= e_oid e < next' /\ K e = true) ->
    let t' := fst (fold_left
                     (fun (st : list node * node) (nd : node) =>
                        (insert_after (fst st) (oid (snd st)) nd, nd))
                     rest (tk, cur)) in
    wf (t', next') /\ evolve K s0 (t', next') rm.
Proof.
  intros Hlo. induction rest as [| nd rest IH];
    intros tk cur D Hwf Hev Hold Hnd Hdis Hk.
  - cbn. auto.
  - cbn [fold_left fst snd]. rewrite oids_cons in Hnd, Hdis.
    assert (Hins : insertable K s0 tk next' nd).
    { split; [exact (NoDup_app_remove_r _ _ Hnd) |].
      intros anc e He.
      assert (He' : In e (flat anc (nd :: rest))).
      { rewrite flat_cons. apply in_or_app. now left. }
      destruct (Hk anc e He') as [Hr Hke]. split; [lia |].
      split; [| exact Hke]. intros Hin.
      destruct (Hold _ Hin) as [Hlt | HD]; [lia |].
      apply (Hdis (e_oid e)); [| exact HD].
      apply in_or_app. left.
      rewrite <- (flat_node_oids_single nd anc). now apply in_map. }
    destruct (insert_after_step K s0 rm tk next' next' (oid cur) nd
                Hwf Hev (le_n _) Hins) as (Hwf' & Hev' & Hsub).
    apply (IH (insert_after tk (oid cur) nd) nd (D ++ oids [nd]));
      [exact Hwf' | exact Hev' | | | |].
    + intros x Hx. destruct (Hsub x Hx) as [Hx' | Hx'].
      * destruct (Hold x Hx') as [? | ?]; [now left |].
        right. apply in_or_app. now left.
      * right. apply in_or_app. now right.
    + exact (NoDup_app_remove_l _ _ Hnd).
    + intros x Hx HD. apply in_app_or in HD as [HD | HD].
      * apply (Hdis x); [apply in_or_app; now right | exact HD].
      * exact (NoDup_app_disjoint _ _ _ _ Hnd HD Hx).
    + intros anc e He. apply (Hk anc). rewrite flat_cons.
      apply in_or_app. now right.
Qed.

Lemma replace_text_node_step (K : entry -> bool) (s0 : soup) (rm : list nat)
      (t : list node) (bound next' : nat) (o : nat) (e : entry)
      (first : node) (rest : list node) :
  wf (t, bound) -> evolve K s0 (t, bound) rm ->
  In e (flat [] t) -> e_oid e = o -> is_str e = true ->
  bound <= next' -> fresh_nodes K bound next' (first :: rest) ->
  wf (replace_text_node t o (first :: rest), next')
  /\ evolve K s0 (replace_text_node t o (first :: rest), next') (rm ++ [o]).
Proof.
  intros Hwf Hev He Eo Hs Hle [Hnd Hk].
  pose proof (proj1 Hev) as Hlo. cbn [fst snd] in Hlo.
  rewrite oids_cons in Hnd.
  assert (Hins : insertable K s0 t next' first).
  { split; [exact (NoDup_app_remove_r _ _ Hnd) |].
    intros anc x Hx.
    assert (Hx' : In x (flat anc (first :: rest))).
    { rewrite flat_cons. apply in_or_app. now left. }
    destruct (Hk anc x Hx') as [Hr Hkx]. split; [lia |].
    split; [| exact Hkx]. intros Hin.
    destruct Hwf as [_ Hb]. rewrite Forall_forall in Hb.
    specialize (Hb _ Hin). cbn [snd] in Hb. lia. }
  destruct (replace_with_step K s0 rm t bound next' o e first
              Hwf Hev Hle He Eo Hs Hins) as (Hwf1 & Hev1 & Hsub).
  unfold replace_text_node.
  apply (insert_chain_step K s0 (rm ++ [o]) bound next' Hlo rest
           (replace_with t o first) first (oids [first]));
    [exact Hwf1 | exact Hev1 | | | |].
  - intros x Hx. destruct (Hsub x Hx) as [Hx' | Hx']; [left | now right].
    destruct Hwf as [_ Hb]. rewrite Forall_forall in Hb.
    exact (Hb _ Hx').
  - exact (NoDup_app_remove_l _ _ Hnd).
  - intros x Hx HD. exact (NoDup_app_disjoint _ _ _ _ Hnd HD Hx).
  - intros anc x Hx. apply (Hk anc). rewrite flat_cons.
    apply in_or_app. now right.
Qed.

(** *** Ancestors *)

Lemma app_snoc_split (A : Type) (pre a1 a2 : list A) (x y : A) :
  pre ++ [x] = a1 ++ y :: a2 ->
  (a2 = [] /\ x = y /\ pre = a1)
  \/ exists a2', a2 = a2' ++ [x] /\ pre = a1 ++ y :: a2'.
Proof.
  revert a1. induction pre as [| z pre IH]; intros a1 H.
  - destruct a1 as [| w a1]; cbn in H.
    + injection H as -> <-. now left.
    + injection H as _ H. destruct a1; discriminate H.
  - destruct a1 as [| w a1]; cbn in H.
    + injection H as -> <-. right. exists pre. auto.
    + injection H as -> H. destruct (IH a1 H) as [(-> & -> & ->) | (a2' & -> & ->)].
      * now left.
      * right. exists a2'. auto.
Qed.

Lemma ancestors_listed_forest (f : list node) :
  Forall ancestors_listed_at f ->
  forall anc e,
    In e (flat anc f) ->
    exists pre,
      e_anc e = pre ++ anc
      /\ forall a1 q nm a2,
          pre = a1 ++ (q, nm) :: a2 ->
          exists a, In {| e_oid := q; e_anc := a2 ++ anc; e_label := LTag nm a |}
                       (flat anc f).
Proof.
  intros H anc e He. induction H as [| n r Hn Hr IH]; [contradiction |].
  rewrite flat_cons in He. apply in_app_or in He as [He | He].
  - destruct (Hn anc e He) as (pre & E & Hp). exists pre. split; [exact E |].
    intros a1 q nm a2 Es. destruct (Hp a1 q nm a2 Es) as [a Ha].
    exists a. rewrite flat_cons. apply in_or_app. now left.
  - destruct (IH He) as (pre & E & Hp). exists pre. split; [exact E |].
    intros a1 q nm a2 Es. destruct (Hp a1 q nm a2 Es) as [a Ha].
    exists a. rewrite flat_cons. apply in_or_app. now right.
Qed.

Lemma ancestors_listed_node (n : node) : ancestors_listed_at n.
Proof.
  induction n as [o k s | o nm0 a0 cs IH] using node_induction;
    intros anc e He.
  - destruct He as [<- | []]. exists []. split; [reflexivity |].
    intros a1 q nm a2 Es. destruct a1; discriminate Es.
  - rewrite flat_node_tag in He. destruct He as [<- | He].
    + exists []. split; [reflexivity |].
      intros a1 q nm a2 Es. destruct a1; discriminate Es.
    + destruct (ancestors_listed_forest cs IH ((o, nm0) :: anc) e He)
        as (pre & E & Hp).
      exists (pre ++ [(o, nm0)]). split.
      * rewrite E, <- app_assoc. reflexivity.
      * intros a1 q nm a2 Es.
        apply app_snoc_split in Es
          as [(-> & Ex & ->) | (a2' & -> & ->)].
        -- injection Ex as <- <-. exists a0. rewrite flat_node_tag. now left.
        -- destruct (Hp a1 q nm a2' eq_refl) as [a Ha].
           exists a. rewrite flat_node_tag. right.
           rewrite <- app_assoc. exact Ha.
Qed.

Lemma ancestors_listed (t : list node) (e : entry) (a1 a2 : list (nat * string))
      (q : nat) (nm : string) :
  In e (flat [] t) -> e_anc e = a1 ++ (q, nm) :: a2 ->
  exists a, In {| e_oid := q; e_anc := a2; e_label := LTag nm a |} (flat [] t).
Proof.
  intros He Ea.
  destruct (ancestors_listed_forest t) with (anc := @nil (nat * string)) (e := e)
    as (pre & E & Hp); [| exact He |].
  - apply Forall_forall. intros n _. apply ancestors_listed_node.
  - rewrite app_nil_r in E. rewrite E in Ea.
    destruct (Hp a1 q nm a2 Ea) as [a Ha]. rewrite app_nil_r in Ha. eauto.
Qed.

Lemma under_split (o : nat) (e : entry) :
  under o e = true -> exists a1 nm a2, e_anc e = a1 ++ (o, nm) :: a2.
Proof.
  unfold under. intros H. apply existsb_exists in H as ([q nm] & Hin & Eq).
  apply Nat.eqb_eq in Eq. cbn in Eq. subst q.
  apply in_split in Hin as (a1 & a2 & E). eauto.
Qed.

Lemma in_paragraph_split (body p : nat) (a1 a2 : list (nat * string)) :
  existsb (fun a => Nat.eqb (fst a) body) a2 = true ->
  in_paragraph body (a1 ++ (p, "p"%string) :: a2) = true.
Proof.
  intros H. induction a1 as [| [q nm] a1 IH]; cbn.
  - now rewrite H.
  - rewrite IH. apply orb_true_r.
Qed.

(** *** The passes keep the invariant of the run *)

Lemma find_entry_some (t : list node) (o : nat) (e : entry) :
  find_entry t o = Some e -> In e (flat [] t) /\ e_oid e = o.
Proof.
  unfold find_entry. intros H. apply find_some in H as [H1 H2].
  split; [exact H1 | now apply Nat.eqb_eq].
Qed.

(** An entry of the current soup that carries an identity of [s0] is the
    entry [s0] had for it. *)
Lemma transfer (K : entry -> bool) (s0 s : soup) (rm : list nat) (e e0 : entry) :
  wf s0 -> evolve K s0 s rm ->
  In e (flat [] (fst s)) -> In e0 (flat [] (fst s0)) -> e_oid e = e_oid e0 ->
  e = e0.
Proof.
  intros Hwf0 (_ & Hfil & _) He He0 Eo.
  pose proof (wf_bound s0 e0 Hwf0 He0) as Hlt.
  assert (Hin : In e (filter (fun e => e_oid e <? snd s0) (flat [] (fst s)))).
  { apply filter_In. split; [exact He |]. apply Nat.ltb_lt. lia. }
  rewrite Hfil in Hin. apply filter_In in Hin as [Hin _].
  exact (NoDup_oid_eq (flat [] (fst s0)) e e0 (proj1 Hwf0) Hin He0 Eo).
Qed.

(** A string of [s0] below a paragraph of the body, with a parent other
    than [script] and [style], is replaceable. *)
Lemma replaceable_from (s0 : soup) (body p : nat) (e0 : entry) :
  wf s0 ->
  (forall e, In e (flat [] (fst s0)) -> e_oid e = p ->
             is_tag_named "p" e = true /\ under body e = true) ->
  In e0 (flat [] (fst s0)) -> is_str e0 = true ->
  (String.eqb (parent_name e0) "script" || String.eqb (parent_name e0) "style")
  = false ->
  under p e0 = true ->
  replaceable body e0 = true.
Proof.
  intros Hwf0 Hp He0 Hs Hpar Hu. unfold replaceable.
  rewrite Hs, Hpar. cbn [negb andb].
  destruct (under_split p e0 Hu) as (a1 & nm & a2 & Ea).
  destruct (ancestors_listed (fst s0) e0 a1 a2 p nm He0 Ea) as [a Ha].
  destruct (Hp _ Ha eq_refl) as [Hn Hb].
  unfold is_tag_named in Hn. cbn [e_label] in Hn.
  apply String.eqb_eq in Hn. subst nm.
  rewrite Ea. apply in_paragraph_split. exact Hb.
Qed.

Section Passes.
Variable K : entry -> bool.
Hypothesis HK : forall e, pass_kind e = true -> K e = true.
Variable s0 : soup.
Hypothesis Hwf0 : wf s0.
Variable body : nat.
Variable mode : string.

Lemma removed_ok_app (rm1 rm2 : list nat) :
  removed_ok s0 body rm1 -> removed_ok s0 body rm2 ->
  removed_ok s0 body (rm1 ++ rm2).
Proof.
  intros H1 H2 x Hx. apply in_app_or in Hx as [Hx | Hx].
  - now apply H1.
  - now apply H2.
Qed.

Lemma rewrite_text_node_invariant (s : soup) (p o : nat) :
  run_invariant K s0 body s ->
  (forall e, In e (flat [] (fst s0)) -> e_oid e = p ->
             is_tag_named "p" e = true /\ under body e = true) ->
  (forall e, In e (flat [] (fst s0)) -> e_oid e = o -> under p e = true) ->
  run_invariant K s0 body (rewrite_text_node mode s o).
Proof.
  intros Hinv Hp Ho. destruct s as [t next]. unfold rewrite_text_node.
  destruct (find_entry t o) as [e |] eqn:Ef; [| exact Hinv].
  destruct (e_label e) as [k original | nm a] eqn:El; [| exact Hinv].
  destruct (String.eqb (parent_name e) "script"
            || String.eqb (parent_name e) "style") eqn:Epar; [exact Hinv |].
  destruct (build_nodes_for_text next original mode) as [[nodes next'] |] eqn:Eb;
    [| exact Hinv].
  destruct (build_nodes_for_text_fresh next original mode nodes next' Eb)
    as [Hle Hf].
  destruct Hinv as (Hwf & rm & Hev & Hrm).
  destruct (find_entry_some t o e Ef) as [He Eo].
  assert (Hs : is_str e = true) by (unfold is_str; now rewrite El).
  destruct nodes as [| first rest].
  - cbn [replace_text_node].
    destruct (same_step K s0 rm t next next' Hwf Hev Hle) as [H1 H2].
    split; [exact H1 |]. exists rm. auto.
  - destruct (replace_text_node_step K s0 rm t next next' o e first rest
                Hwf Hev He Eo Hs Hle (fresh_nodes_kind _ _ _ _ _ HK Hf))
      as [H1 H2].
    split; [exact H1 |]. exists (rm ++ [o]). split; [exact H2 |].
    apply removed_ok_app; [exact Hrm |].
    intros x [<- | []] e0 He0 Eo0.
    assert (e = e0) by (apply (transfer K s0 (t, next) rm); auto; congruence).
    subst e0. apply (replaceable_from s0 body p e); auto.
Qed.

Lemma rewrite_paragraph_invariant (s : soup) (p : nat) :
  run_invariant K s0 body s ->
  (forall e, In e (flat [] (fst s0)) -> e_oid e = p ->
             is_tag_named "p" e = true /\ under body e = true) ->
  run_invariant K s0 body (rewrite_paragraph mode s p).
Proof.
  intros Hinv Hp. unfold rewrite_paragraph.
  assert (Hos : forall o, In o (find_all_strings (fst s) p) ->
                forall e, In e (flat [] (fst s0)) -> e_oid e = o ->
                          under p e = true).
  { intros o Ho e0 He0 Eo0. unfold find_all_strings in Ho.
    apply in_map_iff in Ho as (e & Eo & He).
    apply filter_In in He as [He Hc]. apply andb_true_iff in Hc as [_ Hu].
    destruct Hinv as (_ & rm & Hev & _).
    assert (e = e0) by (apply (transfer K s0 s rm); auto; congruence).
    now subst e0. }
  revert Hinv Hos. generalize (find_all_strings (fst s) p). intros os.
  revert s. induction os as [| o os IH]; intros s Hinv Hos; [exact Hinv |].
  cbn [fold_left]. apply IH.
  - apply (rewrite_text_node_invariant s p o); auto.
    apply Hos. now left.
  - intros o' Ho'. apply Hos. now right.
Qed.

Lemma annotate_paragraphs_invariant (s : soup) :
  run_invariant K s0 body s ->
  run_invariant K s0 body (annotate_paragraphs mode s body).
Proof.
  intros Hinv. unfold annotate_paragraphs.
  assert (Hps : forall p, In p (find_all_named (fst s) body "p") ->
                forall e, In e (flat [] (fst s0)) -> e_oid e = p ->
                          is_tag_named "p" e = true /\ under body e = true).
  { intros p Hp e0 He0 Eo0. unfold find_all_named in Hp.
    apply in_map_iff in Hp as (e & Eo & He).
    apply filter_In in He as [He Hc]. apply andb_true_iff in Hc as [Hn Hu].
    destruct Hinv as (_ & rm & Hev & _).
    assert (e = e0) by (apply (transfer K s0 s rm); auto; congruence).
    subst e0. auto. }
  revert Hinv Hps. generalize (find_all_named (fst s) body "p"). intros ps.
  revert s. induction ps as [| p ps IH]; intros s Hinv Hps; [exact Hinv |].
  cbn [fold_left]. apply IH.
  - apply rewrite_paragraph_invariant; auto. apply Hps. now left.
  - intros p' Hp'. apply Hps. now right.
Qed.

Lemma insert_gap_invariant (s : soup) (p : nat) :
  run_invariant K s0 body s -> run_invariant K s0 body (insert_gap s p).
Proof.
  intros Hinv. destruct s as [t next]. unfold insert_gap.
  match goal with |- context [if ?c then _ else _] => destruct c end;
    [exact Hinv |].
  destruct (new_gap_fresh next) as [En Hf].
  destruct (new_gap next) as [gap next'] eqn:Eg. cbn [fst snd] in *. subst next'.
  destruct Hinv as (Hwf & rm & Hev & Hrm).
  assert (Hins : insertable K s0 t (S (S next)) gap).
  { destruct Hf as [Hnd Hk]. split; [exact Hnd |].
    intros anc e He.
    assert (He' : In e (flat anc [gap])) by now rewrite flat_single.
    destruct (Hk anc e He') as [Hr Hke].
    pose proof (proj1 Hev) as Hlo. cbn [snd] in Hlo.
    split; [lia |]. split; [| now apply HK].
    intros Hin. destruct Hwf as [_ Hb]. rewrite Forall_forall in Hb.
    specialize (Hb _ Hin). cbn [snd] in Hb. lia. }
  destruct (insert_after_step K s0 rm t next (S (S next)) p gap
              Hwf Hev ltac:(lia) Hins) as (H1 & H2 & _).
  split; [exact H1 |]. exists rm. auto.
Qed.

Lemma insert_gaps_invariant (s : soup) :
  run_invariant K s0 body s -> run_invariant K s0 body (insert_gaps s body).
Proof.
  unfold insert_gaps. generalize (find_all_named (fst s) body "p").
  intros ps. revert s. induction ps as [| p ps IH]; intros s Hinv;
    [exact Hinv |].
  cbn [fold_left]. apply IH. now apply insert_gap_invariant.
Qed.

End Passes.

(** *** What the added nodes are not *)

Lemma pass_kind_cases (e : entry) :
  pass_kind e = true ->
  is_str e = true \/ is_tag_named "strong" e = true
  \/ is_tag_named "span" e = true \/ is_tag_named "p" e = true.
Proof.
  unfold pass_kind, is_str, is_tag_named.
  destruct (e_label e) as [k s | nm a]; [now left |].
  intros H. right.
  apply orb_true_iff in H as [H | H];
    [apply orb_true_iff in H as [H | H] |];
    apply andb_true_iff in H as [H _]; auto.
Qed.

Lemma pass_kind_not_named (nm : string) (e : entry) :
  String.eqb "strong" nm = false -> String.eqb "span" nm = false ->
  String.eqb "p" nm = false ->
  pass_kind e = true -> is_tag_named nm e = false.
Proof.
  intros H1 H2 H3 Hk.
  destruct (pass_kind_cases e Hk) as [H | [H | [H | H]]];
    unfold is_str, is_tag_named in *;
    destruct (e_label e) as [k s | n a]; try reflexivity; try discriminate;
    apply String.eqb_eq in H; subst n; assumption.
Qed.

Lemma pass_kind_not_style (id : string) (e : entry) :
  pass_kind e = true -> is_style_with_id id e = false.
Proof.
  intros Hk. unfold is_style_with_id.
  pose proof (pass_kind_not_named "style" e eq_refl eq_refl eq_refl Hk) as H.
  unfold is_tag_named in H. destruct (e_label e); [reflexivity |].
  now rewrite H.
Qed.

Lemma added_kind_not_named (nm : string) (e : entry) :
  String.eqb "strong" nm = false -> String.eqb "span" nm = false ->
  String.eqb "p" nm = false -> String.eqb "style" nm = false ->
  added_kind e = true -> is_tag_named nm e = false.
Proof.
  intros H1 H2 H3 H4 Hk. unfold added_kind in Hk.
  apply orb_true_iff in Hk as [Hk | Hk].
  - now apply pass_kind_not_named.
  - unfold is_tag_named. destruct (e_label e) as [k s | n a]; [reflexivity |].
    apply andb_true_iff in Hk as [Hk _].
    apply String.eqb_eq in Hk. now subst n.
Qed.

(** A predicate that no added node and no removed node satisfies selects
    the same entries before and after. *)
Lemma evolve_filter (K P : entry -> bool) (s s' : soup) (rm : list nat) :
  evolve K s s' rm ->
  (forall e, K e = true -> P e = false) ->
  (forall e, In e (flat [] (fst s)) -> mem (e_oid e) rm = true -> P e = false) ->
  filter P (flat [] (fst s')) = filter P (flat [] (fst s)).
Proof.
  intros (_ & Hfil & Hk) HKP Hrm. rewrite Forall_forall in Hk.
  transitivity (filter P (filter (fun e => e_oid e <? snd s)
                                 (flat [] (fst s')))).
  - rewrite filter_filter. apply filter_ext_in. intros e He.
    destruct (P e) eqn:Ep; [| reflexivity]. cbn [andb]. symmetry.
    apply Nat.ltb_lt. destruct (Nat.lt_ge_cases (e_oid e) (snd s)) as [H | H];
      [exact H |].
    rewrite (HKP e (Hk e He H)) in Ep. discriminate Ep.
  - rewrite Hfil, filter_filter. apply filter_ext_in. intros e He.
    destruct (P e) eqn:Ep; [| reflexivity]. cbn [andb].
    destruct (mem (e_oid e) rm) eqn:Em; [| reflexivity].
    rewrite (Hrm e He Em) in Ep. discriminate Ep.
Qed.

Lemma replaceable_is_str (body : nat) (e : entry) :
  replaceable body e = true -> is_str e = true.
Proof.
  unfold replaceable. intros H.
  apply andb_true_iff in H as [H _]. now apply andb_true_iff in H as [H _].
Qed.

Lemma is_str_not_named (nm : string) (e : entry) :
  is_str e = true -> is_tag_named nm e = false.
Proof.
  unfold is_str, is_tag_named. now destruct (e_label e).
Qed.

Lemma is_str_not_style (id : string) (e : entry) :
  is_str e = true -> is_style_with_id id e = false.
Proof.
  unfold is_str, is_style_with_id. now destruct (e_label e).
Qed.

(** *** The style injection *)

Lemma soup_find_some (t : list node) (nm : string) (e : entry) :
  soup_find t nm = Some e ->
  In e (flat [] t) /\ exists a, e_label e = LTag nm a.
Proof.
  unfold soup_find. intros H. apply find_some in H as [H1 H2].
  split; [exact H1 |]. unfold is_tag_named in H2.
  destruct (e_label e) as [k s | n a]; [discriminate |].
  apply String.eqb_eq in H2. subst n. eauto.
Qed.

Lemma find_app_skip (A : Type) (f : A -> bool) (l1 N l2 : list A) :
  (forall x, In x N -> f x = false) ->
  find f (l1 ++ N ++ l2) = find f (l1 ++ l2).
Proof.
  intros H. rewrite !find_filter, !filter_app.
  now rewrite (filter_none _ _ N H).
Qed.

Lemma ensure_style_unfold (t : list node) (next : nat) :
  ensure_style (t, next)
  = match soup_find t "head" with
    | None => (t, next)
    | Some head =>
      match find_style t (e_oid head) STYLE_ID with
      | Some _ => (t, next)
      | None => (append t (e_oid head) (style_node next), S (S next))
      end
    end.
Proof. reflexivity. Qed.

Lemma style_node_insertable (s0 : soup) (t : list node) (next : nat) :
  wf (t, next) -> snd s0 <= next ->
  insertable added_kind s0 t (S (S next)) (style_node next).
Proof.
  intros [_ Hb] Hlo. rewrite Forall_forall in Hb. cbn [fst snd] in Hb.
  split.
  - unfold oids. cbn. repeat (constructor; [cbn; intuition lia |]). constructor.
  - intros anc e He. cbn in He.
    destruct He as [<- | [<- | []]]; cbn [e_oid];
      (split; [lia |]); (split; [| reflexivity]);
      intros Hin; specialize (Hb _ Hin); lia.
Qed.

(** [ensure_style] keeps the invariant of a run. *)
Lemma ensure_style_step (s0 : soup) (rm : list nat) (s : soup) :
  wf s -> evolve added_kind s0 s rm ->
  wf (ensure_style s) /\ evolve added_kind s0 (ensure_style s) rm.
Proof.
  intros Hwf Hev. destruct s as [t next]. rewrite ensure_style_unfold.
  destruct (soup_find t "head") as [head |] eqn:Eh; [| auto].
  destruct (find_style t (e_oid head) STYLE_ID); [auto |].
  destruct (soup_find_some t "head" head Eh) as [Hin [a El]].
  pose proof (proj1 Hev) as Hlo. cbn [snd] in Hlo.
  destruct (append_step added_kind s0 rm t next (S (S next)) (e_oid head)
              head "head" a (style_node next) Hwf Hev ltac:(lia) Hin eq_refl El
              (style_node_insertable s0 t next Hwf Hlo)) as (H1 & H2 & _).
  auto.
Qed.

Lemma wfb_wf (s : soup) : wfb s = true -> wf s.
Proof.
  unfold wfb, wf. intros H. apply andb_true_iff in H as [H1 H2]. split.
  - clear H2. induction (oids (fst s)) as [| x l IH]; [constructor |].
    cbn in H1. apply andb_true_iff in H1 as [Hx Hl].
    constructor; [| now apply IH].
    intros Hin. apply mem_In in Hin. unfold mem in Hin.
    rewrite Hin in Hx. discriminate Hx.
  - apply Forall_forall. intros x Hx.
    rewrite forallb_forall in H2. now apply Nat.ltb_lt, H2.
Qed.

Lemma run_invariant_start (K : entry -> bool) (s : soup) (body : nat) :
  wf s -> run_invariant K s body s.
Proof.
  intros Hwf. split; [exact Hwf |]. exists []. split.
  - now apply evolve_refl.
  - intros x [].
Qed.

Lemma pass_kind_added (e : entry) : pass_kind e = true -> added_kind e = true.
Proof. intros H. unfold added_kind. now rewrite H. Qed.

(** The invariant holds along the whole of [rewrite_soup]. *)
Lemma rewrite_soup_invariant (mode : string) (s s' : soup) :
  wf s -> rewrite_soup mode s = Some s' ->
  exists body,
    soup_find (fst s) "body" = Some body
    /\ run_invariant added_kind s (e_oid body) s'.
Proof.
  intros Hwf H. unfold rewrite_soup in H.
  destruct (soup_find (fst s) "body") as [body |]; [| discriminate].
  injection H as <-. exists body. split; [reflexivity |].
  apply (insert_gaps_invariant added_kind pass_kind_added).
  apply (annotate_paragraphs_invariant added_kind pass_kind_added s Hwf).
  destruct (ensure_style_step s [] s Hwf (evolve_refl added_kind s Hwf))
    as [H1 H2].
  split; [exact H1 |]. exists []. split; [exact H2 |]. intros x [].
Qed.

(** C7 (as stated) fails: the string inside the [em] element of
    [doc_inline] is not the child of a paragraph, and it is replaced. *)
Lemma direct_children_scope_fails :
  ~ (forall (mode : string) (s s' : soup),
        wf s -> rewrite_soup mode s = Some s' ->
        forall e, In e (flat [] (fst s)) -> paragraph_child e = false ->
                  In e (flat [] (fst s'))).
Proof.
  intros H.
  assert (E : option_map (fun s => find_entry (fst s) 6)
                         (rewrite_soup "syllable" doc_inline) = Some None)
    by (vm_compute; reflexivity).
  destruct (rewrite_soup "syllable" doc_inline) as [s' |] eqn:E1;
    [| discriminate E].
  cbn [option_map] in E. injection E as Hnone.
  specialize (H "syllable"%string doc_inline s' (wfb_wf doc_inline eq_refl) E1
                {| e_oid := 6;
                   e_anc := [(5, "em"); (3, "p"); (2, "body"); (0, "html")]%string;
                   e_label := LStr NavigableString (utf8 "нет") |}).
  assert (Hin : In {| e_oid := 6;
                      e_anc := [(5, "em"); (3, "p"); (2, "body"); (0, "html")]%string;
                      e_label := LStr NavigableString (utf8 "нет") |}
                   (flat [] (fst s'))).
  { apply H; [| reflexivity]. cbn. auto 10. }
  unfold find_entry in Hnone.
  pose proof (find_none _ _ Hnone _ Hin) as Hf. discriminate Hf.
Qed.

(** *** The style element is injected once *)

Lemma find_style_filter (t : list node) (h : nat) :
  find_style t h STYLE_ID
  = hd_error (filter (fun e => is_style_with_id STYLE_ID e && under h e)
                     (flat [] t)).
Proof. apply find_filter. Qed.

Lemma head_styles_unfold (t : list node) (h : entry) :
  soup_find t "head" = Some h ->
  head_styles t
  = filter (fun e => is_style_with_id STYLE_ID e && under (e_oid h) e)
           (flat [] t).
Proof. intros H. unfold head_styles. now rewrite H. Qed.

(** After [ensure_style] the head is the same element and holds at least
    one reserved style element; exactly one if it held at most one. *)
Lemma ensure_style_head (s : soup) (h : entry) :
  wf s -> soup_find (fst s) "head" = Some h ->
  soup_find (fst (ensure_style s)) "head" = Some h
  /\ 1 <= List.length (head_styles (fst (ensure_style s)))
  /\ (List.length (head_styles (fst s)) <= 1 ->
      List.length (head_styles (fst (ensure_style s))) = 1).
Proof.
  intros Hwf Hh. destruct s as [t next]. cbn [fst] in Hh.
  rewrite ensure_style_unfold, Hh.
  destruct (find_style t (e_oid h) STYLE_ID) as [st |] eqn:Ef.
  - cbn [fst]. split; [exact Hh |].
    rewrite (head_styles_unfold t h Hh).
    rewrite find_style_filter in Ef.
    destruct (filter _ (flat [] t)) as [| x l]; [discriminate Ef |].
    cbn [List.length]. split; lia.
  - destruct (soup_find_some t "head" h Hh) as [Hin [a El]].
    destruct (append_step added_kind (t, next) [] t next (S (S next)) (e_oid h)
                h "head" a (style_node next) Hwf
                (evolve_refl added_kind (t, next) Hwf) ltac:(lia) Hin eq_refl El
                (style_node_insertable (t, next) t next Hwf (le_n _)))
      as (_ & _ & l1 & l2 & E1 & E2).
    cbn [fst].
    assert (Hh' : soup_find (append t (e_oid h) (style_node next)) "head"
                  = Some h).
    { unfold soup_find in *. rewrite E2, find_app_skip; [now rewrite <- E1 |].
      intros x Hx. cbn in Hx. destruct Hx as [<- | [<- | []]]; reflexivity. }
    split; [exact Hh' |].
    rewrite (head_styles_unfold _ h Hh'), E2.
    rewrite find_style_filter, E1 in Ef.
    rewrite !filter_app. rewrite filter_app in Ef.
    destruct (filter _ l1) as [| x1 r1]; [| discriminate Ef].
    cbn [app] in Ef |- *.
    destruct (filter _ l2) as [| x2 r2]; [| discriminate Ef].
    rewrite app_nil_r. cbn [style_node flat_node flat_map app filter].
    unfold under, is_style_with_id. cbn [e_anc e_label existsb fst].
    rewrite Nat.eqb_refl. cbn. split; lia.
Qed.

(** The two passes leave alone every tag they do not create, and the
    reserved style elements of the head. *)
Lemma passes_keep (mode : string) (s : soup) (body : nat) :
  wf s ->
  let s' := insert_gaps (annotate_paragraphs mode s body) body in
  wf s'
  /\ (forall nm,
         String.eqb "strong" nm = false -> String.eqb "span" nm = false ->
         String.eqb "p" nm = false ->
         soup_find (fst s') nm = soup_find (fst s) nm)
  /\ head_styles (fst s') = head_styles (fst s).
Proof.
  intros Hwf s'.
  assert (Hinv : run_invariant pass_kind s body s').
  { apply (insert_gaps_invariant pass_kind (fun e H => H)).
    apply (annotate_paragraphs_invariant pass_kind (fun e H => H) s Hwf).
    now apply run_invariant_start. }
  destruct Hinv as (Hwf' & rm & Hev & Hrm).
  assert (Hstr : forall e, In e (flat [] (fst s)) -> mem (e_oid e) rm = true ->
                           is_str e = true).
  { intros e He Hm. apply mem_In in Hm.
    exact (replaceable_is_str body e (Hrm _ Hm e He eq_refl)). }
  assert (Hnamed : forall nm,
             String.eqb "strong" nm = false -> String.eqb "span" nm = false ->
             String.eqb "p" nm = false ->
             soup_find (fst s') nm = soup_find (fst s) nm).
  { intros nm H1 H2 H3. unfold soup_find. rewrite !find_filter. f_equal.
    apply (evolve_filter pass_kind (is_tag_named nm) s s' rm Hev).
    - intros e. now apply pass_kind_not_named.
    - intros e He Hm. apply is_str_not_named. now apply Hstr. }
  split; [exact Hwf' |]. split; [exact Hnamed |].
  unfold head_styles. rewrite (Hnamed "head"%string eq_refl eq_refl eq_refl).
  destruct (soup_find (fst s) "head") as [h |]; [| reflexivity].
  apply (evolve_filter pass_kind _ s s' rm Hev).
  - intros e Hk. now rewrite (pass_kind_not_style STYLE_ID e Hk).
  - intros e He Hm. now rewrite (is_str_not_style STYLE_ID e (Hstr e He Hm)).
Qed.

Lemma ensure_style_keeps_body (s : soup) :
  wf s ->
  soup_find (fst (ensure_style s)) "body" = soup_find (fst s) "body".
Proof.
  intros Hwf.
  destruct (ensure_style_step s [] s Hwf (evolve_refl added_kind s Hwf))
    as [_ Hev].
  unfold soup_find. rewrite !find_filter. f_equal.
  apply (evolve_filter added_kind (is_tag_named "body") s (ensure_style s) []
                       Hev).
  - intros e. now apply added_kind_not_named.
  - intros e _ Hm. discriminate Hm.
Qed.

(** One run on a well-formed document that has a head and a body. *)
Lemma rewrite_soup_style (mode : string) (s : soup) (h b : entry) :
  wf s -> soup_find (fst s) "head" = Some h ->
  soup_find (fst s) "body" = Some b ->
  List.length (head_styles (fst s)) <= 1 ->
  exists s',
    rewrite_soup mode s = Some s'
    /\ wf s'
    /\ soup_find (fst s') "head" = Some h
    /\ soup_find (fst s') "body" = Some b
    /\ List.length (head_styles (fst s')) = 1.
Proof.
  intros Hwf Hh Hb Hle. unfold rewrite_soup. rewrite Hb.
  eexists. split; [reflexivity |].
  destruct (ensure_style_head s h Hwf Hh) as (Hh1 & _ & H1).
  pose proof (ensure_style_keeps_body s Hwf) as Hb1. rewrite Hb in Hb1.
  destruct (ensure_style_step s [] s Hwf (evolve_refl added_kind s Hwf))
    as [Hwf1 _].
  destruct (passes_keep mode (ensure_style s) (e_oid b) Hwf1)
    as (Hwf' & Hn & Hs).
  split; [exact Hwf' |].
  rewrite (Hn "head"%string eq_refl eq_refl eq_refl),
    (Hn "body"%string eq_refl eq_refl eq_refl), Hs.
  auto.
Qed.

(** C6 (as amended). On a well-formed document that has a head and a
    body, and whose head holds at most one style element with the
    reserved identifier, any number of runs of the rewriter, one at
    least, leaves exactly one such element in the head; and
    [ensure_style] applied twice does what it does applied once. *)
Theorem style_injected_once (mode : string) (s : soup) (h b : entry) :
  wf s -> soup_find (fst s) "head" = Some h ->
  soup_find (fst s) "body" = Some b ->
  List.length (head_styles (fst s)) <= 1 ->
  (forall n, 1 <= n ->
             exists s', rewrite_times mode n s = Some s'
                        /\ List.length (head_styles (fst s')) = 1)
  /\ ensure_style (ensure_style s) = ensure_style s.
Proof.
  intros Hwf Hh Hb Hle. split.
  - intros n Hn. destruct n as [| n]; [lia |]. clear Hn.
    revert s Hwf Hh Hb Hle. induction n as [| n IH]; intros s Hwf Hh Hb Hle.
    + destruct (rewrite_soup_style mode s h b Hwf Hh Hb Hle)
        as (s' & E & _ & _ & _ & H1).
      exists s'. cbn [rewrite_times]. rewrite E. auto.
    + destruct (rewrite_soup_style mode s h b Hwf Hh Hb Hle)
        as (s' & E & Hwf' & Hh' & Hb' & H1).
      destruct (IH s' Hwf' Hh' Hb' ltac:(lia)) as (s'' & E' & H1').
      exists s''. split; [| exact H1'].
      change (rewrite_times mode (S (S n)) s)
        with (match rewrite_soup mode s with
              | None => None
              | Some s1 => rewrite_times mode (S n) s1
              end).
      now rewrite E.
  - destruct (ensure_style_head s h Hwf Hh) as (Hh1 & Hge & _).
    destruct (ensure_style s) as [t1 n1] eqn:E1. cbn [fst] in *.
    rewrite ensure_style_unfold, Hh1.
    rewrite (head_styles_unfold t1 h Hh1) in Hge.
    rewrite find_style_filter.
    destruct (filter _ (flat [] t1)) as [| x l]; [cbn in Hge; lia |].
    reflexivity.
Qed.

Lemma style_injected_once_witness :
  exists s1 s2,
    rewrite_times "bionic" 1 doc_inline = Some s1
    /\ rewrite_times "bionic" 2 doc_inline = Some s2
    /\ List.length (head_styles (fst s1)) = 1
    /\ List.length (head_styles (fst s2)) = 1.
Proof.
  destruct (style_injected_once "bionic" doc_inline
              {| e_oid := 1; e_anc := [(0, "html"%string)];
                 e_label := LTag "head" [] |}
              {| e_oid := 2; e_anc := [(0, "html"%string)];
                 e_label := LTag "body" [] |}
              (wfb_wf doc_inline eq_refl) eq_refl eq_refl)
    as [H _]; [cbn; lia |].
  destruct (H 1 (le_n 1)) as (s1 & E1 & L1).
  destruct (H 2 (le_S 1 1 (le_n 1))) as (s2 & E2 & L2).
  exists s1, s2. auto.
Defined.

(** C6 (as stated) fails: a document with a body and no head has no
    style element after two runs. *)
Lemma no_head_no_style :
  ~ (forall (mode : string) (s s1 s2 : soup),
        wf s -> rewrite_soup mode s = Some s1 -> rewrite_soup mode s1 = Some s2 ->
        List.length (head_styles (fst s2)) = 1).
Proof.
  intros H.
  assert (E : option_map (fun s => List.length (head_styles (fst s)))
                         (rewrite_times "syllable" 2 doc_no_head) = Some 0)
    by (vm_compute; reflexivity).
  cbn [rewrite_times] in E.
  destruct (rewrite_soup "syllable" doc_no_head) as [s1 |] eqn:E1;
    [| discriminate E].
  destruct (rewrite_soup "syllable" s1) as [s2 |] eqn:E2; [| discriminate E].
  cbn [option_map] in E. injection E as L.
  specialize (H "syllable"%string doc_no_head s1 s2
                (wfb_wf doc_no_head eq_refl) E1 E2).
  rewrite L in H. discriminate H.
Qed.

(** *** The gap paragraphs *)

(** C1 (the code departs from the claim). On
    [<html><body><p>да</p></body></html>] a first run leaves two
    paragraphs, the original and its gap; a second run, and likewise the
    gap pass alone, adds a gap after the gap: three paragraphs. *)
Theorem gap_insertion_repeats :
  paragraph_count (fst doc_no_head) = 1
  /\ option_map (fun s => paragraph_count (fst s))
                (rewrite_times "syllable" 1 doc_no_head) = Some 2
  /\ option_map (fun s => paragraph_count (fst s))
                (rewrite_times "syllable" 2 doc_no_head) = Some 3
  /\ option_map (fun s => soup_find (fst s) "body")
                (rewrite_times "syllable" 1 doc_no_head)
     = Some (Some {| e_oid := 1; e_anc := [(0, "html"%string)];
                     e_label := LTag "body" [] |})
  /\ option_map (fun s => paragraph_count (fst (insert_gaps s 1)))
                (rewrite_times "syllable" 1 doc_no_head) = Some 3.
Proof.
  split; [vm_compute; reflexivity |].
  split; [vm_compute; reflexivity |].
  split; [vm_compute; reflexivity |].
  split; vm_compute; reflexivity.
Qed.

(** ** The mode selector *)

Section Modes.
Variables m1 m2 : string.
Hypothesis Hm : String.eqb m1 "bionic" = String.eqb m2 "bionic".

Lemma rewrite_text_node_mode (s : soup) (o : nat) :
  rewrite_text_node m1 s o = rewrite_text_node m2 s o.
Proof.
  destruct s as [t next]. unfold rewrite_text_node.
  destruct (find_entry t o) as [e |]; [| reflexivity].
  destruct (e_label e) as [k original | nm a]; [| reflexivity].
  now rewrite (build_nodes_for_text_mode next original m1 m2 Hm).
Qed.

Lemma rewrite_paragraph_mode (s : soup) (p : nat) :
  rewrite_paragraph m1 s p = rewrite_paragraph m2 s p.
Proof.
  unfold rewrite_paragraph. apply fold_left_ext. apply rewrite_text_node_mode.
Qed.

Lemma rewrite_soup_mode (s : soup) : rewrite_soup m1 s = rewrite_soup m2 s.
Proof.
  unfold rewrite_soup, annotate_paragraphs.
  destruct (soup_find (fst s) "body"); [| reflexivity].
  now rewrite (fold_left_ext _ _ _ _ rewrite_paragraph_mode).
Qed.

Lemma process_html_bytes_mode (bs : Bs4) (data : bytes) :
  process_html_bytes bs data m1 = process_html_bytes bs data m2.
Proof.
  unfold process_html_bytes.
  destruct (BeautifulSoup bs data) as [e | s]; [reflexivity |].
  now rewrite rewrite_soup_mode.
Qed.

Lemma copy_entry_mode (bs : Bs4) (z : ZipLib) (zin : archive)
      (zout : error + writes) (info : ZipInfo) :
  copy_entry bs z m1 zin zout info = copy_entry bs z m2 zin zout info.
Proof.
  unfold copy_entry. destruct zout; [reflexivity |].
  destruct (read zin (filename info)); [reflexivity |].
  now rewrite process_html_bytes_mode.
Qed.

Lemma process_epub_mode (bs : Bs4) (z : ZipLib) (epub_bytes : bytes) :
  process_epub bs z epub_bytes m1 = process_epub bs z epub_bytes m2.
Proof.
  unfold process_epub, copy_entries.
  destruct (ZipFile_open z epub_bytes) as [zin |]; [| reflexivity].
  now rewrite (fold_left_ext _ _ _ _ (copy_entry_mode bs z zin)).
Qed.

End Modes.

(** When [process_epub] raises, and what: the mode has no part in it. *)
Lemma process_epub_error (bs : Bs4) (z : ZipLib) (epub_bytes : bytes)
      (mode : string) (e : error) :
  process_epub bs z epub_bytes mode = inl e
  <-> match ZipFile_open z epub_bytes with
      | None => e = BadZipFile
      | Some zin =>
        first_error ZipInfo (entry_error bs zin) (infolist zin) = Some e
      end.
Proof.
  destruct (ZipFile_open z epub_bytes) as [zin |] eqn:Ho.
  - pose proof (process_epub_opened bs z epub_bytes mode zin Ho) as H.
    destruct (first_error ZipInfo (entry_error bs zin) (infolist zin))
      as [e' |].
    + rewrite H. split; intros E; congruence.
    + destruct H as (written & -> & _). split; intros E; discriminate E.
  - unfold process_epub. rewrite Ho. split; intros E; congruence.
Qed.

(** C10. A mode other than [bionic], recognised or not, is treated as
    [syllable] at every level: by the word annotator, by the document
    rewriter and by the archive rewriter; a missing mode field is
    [syllable] too; and no mode is rejected: whether the archive rewriter
    raises, and which exception, is the same for this mode as for any
    other. *)
Theorem unrecognised_mode_is_syllable (m : string) :
  m <> "bionic"%string ->
  (forall next text,
      build_nodes_for_text next text m
      = build_nodes_for_text next text "syllable")
  /\ (forall s, rewrite_soup m s = rewrite_soup "syllable" s)
  /\ (forall bs data,
         process_html_bytes bs data m = process_html_bytes bs data "syllable")
  /\ (forall bs z epub_bytes,
         process_epub bs z epub_bytes m
         = process_epub bs z epub_bytes "syllable")
  /\ (forall bs z epub_bytes,
         convert bs z epub_bytes (Some m)
         = convert bs z epub_bytes None)
  /\ (forall bs z epub_bytes m' e,
         process_epub bs z epub_bytes m = inl e
         <-> process_epub bs z epub_bytes m' = inl e).
Proof.
  intros Hne.
  assert (Hm : String.eqb m "bionic" = String.eqb "syllable" "bionic").
  { apply String.eqb_neq in Hne. now rewrite Hne. }
  split; [| split; [| split; [| split; [| split]]]].
  - intros next text. exact (build_nodes_for_text_mode next text _ _ Hm).
  - intros s. exact (rewrite_soup_mode _ _ Hm s).
  - intros bs data. exact (process_html_bytes_mode _ _ Hm bs data).
  - intros bs z epub_bytes. exact (process_epub_mode _ _ Hm bs z epub_bytes).
  - intros bs z epub_bytes. unfold convert, form_mode.
    now rewrite (process_epub_mode _ _ Hm bs z epub_bytes).
  - intros bs z epub_bytes m' e.
    rewrite (process_epub_error bs z epub_bytes m e).
    rewrite (process_epub_error bs z epub_bytes m' e). reflexivity.
Qed.

Lemma unrecognised_mode_is_syllable_witness :
  EmptyString <> "bionic"%string
  /\ build_nodes_for_text 0 (utf8 "Привет, мир") EmptyString
     = build_nodes_for_text 0 (utf8 "Привет, мир") "syllable"
  /\ rewrite_soup EmptyString doc_inline = rewrite_soup "syllable" doc_inline.
Proof.
  assert (Hne : EmptyString <> "bionic"%string) by discriminate.
  split; [exact Hne |].
  destruct (unrecognised_mode_is_syllable EmptyString Hne) as (H1 & H2 & _).
  split; [apply H1 | apply H2].
Defined.

(* ================================================================== *)
(** * Part III. Further properties of the code                         *)
(* ================================================================== *)

(** ** Attribute dictionaries *)

Lemma strings_eqb_eq (a b : list string) : strings_eqb a b = true -> a = b.
Proof.
  revert b. induction a as [| x a IH]; intros [| y b] H; cbn in H;
    try discriminate; [reflexivity |].
  apply andb_true_iff in H as [H1 H2]. apply String.eqb_eq in H1.
  f_equal; auto.
Qed.

Lemma attrval_eqb_eq (v w : attrval) : attrval_eqb v w = true -> v = w.
Proof.
  destruct v, w; cbn; intros H; try discriminate.
  - apply String.eqb_eq in H. now subst.
  - apply strings_eqb_eq in H. now subst.
Qed.

Lemma attrs_eqb_eq (a b : attrs) : attrs_eqb a b = true -> a = b.
Proof.
  revert b. induction a as [| [k v] a IH]; intros [| [k' v'] b] H; cbn in H;
    try discriminate; [reflexivity |].
  apply andb_true_iff in H as [H H3]. apply andb_true_iff in H as [H1 H2].
  apply String.eqb_eq in H1. apply attrval_eqb_eq in H2.
  f_equal; [congruence | auto].
Qed.

(** ** The tokenizer *)

Lemma scan_nil_iff (text : pystr) :
  forall s pos,
    scan text s pos 0 = []
    <-> forallb (fun c => negb (is_token_char c)) s = true.
Proof.
  induction s as [| c s' IH]; intros pos; [cbn; tauto |].
  cbn [scan forallb]. unfold is_token_char at 1.
  destruct (is_word_char c); cbn [orb negb andb].
  - split; [discriminate | discriminate].
  - destruct (is_punct_char c); cbn [negb andb].
    + split; [discriminate | discriminate].
    + apply IH.
Qed.

Lemma search_none_iff (text : pystr) :
  TOKEN_RE_search text = None <-> existsb is_token_char text = false.
Proof.
  unfold TOKEN_RE_search, TOKEN_RE_finditer.
  assert (H : existsb is_token_char text
              = negb (forallb (fun c => negb (is_token_char c)) text)).
  { induction text as [| c t IH]; [reflexivity |]. cbn.
    rewrite IH. now destruct (is_token_char c). }
  rewrite H, negb_false_iff, <- (scan_nil_iff text text 0%Z).
  destruct (scan text text 0 0); cbn; split; congruence.
Qed.

(** X1. The annotator answers [None] exactly for the text runs that hold
    no Cyrillic letter and no listed punctuation character; every other
    run gets a node sequence. *)
Theorem build_nodes_for_text_none_iff (next : nat) (text : pystr) (mode : string) :
  build_nodes_for_text next text mode = None
  <-> existsb is_token_char text = false.
Proof.
  rewrite <- search_none_iff. unfold build_nodes_for_text.
  destruct (TOKEN_RE_search text).
  - destruct (fold_left _ _ _) as [[nodes i] n].
    destruct (i <? len text)%Z; split; discriminate.
  - tauto.
Qed.

Lemma token_nodes_nonempty (token : pystr) (mode : string) (next : nat) :
  fst (token_nodes token mode next) <> [].
Proof.
  unfold token_nodes. destruct (WORD_RE_fullmatch token).
  - destruct (if String.eqb mode "bionic" then bionic_parts token
              else first_syllable_parts token) as [strong_text rest_text].
    destruct strong_text; [| destruct rest_text]; cbn; discriminate.
  - cbn. discriminate.
Qed.

Lemma build_step_nonempty (text : pystr) (mode : string)
      (st : list node * Z * nat) (m : Match) :
  fst (fst (build_step text mode st m)) <> [].
Proof.
  destruct st as [[nodes i] n]. unfold build_step.
  destruct (if (i <? m_start m)%Z then _ else _) as [before n1].
  pose proof (token_nodes_nonempty (m_group m) mode n1) as H.
  destruct (token_nodes (m_group m) mode n1) as [tok n2]. cbn [fst] in *.
  intros E. apply app_eq_nil in E as [_ E]. apply app_eq_nil in E as [_ E].
  contradiction.
Qed.

Lemma build_loop_nonempty (text : pystr) (mode : string) :
  forall ms st,
    fst (fst st) <> [] ->
    fst (fst (fold_left (build_step text mode) ms st)) <> [].
Proof.
  induction ms as [| m r IH]; intros st H; [exact H |].
  cbn [fold_left]. apply IH. apply build_step_nonempty.
Qed.

(** X2. A sequence returned by the annotator is never empty, and its
    nodes are new objects of three shapes only: plain strings, bare
    [strong] elements and [span] elements of class [punct]. *)
Theorem build_nodes_for_text_result (next : nat) (text : pystr) (mode : string)
        (nodes : list node) (next' : nat) :
  build_nodes_for_text next text mode = Some (nodes, next') ->
  nodes <> []
  /\ next <= next'
  /\ NoDup (oids nodes)
  /\ (forall e, In e (flat [] nodes) ->
                next <= e_oid e < next'
                /\ match e_label e with
                   | LStr k _ => k = NavigableString
                   | LTag nm a =>
                     (nm = "strong"%string /\ a = [])
                     \/ (nm = "span"%string
                         /\ a = [("class", AList ["punct"])]%string)
                   end).
Proof.
  intros H.
  destruct (build_nodes_for_text_fresh_ann next text mode nodes next' H)
    as (Hle & Hnd & Hk).
  split; [| split; [exact Hle | split; [exact Hnd |]]].
  - unfold build_nodes_for_text in H.
    destruct (TOKEN_RE_search text) as [m0 |] eqn:Es; [| discriminate].
    unfold TOKEN_RE_search in Es.
    destruct (TOKEN_RE_finditer text) as [| m r]; [discriminate |].
    cbn [fold_left] in H.
    pose proof (build_loop_nonempty text mode r
                  (build_step text mode ([], 0%Z, next) m)
                  (build_step_nonempty text mode _ m)) as Hne.
    destruct (fold_left _ r _) as [[nodes1 i1] n1]. cbn [fst] in Hne.
    destruct (i1 <? len text)%Z.
    + cbn [new_string] in H. injection H as <- _.
      intros E. apply app_eq_nil in E as [E _]. contradiction.
    + injection H as <- _. exact Hne.
  - intros e He. destruct (Hk [] e He) as [Hr Hp]. split; [exact Hr |].
    unfold ann_kind in Hp.
    destruct (e_label e) as [k s | nm a] eqn:El.
    + now destruct k.
    + apply orb_true_iff in Hp as [Hp | Hp];
        apply andb_true_iff in Hp as [Hn Ha];
        apply String.eqb_eq in Hn; apply attrs_eqb_eq in Ha; auto.
Qed.

Lemma len_app (a b : pystr) : len (a ++ b) = (len a + len b)%Z.
Proof. unfold len. rewrite length_app. lia. Qed.

Lemma slice_mid (pre s : pystr) (n : nat) :
  n <= List.length s ->
  slice (pre ++ s) (len pre) (len pre + Z.of_nat n) = firstn n s.
Proof.
  intros Hn. unfold slice.
  rewrite !norm_index_nonneg by (unfold len; lia).
  unfold len. rewrite length_app.
  replace (Nat.min (Z.to_nat (Z.of_nat (List.length pre)))
                   (List.length pre + List.length s))
    with (List.length pre) by lia.
  replace (Nat.min (Z.to_nat (Z.of_nat (List.length pre) + Z.of_nat n))
                   (List.length pre + List.length s) - List.length pre)
    with n by lia.
  rewrite skipn_app, skipn_all, Nat.sub_diag. reflexivity.
Qed.

Lemma getitem_mid (pre s : pystr) (n : nat) :
  getitem (pre ++ s) (len pre + Z.of_nat n) = nth_error s n.
Proof.
  unfold getitem, len.
  assert (H : (Z.of_nat (List.length pre) + Z.of_nat n <? 0)%Z = false)
    by (apply Z.ltb_ge; lia).
  cbv zeta. rewrite H, H.
  rewrite nth_error_app2 by lia. f_equal. lia.
Qed.

Lemma word_run_le (s : pystr) : word_run s <= List.length s.
Proof.
  induction s as [| c s IH]; cbn; [lia |].
  destruct (is_word_char c); cbn; lia.
Qed.

Lemma word_run_firstn (s : pystr) :
  forallb is_word_char (firstn (word_run s) s) = true.
Proof.
  induction s as [| c s IH]; [reflexivity |]. cbn.
  destruct (is_word_char c) eqn:E; [| reflexivity].
  cbn. now rewrite E, IH.
Qed.

Lemma word_run_stop (s : pystr) (d : char) :
  nth_error s (word_run s) = Some d -> is_word_char d = false.
Proof.
  induction s as [| c s IH]; [discriminate |]. cbn.
  destruct (is_word_char c) eqn:E; cbn.
  - exact IH.
  - intros H. injection H as <-. exact E.
Qed.

Lemma punct_not_word (c : char) :
  is_punct_char c = true -> is_word_char c = false.
Proof.
  unfold is_punct_char, char_in, PUNCT_CHARS. cbn [existsb].
  intros H. repeat (apply orb_true_iff in H as [H | H];
                    [apply N.eqb_eq in H; subst c; reflexivity |]).
  discriminate H.
Qed.

Lemma scan_tokens (text : pystr) :
  forall s pre skip,
    text = pre ++ s -> skip <= List.length s ->
    Forall (token_ok text) (scan text s (len pre) skip).
Proof.
  induction s as [| c s' IH]; intros pre skip Et Hs; [constructor |].
  assert (Et' : text = (pre ++ [c]) ++ s') by (rewrite <- app_assoc; exact Et).
  assert (El : (len pre + 1)%Z = len (pre ++ [c]))
    by (rewrite len_app; reflexivity).
  cbn [scan]. destruct skip as [| k].
  - destruct (is_word_char c) eqn:Ew.
    + pose proof (word_run_pos c s' Ew) as Hr1.
      pose proof (word_run_le (c :: s')) as Hr2.
      constructor.
      * unfold token_ok. cbn [m_start m_end m_group].
        pose proof (len_nonneg pre) as Hp.
        assert (Eg : slice text (len pre)
                           (len pre + Z.of_nat (word_run (c :: s')))
                     = firstn (word_run (c :: s')) (c :: s')).
        { rewrite Et. now apply slice_mid. }
        rewrite Eg.
        split; [lia |]. split.
        { rewrite Et, len_app. unfold len at 3. lia. }
        split; [reflexivity |]. split.
        { unfold len at 1. rewrite length_firstn. lia. }
        left. split.
        -- unfold WORD_RE_fullmatch.
           pose proof (word_run_firstn (c :: s')) as Hf.
           destruct (firstn (word_run (c :: s')) (c :: s')) eqn:Ef;
             [| exact Hf].
           apply (f_equal (@List.length char)) in Ef.
           rewrite length_firstn in Ef. cbn [List.length] in Ef. lia.
        -- intros d Hd. rewrite Et, getitem_mid in Hd.
           exact (word_run_stop (c :: s') d Hd).
      * rewrite El. apply IH; [exact Et' |]. cbn [List.length] in Hr2. lia.
    + destruct (is_punct_char c) eqn:Ep.
      * constructor.
        -- unfold token_ok. cbn [m_start m_end m_group].
           pose proof (len_nonneg pre) as Hp.
           assert (Eg : slice text (len pre) (len pre + 1) = [c]).
           { rewrite Et.
             change (len pre + 1)%Z with (len pre + Z.of_nat 1)%Z.
             rewrite slice_mid by (cbn; lia). reflexivity. }
           rewrite Eg.
           split; [lia |]. split.
           { rewrite Et, len_app. unfold len at 3. cbn [List.length]. lia. }
           split; [reflexivity |]. split; [unfold len; cbn; lia |].
           right. exists c. auto.
        -- rewrite El. apply IH; [exact Et' | lia].
      * rewrite El. apply IH; [exact Et' | lia].
  - rewrite El. apply IH; [exact Et' |]. cbn [List.length] in Hs. lia.
Qed.

(** X3. Every match the tokenizer reports lies inside the text, is not
    empty and holds the slice between its bounds; it is either a run of
    Cyrillic letters that ends where the letters end, or one punctuation
    character; matches follow one another without overlap. *)
Theorem TOKEN_RE_finditer_tokens (text : pystr) :
  Forall (token_ok text) (TOKEN_RE_finditer text)
  /\ ordered text 0 (TOKEN_RE_finditer text).
Proof.
  split.
  - exact (scan_tokens text text [] 0 eq_refl (Nat.le_0_l _)).
  - apply TOKEN_RE_finditer_ordered.
Qed.

(** ** The syllable splitter *)

Lemma positions_chain_weaken (lo lo' hi : Z) (l : list Z) :
  (lo' <= lo)%Z -> positions_chain lo hi l -> positions_chain lo' hi l.
Proof. destruct l as [| v r]; cbn; [tauto |]. intros H [H1 H2]. split; [lia | exact H2]. Qed.

Lemma positions_chain_in (lo hi : Z) (l : list Z) (v : Z) :
  positions_chain lo hi l -> In v l -> (lo <= v < hi)%Z.
Proof.
  revert lo. induction l as [| x l IH]; intros lo Hch Hin; [contradiction |].
  destruct Hch as [Hx Hr]. destruct Hin as [<- | Hin]; [exact Hx |].
  specialize (IH (x + 1)%Z Hr Hin). lia.
Qed.

Lemma vowel_positions_chain (word : pystr) :
  forall i, positions_chain i (i + len word) (vowel_positions_from i word).
Proof.
  induction word as [| ch w IH]; intros i; [exact I |].
  assert (E : (i + len (ch :: w) = (i + 1) + len w)%Z)
    by (unfold len; cbn [List.length]; lia).
  pose proof (len_nonneg w) as Hw.
  cbn [vowel_positions_from]. rewrite E.
  destruct (_is_vowel ch).
  - cbn [positions_chain]. split; [lia | apply IH].
  - apply (positions_chain_weaken (i + 1)); [lia | apply IH].
Qed.

Lemma vowel_positions_count (word : pystr) :
  forall i, List.length (vowel_positions_from i word) = count_vowels word.
Proof.
  unfold count_vowels. induction word as [| ch w IH]; intros i; [reflexivity |].
  cbn [vowel_positions_from filter].
  destruct (_is_vowel ch); cbn [List.length]; now rewrite IH.
Qed.

Lemma vowel_positions_vowels (word : pystr) :
  forall i v,
    In v (vowel_positions_from i word) ->
    exists c, nth_error word (Z.to_nat (v - i)) = Some c /\ _is_vowel c = true.
Proof.
  induction word as [| ch w IH]; intros i v H; [contradiction |].
  cbn [vowel_positions_from] in H.
  assert (Hrec : In v (vowel_positions_from (i + 1) w) ->
                 exists c, nth_error (ch :: w) (Z.to_nat (v - i)) = Some c
                           /\ _is_vowel c = true).
  { intros Hin. destruct (IH (i + 1)%Z v Hin) as (c & Hc & Hv).
    exists c. split; [| exact Hv].
    pose proof (vowel_positions_chain w (i + 1)) as Hch.
    pose proof (positions_chain_in _ _ _ _ Hch Hin) as Hge.
    replace (Z.to_nat (v - i)) with (S (Z.to_nat (v - (i + 1)))) by lia.
    exact Hc. }
  destruct (_is_vowel ch) eqn:E.
  - destruct H as [<- | H]; [| now apply Hrec].
    exists ch. rewrite Z.sub_diag. auto.
  - now apply Hrec.
Qed.

Lemma len_lower (s : pystr) : len (lower s) = len s.
Proof. unfold len, lower. now rewrite length_map. Qed.

Lemma onset_len_bounds (cluster : pystr) :
  cluster <> [] -> (1 <= onset_len cluster <= len cluster)%Z.
Proof.
  intros Hne.
  assert (Hl : (1 <= len cluster)%Z).
  { destruct cluster; [contradiction |]. unfold len. cbn [List.length]. lia. }
  unfold onset_len. rewrite len_lower.
  repeat match goal with
         | |- context [if ?c then _ else _] => destruct c eqn:?
         end;
    repeat match goal with
           | H : (_ && _) = true |- _ => apply andb_true_iff in H as [? ?]
           | H : (_ <=? _)%Z = true |- _ => apply Z.leb_le in H
           end;
    lia.
Qed.

Lemma slice_len (t : pystr) (a b : Z) :
  (0 <= a <= b)%Z -> (b <= len t)%Z -> len (slice t a b) = (b - a)%Z.
Proof.
  intros H1 H2. unfold slice. rewrite !norm_index_nonneg by lia.
  unfold len in *. rewrite length_firstn, length_skipn. lia.
Qed.

Lemma slice_nth (t : pystr) (a b v : Z) (c : char) :
  (0 <= a <= v)%Z -> (v < b)%Z ->
  nth_error t (Z.to_nat v) = Some c -> In c (slice t a b).
Proof.
  intros H1 H2 Hc.
  assert (Hlt : Z.to_nat v < List.length t)
    by (apply nth_error_Some; congruence).
  unfold slice. rewrite !norm_index_nonneg by lia.
  apply (nth_error_In _ (Z.to_nat v - Z.to_nat a)).
  rewrite nth_error_firstn.
  destruct (Nat.ltb_spec (Z.to_nat v - Z.to_nat a)
              (Nat.min (Z.to_nat b) (List.length t)
               - Nat.min (Z.to_nat a) (List.length t))); [| lia].
  rewrite nth_error_skipn. rewrite <- Hc. f_equal. lia.
Qed.

Lemma slice_from_nth (t : pystr) (a v : Z) (c : char) :
  (0 <= a <= v)%Z ->
  nth_error t (Z.to_nat v) = Some c -> In c (slice_from t a).
Proof.
  intros H1 Hc.
  assert (Hlt : Z.to_nat v < List.length t)
    by (apply nth_error_Some; congruence).
  unfold slice_from. rewrite norm_index_nonneg by lia.
  apply (nth_error_In _ (Z.to_nat v - Z.to_nat a)).
  rewrite nth_error_skipn. rewrite <- Hc. f_equal. lia.
Qed.

Lemma count_vowels_in (s : pystr) (c : char) :
  In c s -> _is_vowel c = true -> 1 <= count_vowels s.
Proof.
  intros Hin Hv. unfold count_vowels.
  assert (H : In c (filter _is_vowel s)) by (apply filter_In; auto).
  destruct (filter _is_vowel s); [contradiction | cbn; lia].
Qed.

Lemma count_vowels_app (a b : pystr) :
  count_vowels (a ++ b) = count_vowels a + count_vowels b.
Proof. unfold count_vowels. now rewrite filter_app, length_app. Qed.

(** One turn of the loop that is not the last. *)
Lemma syllables_loop_step (word : pystr) (vpos next_vpos : Z) (rest : list Z)
      (start : Z) (acc : list pystr) :
  syllables_loop word (vpos :: next_vpos :: rest) start acc
  = syllables_loop word (next_vpos :: rest)
                   (next_boundary word vpos next_vpos start)
                   (acc ++ [slice word start
                                  (next_boundary word vpos next_vpos start)]).
Proof. reflexivity. Qed.

(** The loop: from [start] on, the syllables make up the rest of the
    word, there is one for each vowel position left, and each holds the
    vowel it was cut for. *)
Lemma syllables_loop_spec (word : pystr) :
  forall vps start,
    vps <> [] -> (0 <= start)%Z ->
    positions_chain start (len word) vps ->
    (forall v, In v vps ->
               exists c, nth_error word (Z.to_nat v) = Some c
                         /\ _is_vowel c = true) ->
    List.concat (syllables_loop word vps start []) = slice_from word start
    /\ List.length (syllables_loop word vps start []) = List.length vps
    /\ Forall (fun s => 1 <= count_vowels s) (syllables_loop word vps start []).
Proof.
  induction vps as [| vpos rest IH]; intros start Hne Hs Hch Hv;
    [contradiction |].
  destruct Hch as [Hvp Hch].
  destruct (Hv vpos (or_introl eq_refl)) as (c & Hc & Hcv).
  destruct rest as [| next_vpos rest'].
  - cbn [syllables_loop app List.concat]. rewrite app_nil_r.
    split; [reflexivity |]. split; [reflexivity |].
    constructor; [| constructor].
    apply (count_vowels_in _ c); [| exact Hcv].
    apply (slice_from_nth word start vpos c); [lia | exact Hc].
  - rewrite syllables_loop_step. destruct Hch as [Hnv Hch'].
    unfold next_boundary.
    set (cluster := slice word (vpos + 1) next_vpos).
    set (boundary0 := match cluster with
                      | [] => next_vpos
                      | _ :: _ => (next_vpos - onset_len cluster)%Z
                      end).
    set (boundary := if (boundary0 <=? start)%Z then next_vpos else boundary0).
    assert (Hb0 : (vpos < boundary0 <= next_vpos)%Z).
    { subst boundary0. destruct cluster as [| x cl] eqn:Ec; [lia |].
      assert (Hcl : len cluster = (next_vpos - (vpos + 1))%Z)
        by (apply slice_len; lia).
      pose proof (onset_len_bounds cluster) as Ho.
      rewrite Ec in Ho, Hcl. specialize (Ho ltac:(discriminate)). lia. }
    assert (Hb : (vpos < boundary <= next_vpos)%Z).
    { subst boundary. destruct (Z.leb_spec boundary0 start); lia. }
    rewrite syllables_loop_acc.
    destruct (IH boundary ltac:(discriminate) ltac:(lia)) as (E1 & E2 & E3).
    + cbn [positions_chain]. split; [lia | exact Hch'].
    + intros v Hin. apply Hv. now right.
    + cbn [app List.concat List.length]. split; [| split].
      * rewrite E1. apply slice_app_from. lia.
      * now rewrite E2.
      * constructor; [| exact E3].
        apply (count_vowels_in _ c); [| exact Hcv].
        apply (slice_nth word start boundary vpos c); [lia | lia | exact Hc].
Qed.

Lemma count_vowels_concat (ss : list pystr) :
  count_vowels (List.concat ss) = list_sum (map count_vowels ss).
Proof.
  induction ss as [| s ss IH]; [reflexivity |].
  cbn [List.concat map list_sum]. now rewrite count_vowels_app, IH.
Qed.

Lemma all_ones (ss : list pystr) :
  Forall (fun s => 1 <= count_vowels s) ss ->
  list_sum (map count_vowels ss) = List.length ss ->
  Forall (fun s => count_vowels s = 1) ss.
Proof.
  unfold list_sum.
  intros H. induction H as [| s ss Hs Hr IH]; intros E; [constructor |].
  cbn [map fold_right List.length] in E.
  assert (Hge : List.length ss <= fold_right Nat.add 0 (map count_vowels ss)).
  { clear - Hr. induction Hr as [| s' ss' Hs' Hr' IH'];
      cbn [map fold_right List.length]; lia. }
  constructor; [lia | apply IH; lia].
Qed.

Lemma split_russian_syllables_spec (w : pystr) :
  List.concat (split_russian_syllables w) = w
  /\ List.length (split_russian_syllables w) = Nat.max 1 (count_vowels w)
  /\ (2 <= count_vowels w ->
      Forall (fun s => 1 <= count_vowels s) (split_russian_syllables w)).
Proof.
  unfold split_russian_syllables.
  pose proof (vowel_positions_count w 0) as Hc.
  destruct (Z.leb_spec (Z.of_nat (List.length (vowel_positions_from 0 w))) 1)
    as [Hle | Hgt].
  - cbn [List.concat List.length]. rewrite app_nil_r.
    split; [reflexivity |]. split; lia.
  - destruct (syllables_loop_spec w (vowel_positions_from 0 w) 0)
      as (E1 & E2 & E3).
    + destruct (vowel_positions_from 0 w); [cbn in Hgt; lia | discriminate].
    + lia.
    + exact (vowel_positions_chain w 0).
    + intros v Hin. destruct (vowel_positions_vowels w 0 v Hin) as (c & H1 & H2).
      rewrite Z.sub_0_r in H1. eauto.
    + rewrite slice_from_zero in E1. split; [exact E1 |].
      split; [lia | auto].
Qed.

(** X4. The syllables of a word, put together in order, are the word; a
    word with vowels has as many syllables as vowels, any other word is
    one syllable; and no syllable of a non-empty word is empty. *)
Theorem syllables_partition_word (w : pystr) :
  List.concat (split_russian_syllables w) = w
  /\ List.length (split_russian_syllables w) = Nat.max 1 (count_vowels w)
  /\ (w <> [] -> Forall (fun s => s <> []) (split_russian_syllables w)).
Proof.
  destruct (split_russian_syllables_spec w) as (E1 & E2 & E3).
  split; [exact E1 |]. split; [exact E2 |].
  intros Hne. destruct (Nat.le_gt_cases 2 (count_vowels w)) as [H2 | H1].
  - eapply Forall_impl; [| exact (E3 H2)].
    intros s Hs ->. cbn in Hs. lia.
  - unfold split_russian_syllables. rewrite vowel_positions_count.
    destruct (Z.leb_spec (Z.of_nat (count_vowels w)) 1); [| lia].
    constructor; [exact Hne | constructor].
Qed.

Lemma syllables_partition_word_witness :
  utf8 "мир" <> []
  /\ Forall (fun s => s <> []) (split_russian_syllables (utf8 "мир")).
Proof.
  assert (H : utf8 "мир" <> []) by discriminate.
  split; [exact H |].
  exact (proj2 (proj2 (syllables_partition_word (utf8 "мир"))) H).
Defined.

(** X5. Every syllable of a word that has a vowel contains exactly one
    vowel. *)
Theorem syllables_one_vowel_each (w : pystr) :
  1 <= count_vowels w ->
  Forall (fun s => count_vowels s = 1) (split_russian_syllables w).
Proof.
  intros H1. destruct (split_russian_syllables_spec w) as (E1 & E2 & E3).
  destruct (Nat.le_gt_cases 2 (count_vowels w)) as [H2 | Hlt].
  - apply all_ones; [exact (E3 H2) |].
    rewrite <- count_vowels_concat, E1, E2. lia.
  - unfold split_russian_syllables. rewrite vowel_positions_count.
    destruct (Z.leb_spec (Z.of_nat (count_vowels w)) 1); [| lia].
    constructor; [lia | constructor].
Qed.

Lemma syllables_one_vowel_each_witness :
  1 <= count_vowels (utf8 "происходит")
  /\ Forall (fun s => count_vowels s = 1)
            (split_russian_syllables (utf8 "происходит")).
Proof.
  assert (H : 1 <= count_vowels (utf8 "происходит")) by (vm_compute; lia).
  split; [exact H |].
  exact (syllables_one_vowel_each (utf8 "происходит") H).
Defined.

Lemma build_nodes_for_text_result_witness :
  exists nodes next',
    build_nodes_for_text 5 (utf8 "да, нет") "syllable" = Some (nodes, next')
    /\ nodes <> [] /\ 5 <= next'.
Proof.
  destruct (build_nodes_for_text 5 (utf8 "да, нет") "syllable")
    as [[nodes next'] |] eqn:E; [| vm_compute in E; discriminate E].
  destruct (build_nodes_for_text_result 5 (utf8 "да, нет") "syllable"
              nodes next' E) as (H1 & H2 & _).
  exists nodes, next'. auto.
Defined.

(** ** The heads of words *)

Lemma slice_from_app_len (a b : pystr) : slice_from (a ++ b) (len a) = b.
Proof.
  unfold slice_from. rewrite norm_index_nonneg by apply len_nonneg.
  unfold len. rewrite Nat2Z.id, length_app.
  replace (Nat.min (List.length a) (List.length a + List.length b))
    with (List.length a + 0) by lia.
  rewrite skipn_app, Nat.add_0_r, skipn_all.
  replace (List.length a - List.length a) with 0 by lia. reflexivity.
Qed.

Lemma split_russian_syllables_vowels (w : pystr) :
  1 <= count_vowels w ->
  Forall (fun s => count_vowels s = 1) (split_russian_syllables w).
Proof.
  intros H1. destruct (split_russian_syllables_spec w) as (E1 & E2 & E3).
  destruct (Nat.le_gt_cases 2 (count_vowels w)) as [H2 | Hlt].
  - apply all_ones; [exact (E3 H2) |].
    rewrite <- count_vowels_concat, E1, E2. lia.
  - unfold split_russian_syllables. rewrite vowel_positions_count.
    destruct (Z.leb_spec (Z.of_nat (count_vowels w)) 1); [| lia].
    constructor; [lia | constructor].
Qed.

Lemma count_vowels_nonempty (s : pystr) : 1 <= count_vowels s -> s <> [].
Proof. intros H ->. cbn in H. lia. Qed.

(** The two ways [first_syllable_parts] comes out. *)
Lemma first_syllable_parts_cases (w : pystr) :
  (count_vowels w <= 1 /\ first_syllable_parts w = (w, []))
  \/ (2 <= count_vowels w
      /\ exists first s2 more,
          first_syllable_parts w = (first, s2 ++ List.concat more)
          /\ count_vowels first = 1 /\ count_vowels s2 = 1).
Proof.
  destruct (Nat.le_gt_cases (count_vowels w) 1) as [Hle | Hgt].
  - left. split; [exact Hle |].
    unfold first_syllable_parts, split_russian_syllables.
    rewrite vowel_positions_count.
    destruct (Z.leb_spec (Z.of_nat (count_vowels w)) 1); [| lia].
    rewrite slice_from_end by lia. reflexivity.
  - right. split; [lia |].
    destruct (split_russian_syllables_spec w) as (E1 & E2 & _).
    pose proof (split_russian_syllables_vowels w ltac:(lia)) as Hv.
    unfold first_syllable_parts.
    destruct (split_russian_syllables w) as [| first [| s2 more]];
      [cbn [List.length] in E2; lia | cbn [List.length] in E2; lia |].
    exists first, s2, more.
    pose proof (Forall_inv Hv) as Hf.
    pose proof (Forall_inv (Forall_inv_tail Hv)) as Hs. cbv beta in Hf, Hs.
    split; [| split; [exact Hf | exact Hs]].
    cbn [List.concat] in E1.
    rewrite <- E1 at 1. rewrite slice_from_app_len. reflexivity.
Qed.

(** X6. The head that the syllable mode emphasises: for a non-empty word
    it is never empty; it holds the first vowel of the word and no other;
    and the remainder is empty exactly when the word has at most one
    vowel. *)
Theorem first_syllable_head (w : pystr) :
  w <> [] ->
  fst (first_syllable_parts w) <> []
  /\ count_vowels (fst (first_syllable_parts w)) = Nat.min 1 (count_vowels w)
  /\ (snd (first_syllable_parts w) = [] <-> count_vowels w <= 1).
Proof.
  intros Hne.
  destruct (first_syllable_parts_cases w)
    as [[Hle ->] | (Hge & first & s2 & more & -> & Hf & Hs)]; cbn [fst snd].
  - split; [exact Hne |]. split; [lia | tauto].
  - split; [apply count_vowels_nonempty; lia |]. split; [lia |].
    split; [| lia].
    intros E. apply app_eq_nil in E as [E _].
    apply (count_vowels_nonempty s2) in E; [contradiction | lia].
Qed.

Lemma first_syllable_head_witness :
  utf8 "мир" <> []
  /\ fst (first_syllable_parts (utf8 "мир")) <> [].
Proof.
  assert (H : utf8 "мир" <> []) by discriminate.
  split; [exact H |].
  exact (proj1 (first_syllable_head (utf8 "мир") H)).
Defined.

(** Where the bionic strategy cuts. *)
Lemma bionic_parts_cut (w : pystr) :
  ((len w <= 3)%Z -> bionic_parts w = (w, []))
  /\ ((4 <= len w)%Z ->
      (2 <= len (fst (bionic_parts w)))%Z
      /\ (2 * len (fst (bionic_parts w)) <= len w)%Z
      /\ snd (bionic_parts w) <> []).
Proof.
  pose proof (len_nonneg w) as Hn.
  split.
  - intros H. unfold bionic_parts. cbv zeta.
    destruct (Z.leb_spec (len w) 3); [| lia].
    rewrite slice_to_all, slice_from_end by lia. reflexivity.
  - intros H.
    assert (Hdiv : (11 <= len w -> 3 <= len w / 3 /\ 2 * (len w / 3) <= len w)%Z).
    { intros H11. split.
      - apply Z.div_le_lower_bound; lia.
      - pose proof (Z.mul_div_le (len w) 3 ltac:(lia)). lia. }
    assert (Hcut : exists n, (2 <= n /\ 2 * n <= len w)%Z
                             /\ bionic_parts w = (slice_to w n, slice_from w n)).
    { unfold bionic_parts. cbv zeta.
      destruct (Z.leb_spec (len w) 3); [lia |].
      destruct (Z.leb_spec (len w) 5); [exists 2%Z; split; [lia | reflexivity] |].
      destruct (Z.leb_spec (len w) 7); [exists 2%Z; split; [lia | reflexivity] |].
      destruct (Z.leb_spec (len w) 10); [exists 3%Z; split; [lia | reflexivity] |].
      exists (Z.max 3 (len w / 3)). split; [lia | reflexivity]. }
    destruct Hcut as (n & Hb & ->). cbn [fst snd].
    rewrite slice_to_length by lia.
    split; [lia |]. split; [lia |].
    intros E. pose proof (slice_to_from w n) as Ha.
    rewrite E, app_nil_r in Ha.
    pose proof (slice_to_length w n ltac:(lia)) as Hl.
    rewrite Ha in Hl. lia.
Qed.

(** X7. The bionic split: a word of up to three letters is emphasised as
    a whole and leaves no remainder; a longer word is split properly, the
    head having at least two letters and at most half of the word. *)
Theorem bionic_parts_proper (w : pystr) :
  ((len w <= 3)%Z -> bionic_parts w = (w, []))
  /\ ((4 <= len w)%Z ->
      (2 <= len (fst (bionic_parts w)))%Z
      /\ (2 * len (fst (bionic_parts w)) <= len w)%Z
      /\ snd (bionic_parts w) <> []).
Proof. exact (bionic_parts_cut w). Qed.

Lemma bionic_parts_proper_witness :
  (4 <= len (utf8 "привет"))%Z
  /\ snd (bionic_parts (utf8 "привет")) <> [].
Proof.
  assert (H : (4 <= len (utf8 "привет"))%Z) by (vm_compute; discriminate).
  split; [exact H |].
  exact (proj2 (proj2 (proj2 (bionic_parts_proper (utf8 "привет")) H))).
Defined.

Lemma WORD_RE_fullmatch_nonempty (token : pystr) :
  WORD_RE_fullmatch token = true -> token <> [].
Proof. intros H ->. discriminate H. Qed.

Lemma len_zero_nil (s : pystr) : len s = 0%Z -> s = [].
Proof. unfold len. destruct s; [reflexivity | cbn; lia]. Qed.

(** Either strategy gives a non-empty head for a non-empty word. *)
Lemma head_nonempty (mode : string) (token : pystr) :
  token <> [] ->
  fst (if String.eqb mode "bionic" then bionic_parts token
       else first_syllable_parts token) <> [].
Proof.
  intros Hne. destruct (String.eqb mode "bionic").
  - pose proof (len_nonneg token) as Hn.
    destruct (Z.le_gt_cases (len token) 3) as [H3 | H4].
    + rewrite (proj1 (bionic_parts_cut token) H3). exact Hne.
    + destruct (proj2 (bionic_parts_cut token) ltac:(lia)) as (H2 & _).
      intros E. rewrite E in H2. cbn in H2. lia.
  - destruct (first_syllable_parts_cases token)
      as [[Hle ->] | (Hge & first & s2 & more & -> & Hf & Hs)]; cbn [fst].
    + exact Hne.
    + apply count_vowels_nonempty; lia.
Qed.

(** ** Words and their elements *)

Lemma parts_app (mode : string) (token : pystr) :
  fst (if String.eqb mode "bionic" then bionic_parts token
       else first_syllable_parts token)
  ++ snd (if String.eqb mode "bionic" then bionic_parts token
          else first_syllable_parts token) = token.
Proof.
  destruct (String.eqb mode "bionic");
    [apply bionic_parts_app | apply first_syllable_parts_app].
Qed.

Lemma token_nodes_word (token : pystr) (mode : string) (next : nat) :
  WORD_RE_fullmatch token = true ->
  exists head rest,
    head <> [] /\ head ++ rest = token
    /\ fst (token_nodes token mode next)
       = Tag next "strong" [] [Str (S next) NavigableString head]
         :: match rest with
            | [] => []
            | _ :: _ => [Str (S (S next)) NavigableString rest]
            end.
Proof.
  intros Hw. unfold token_nodes. rewrite Hw.
  pose proof (head_nonempty mode token (WORD_RE_fullmatch_nonempty token Hw))
    as Hh.
  pose proof (parts_app mode token) as Ha.
  destruct (if String.eqb mode "bionic" then bionic_parts token
            else first_syllable_parts token) as [head rest].
  cbn [fst snd] in Hh, Ha.
  exists head, rest. split; [exact Hh |]. split; [exact Ha |].
  destruct head as [| c head']; [contradiction |].
  destruct rest; reflexivity.
Qed.

(** X8. A word token always gets a [strong] element, first among the
    nodes made for it, that holds a non-empty head of the word; the
    remainder follows as a plain string when there is one.  So the branch
    that would keep the word as plain text is never taken for a match of
    the tokenizer, in either mode. *)
Theorem word_token_is_emphasised (token : pystr) (mode : string) (next : nat) :
  WORD_RE_fullmatch token = true ->
  exists head rest,
    head <> [] /\ head ++ rest = token
    /\ fst (token_nodes token mode next)
       = Tag next "strong" [] [Str (S next) NavigableString head]
         :: match rest with
            | [] => []
            | _ :: _ => [Str (S (S next)) NavigableString rest]
            end.
Proof. exact (token_nodes_word token mode next). Qed.

Lemma word_token_is_emphasised_witness :
  WORD_RE_fullmatch (utf8 "привет") = true
  /\ exists head rest,
      head <> [] /\ head ++ rest = utf8 "привет"
      /\ fst (token_nodes (utf8 "привет") "bionic" 7)
         = Tag 7 "strong" [] [Str 8 NavigableString head]
           :: match rest with
              | [] => []
              | _ :: _ => [Str 9 NavigableString rest]
              end.
Proof.
  assert (H : WORD_RE_fullmatch (utf8 "привет") = true) by reflexivity.
  split; [exact H |].
  exact (word_token_is_emphasised (utf8 "привет") "bionic" 7 H).
Defined.

Lemma count_app {A : Type} (f : A -> bool) (a b : list A) :
  count f (a ++ b) = count f a + count f b.
Proof. unfold count. rewrite filter_app, length_app. reflexivity. Qed.

Lemma count_nil {A : Type} (f : A -> bool) : count f [] = 0.
Proof. reflexivity. Qed.

Lemma count_cons {A : Type} (f : A -> bool) (x : A) (l : list A) :
  count f (x :: l) = (if f x then 1 else 0) + count f l.
Proof. unfold count. cbn [filter]. destruct (f x); reflexivity. Qed.

Lemma token_nodes_counts (token : pystr) (mode : string) (next : nat) :
  count is_strong (fst (token_nodes token mode next))
  = (if WORD_RE_fullmatch token then 1 else 0)
  /\ count is_punct_span (fst (token_nodes token mode next))
     = (if WORD_RE_fullmatch token then 0 else 1).
Proof.
  destruct (WORD_RE_fullmatch token) eqn:Hw.
  - destruct (token_nodes_word token mode next Hw) as (head & rest & _ & _ & ->).
    destruct rest; split; reflexivity.
  - unfold token_nodes. rewrite Hw. split; reflexivity.
Qed.

Lemma build_step_counts (text : pystr) (mode : string)
      (st : list node * Z * nat) (m : Match) :
  count is_strong (fst (fst (build_step text mode st m)))
  = count is_strong (fst (fst st)) + (if is_word_match m then 1 else 0)
  /\ count is_punct_span (fst (fst (build_step text mode st m)))
     = count is_punct_span (fst (fst st)) + (if is_word_match m then 0 else 1).
Proof.
  destruct st as [[nodes i] n]. unfold build_step, is_word_match.
  assert (Hb : forall before n1,
             (if (i <? m_start m)%Z
              then let '(plain, next) :=
                     new_string (slice text i (m_start m)) n in
                   ([plain], next)
              else ([], n)) = (before, n1) ->
             count is_strong before = 0 /\ count is_punct_span before = 0).
  { intros before n1. destruct (i <? m_start m)%Z; cbn; intros E;
      injection E as <- _; split; reflexivity. }
  destruct (if (i <? m_start m)%Z then _ else _) as [before n1].
  destruct (Hb before n1 eq_refl) as [Hb1 Hb2].
  destruct (token_nodes_counts (m_group m) mode n1) as [Ht1 Ht2].
  destruct (token_nodes (m_group m) mode n1) as [tok n2].
  cbn [fst] in *. rewrite !count_app, Hb1, Hb2, Ht1, Ht2. split; lia.
Qed.

Lemma build_loop_counts (text : pystr) (mode : string) :
  forall ms st,
    count is_strong (fst (fst (fold_left (build_step text mode) ms st)))
    = count is_strong (fst (fst st)) + count is_word_match ms
    /\ count is_punct_span (fst (fst (fold_left (build_step text mode) ms st)))
       = count is_punct_span (fst (fst st))
         + count (fun m => negb (is_word_match m)) ms.
Proof.
  induction ms as [| m r IH]; intros st.
  - cbn [fold_left]. rewrite !count_nil. split; lia.
  - cbn [fold_left].
    destruct (IH (build_step text mode st m)) as [I1 I2].
    destruct (build_step_counts text mode st m) as [S1 S2].
    rewrite I1, I2, S1, S2, !count_cons.
    destruct (is_word_match m); cbn [negb]; split; lia.
Qed.

(** X9. In the sequence made for a text run there is exactly one [strong]
    element for each word the tokenizer finds and exactly one [span] of
    class [punct] for each punctuation character it finds. *)
Theorem build_nodes_for_text_counts (next : nat) (text : pystr) (mode : string)
        (nodes : list node) (next' : nat) :
  build_nodes_for_text next text mode = Some (nodes, next') ->
  count is_strong nodes = count is_word_match (TOKEN_RE_finditer text)
  /\ count is_punct_span nodes
     = count (fun m => negb (is_word_match m)) (TOKEN_RE_finditer text).
Proof.
  unfold build_nodes_for_text. destruct (TOKEN_RE_search text); [| discriminate].
  destruct (build_loop_counts text mode (TOKEN_RE_finditer text) ([], 0%Z, next))
    as [H1 H2].
  destruct (fold_left (build_step text mode) (TOKEN_RE_finditer text)
                      ([], 0%Z, next)) as [[ns i] n].
  cbn [fst] in H1, H2.
  destruct (i <? len text)%Z; cbn; intros E; injection E as <- _.
  - rewrite !count_app, H1, H2. cbn. split; lia.
  - rewrite H1, H2. cbn. split; lia.
Qed.

Lemma build_nodes_for_text_counts_witness :
  exists nodes next',
    build_nodes_for_text 0 (utf8 "да, нет!") "bionic" = Some (nodes, next')
    /\ count is_strong nodes = 2 /\ count is_punct_span nodes = 2.
Proof.
  destruct (build_nodes_for_text 0 (utf8 "да, нет!") "bionic")
    as [[nodes next'] |] eqn:E; [| vm_compute in E; discriminate E].
  destruct (build_nodes_for_text_counts 0 (utf8 "да, нет!") "bionic"
              nodes next' E) as (H1 & H2).
  exists nodes, next'. split; [reflexivity |].
  split; [rewrite H1 | rewrite H2]; reflexivity.
Defined.

(** ** The archive rewriter *)




Lemma endswith_app (a suffix : pystr) : endswith (a ++ suffix) suffix = true.
Proof.
  unfold endswith, len. rewrite length_app.
  apply andb_true_intro. split; [apply Z.leb_le; lia |].
  replace (List.length a + List.length suffix - List.length suffix)
    with (List.length a + 0) by lia.
  rewrite skipn_app, Nat.add_0_r, skipn_all.
  replace (List.length a - List.length a) with 0 by lia.
  apply str_eqb_refl.
Qed.

Lemma endswith_split (s suffix : pystr) :
  endswith s suffix = true ->
  skipn (List.length s - List.length suffix) s = suffix.
Proof.
  unfold endswith. intros H. apply andb_prop in H as [_ H].
  now apply str_eqb_eq.
Qed.

Lemma lower_app (a b : pystr) : lower (a ++ b) = lower a ++ lower b.
Proof. apply map_app. Qed.

(** X12. A name is treated as an HTML document exactly when it ends in
    an extension that, lower-cased, is [.xhtml], [.html] or [.htm]: the
    test is blind to the case of the extension and to what comes before
    it. *)
Theorem is_html_name_extension (fn : pystr) :
  is_html_name fn = true
  <-> exists stem ext,
      fn = stem ++ ext
      /\ In (lower ext) [utf8 ".xhtml"; utf8 ".html"; utf8 ".htm"].
Proof.
  unfold is_html_name, endswith_any. cbv zeta. rewrite existsb_exists. split.
  - intros (suffix & Hin & He).
    apply endswith_split in He.
    exists (firstn (List.length fn - List.length suffix) fn),
           (skipn (List.length fn - List.length suffix) fn).
    split; [symmetry; apply firstn_skipn |].
    unfold lower in *. rewrite length_map in He.
    rewrite <- skipn_map, He. exact Hin.
  - intros (stem & ext & -> & Hin).
    exists (lower ext). split; [exact Hin |].
    rewrite lower_app. apply endswith_app.
Qed.

(** ** The style injection, again *)

(** X13. [ensure_style] is idempotent: applied to its own result it
    changes nothing, with or without a head and whatever the head held
    before. *)
Theorem ensure_style_idempotent (s : soup) :
  wf s -> ensure_style (ensure_style s) = ensure_style s.
Proof.
  intros Hwf. destruct (soup_find (fst s) "head") as [h |] eqn:Hh.
  - destruct (ensure_style_head s h Hwf Hh) as (Hh' & Hlen & _).
    destruct (ensure_style s) as [t' next']. cbn [fst] in Hh', Hlen.
    rewrite ensure_style_unfold, Hh'.
    rewrite (head_styles_unfold t' h Hh') in Hlen. rewrite find_style_filter.
    destruct (filter _ (flat [] t')); [cbn in Hlen; lia | reflexivity].
  - destruct s as [t next]. cbn [fst] in Hh.
    rewrite ensure_style_unfold, Hh. rewrite ensure_style_unfold, Hh.
    reflexivity.
Qed.

Lemma ensure_style_idempotent_witness :
  wf doc_inline
  /\ ensure_style (ensure_style doc_inline) = ensure_style doc_inline.
Proof.
  assert (H : wf doc_inline) by (apply wfb_wf; reflexivity).
  split; [exact H |]. exact (ensure_style_idempotent doc_inline H).
Defined.

(** ** Replacing a text node by a sequence *)

Lemma edit_self (c : nat) (mk : node -> list node) (n : node) :
  NoDup (oids [n]) -> oid n = c -> edit_node c mk n = mk n.
Proof.
  intros Hnd <-. destruct n as [i k s | i nm a cs].
  - cbn [edit_node oid]. now rewrite Nat.eqb_refl.
  - rewrite oids_tag in Hnd. inversion Hnd as [| ? ? Hni _]; subst.
    cbn [edit_node oid]. rewrite Nat.eqb_refl.
    fold (edit i mk cs). now rewrite (edit_absent_forest i mk cs Hni).
Qed.

Lemma flat_map_single (A B : Type) (f : A -> list B) (x : A) :
  flat_map f [x] = f x.
Proof. cbn. apply app_nil_r. Qed.

(** Inserting after the last node of a sequence that has just replaced a
    node is replacing by the longer sequence. *)
Lemma edit_insert_fusion (o : nat) (pre : list node) (cur nd : node) :
  ~ In (oid cur) (oids pre) -> NoDup (oids [cur]) ->
  forall n,
    ~ In (oid cur) (oids [n]) ->
    flat_map (edit_node (oid cur) (fun x => [x; nd]))
             (edit_node o (fun _ => pre ++ [cur]) n)
    = edit_node o (fun _ => pre ++ [cur; nd]) n.
Proof.
  intros Hpre Hcur.
  assert (Hhit : flat_map (edit_node (oid cur) (fun x => [x; nd])) (pre ++ [cur])
                 = pre ++ [cur; nd]).
  { rewrite flat_map_app, flat_map_single.
    fold (edit (oid cur) (fun x => [x; nd]) pre).
    rewrite (edit_absent_forest _ _ pre Hpre).
    now rewrite (edit_self (oid cur) _ cur Hcur eq_refl). }
  induction n as [i k s | i nm a cs IH] using node_induction; intros Hn.
  - cbn [edit_node oid]. destruct (Nat.eqb i o); [exact Hhit |].
    rewrite flat_map_single. now apply edit_absent.
  - cbn [edit_node oid]. destruct (Nat.eqb i o); [exact Hhit |].
    rewrite flat_map_single. rewrite oids_tag in Hn.
    cbn [edit_node oid].
    destruct (Nat.eqb_spec i (oid cur)) as [E | _];
      [exfalso; apply Hn; now left |].
    do 2 f_equal.
    assert (Hcs : ~ In (oid cur) (oids cs)) by (intros X; apply Hn; now right).
    clear Hn. induction IH as [| c r Hc Hr IHr]; [reflexivity |].
    rewrite oids_cons in Hcs. cbn [flat_map]. rewrite flat_map_app.
    rewrite Hc by (intros X; apply Hcs, in_or_app; left;
                   now rewrite app_nil_r in X || exact X).
    rewrite IHr by (intros X; apply Hcs, in_or_app; now right).
    reflexivity.
Qed.

Lemma insert_after_edit (t : list node) (o : nat) (pre : list node)
      (cur nd : node) :
  ~ In (oid cur) (oids t) -> ~ In (oid cur) (oids pre) -> NoDup (oids [cur]) ->
  insert_after (edit o (fun _ => pre ++ [cur]) t) (oid cur) nd
  = edit o (fun _ => pre ++ [cur; nd]) t.
Proof.
  intros Ht Hpre Hcur. unfold insert_after, edit.
  induction t as [| n t IH]; [reflexivity |].
  rewrite oids_cons in Ht. cbn [flat_map]. rewrite flat_map_app.
  rewrite (edit_insert_fusion o pre cur nd Hpre Hcur n)
    by (intros X; apply Ht, in_or_app; now left).
  rewrite IH by (intros X; apply Ht, in_or_app; now right).
  reflexivity.
Qed.

Lemma oid_in_oids (n : node) : In (oid n) (oids [n]).
Proof.
  destruct (flat_node_head n []) as (e & tl & E & Ho & _).
  unfold oids. rewrite flat_single, E. left. exact Ho.
Qed.

Lemma insert_chain_edit (t : list node) (o : nat) :
  forall rest pre cur,
    NoDup (oids (pre ++ cur :: rest)) ->
    (forall x, In x (oids (pre ++ cur :: rest)) -> ~ In x (oids t)) ->
    fst (fold_left
           (fun (st : list node * node) (nd : node) =>
              (insert_after (fst st) (oid (snd st)) nd, nd))
           rest (edit o (fun _ => pre ++ [cur]) t, cur))
    = edit o (fun _ => pre ++ cur :: rest) t.
Proof.
  induction rest as [| nd rest IH]; intros pre cur Hnd Hnew; [reflexivity |].
  cbn [fold_left fst snd].
  assert (Hin : In (oid cur) (oids (pre ++ cur :: nd :: rest))).
  { rewrite oids_app, oids_cons. apply in_or_app. right.
    apply in_or_app. left. apply oid_in_oids. }
  rewrite oids_app, oids_cons in Hnd.
  rewrite insert_after_edit.
  - replace (pre ++ [cur; nd]) with ((pre ++ [cur]) ++ [nd])
      by now rewrite <- app_assoc.
    replace (pre ++ cur :: nd :: rest) with ((pre ++ [cur]) ++ nd :: rest)
      by now rewrite <- app_assoc.
    apply IH.
    + rewrite <- app_assoc. cbn [app]. rewrite oids_app, oids_cons. exact Hnd.
    + rewrite <- app_assoc. exact Hnew.
  - exact (Hnew _ Hin).
  - intros X. apply (NoDup_app_disjoint _ _ _ _ Hnd X).
    apply in_or_app. left. apply oid_in_oids.
  - exact (NoDup_app_remove_r _ _ (NoDup_app_remove_l _ _ Hnd)).
Qed.

Lemma replace_text_node_edit (t : list node) (o : nat) (first : node)
      (rest : list node) :
  NoDup (oids (first :: rest)) ->
  (forall x, In x (oids (first :: rest)) -> ~ In x (oids t)) ->
  replace_text_node t o (first :: rest) = edit o (fun _ => first :: rest) t.
Proof.
  intros Hnd Hnew. unfold replace_text_node, replace_with.
  exact (insert_chain_edit t o rest [] first Hnd Hnew).
Qed.

(** X14. [replace_text_node] with a non-empty sequence of new nodes
    (objects that are not in the tree, no two of them the same) puts the
    whole sequence, in its order, at the place of the text node: the chain
    of [insert_after] calls comes to one replacement of the node by the
    sequence.  Nothing else in the tree moves. *)
Theorem replace_text_node_splices (t : list node) (o : nat) (nodes : list node) :
  nodes <> [] ->
  NoDup (oids nodes) ->
  (forall x, In x (oids nodes) -> ~ In x (oids t)) ->
  replace_text_node t o nodes = edit o (fun _ => nodes) t.
Proof.
  intros Hne Hnd Hnew. destruct nodes as [| first rest]; [contradiction |].
  exact (replace_text_node_edit t o first rest Hnd Hnew).
Qed.

(** ** The annotation pass keeps the text *)

Lemma build_nodes_for_text_text (next : nat) (text : pystr) (mode : string)
      (nodes : list node) (next' : nat) :
  build_nodes_for_text next text mode = Some (nodes, next') ->
  nodes_text nodes = text.
Proof.
  unfold build_nodes_for_text. intros H.
  destruct (TOKEN_RE_search text); [| discriminate].
  pose proof (@build_loop_text text mode (TOKEN_RE_finditer text) [] 0%Z next
                ltac:(lia) (TOKEN_RE_finditer_ordered text)) as Hl.
  destruct (fold_left (build_step text mode) (TOKEN_RE_finditer text)
                      ([], 0%Z, next)) as [[nodes1 i1] next1].
  destruct Hl as [Hi Hl]. cbn [nodes_text flat_map app] in Hl.
  rewrite slice_from_zero in Hl.
  destruct (Z.ltb_spec i1 (len text)) as [Hlt | Hge].
  - cbn [new_string] in H. injection H as <- _.
    rewrite nodes_text_app. cbn [nodes_text flat_map node_text].
    now rewrite app_nil_r.
  - injection H as <- _. rewrite slice_from_end in Hl by lia.
    now rewrite app_nil_r in Hl.
Qed.

(** Replacing a string by nodes that hold its text keeps the text of the
    tree. *)
Lemma edit_node_text (o : nat) (ns : list node) (s : pystr) :
  nodes_text ns = s ->
  forall n anc,
    (forall e, In e (flat_node anc n) -> e_oid e = o ->
               exists k, e_label e = LStr k s) ->
    nodes_text (edit_node o (fun _ => ns) n) = node_text n.
Proof.
  intros Hns.
  induction n as [i k s' | i nm a cs IH] using node_induction; intros anc H.
  - cbn [edit_node oid]. destruct (Nat.eqb_spec i o) as [E | _].
    + destruct (H {| e_oid := i; e_anc := anc; e_label := LStr k s' |})
        as [k' Ek]; [now left | exact E |].
      cbn in Ek. injection Ek as _ ->. exact Hns.
    + cbn. apply app_nil_r.
  - cbn [edit_node oid]. destruct (Nat.eqb_spec i o) as [E | _].
    + destruct (H {| e_oid := i; e_anc := anc; e_label := LTag nm a |})
        as [k' Ek]; [now left | exact E |].
      discriminate Ek.
    + unfold nodes_text. rewrite flat_map_single. cbn [node_text].
      assert (Hcs : forall c, In c cs ->
                forall e, In e (flat_node ((i, nm) :: anc) c) -> e_oid e = o ->
                          exists k, e_label e = LStr k s).
      { intros c Hc e He Eo. apply H; [| exact Eo].
        cbn [flat_node]. right. apply in_flat_map. eauto. }
      clear H. induction IH as [| c r Hc Hr IHr]; [reflexivity |].
      cbn [flat_map]. rewrite flat_map_app.
      fold (nodes_text (edit_node o (fun _ => ns) c)).
      rewrite (Hc ((i, nm) :: anc)) by (apply Hcs; now left).
      rewrite IHr by (intros c' Hc'; apply Hcs; now right).
      reflexivity.
Qed.

Lemma edit_text (o : nat) (ns : list node) (s : pystr) (t : list node) :
  nodes_text ns = s ->
  (forall e, In e (flat [] t) -> e_oid e = o -> exists k, e_label e = LStr k s) ->
  nodes_text (edit o (fun _ => ns) t) = nodes_text t.
Proof.
  intros Hns. unfold edit, nodes_text.
  induction t as [| n t IH]; intros H; [reflexivity |].
  cbn [flat_map]. rewrite flat_map_app.
  fold (nodes_text (edit_node o (fun _ => ns) n)).
  rewrite (edit_node_text o ns s Hns n [])
    by (intros e He; apply H; rewrite flat_cons; apply in_or_app; now left).
  rewrite IH
    by (intros e He; apply H; rewrite flat_cons; apply in_or_app; now right).
  reflexivity.
Qed.

Lemma wf_raise (t : list node) (next next' : nat) :
  wf (t, next) -> next <= next' -> wf (t, next').
Proof.
  intros [Hnd Hb] Hle. split; [exact Hnd |]. cbn [fst snd] in *.
  eapply Forall_impl; [| exact Hb]. cbv beta. intros; lia.
Qed.

(** One rewritten text node: the soup stays well formed and its text is
    unchanged. *)
Lemma rewrite_text_node_keeps (mode : string) (s : soup) (o : nat) :
  wf s ->
  wf (rewrite_text_node mode s o)
  /\ nodes_text (fst (rewrite_text_node mode s o)) = nodes_text (fst s).
Proof.
  intros Hwf. destruct s as [t next]. unfold rewrite_text_node.
  destruct (find_entry t o) as [e |] eqn:Ef; [| now split].
  destruct (e_label e) as [k original | nm a] eqn:El; [| now split].
  destruct (String.eqb (parent_name e) "script"
            || String.eqb (parent_name e) "style"); [now split |].
  destruct (build_nodes_for_text next original mode) as [[nodes next'] |] eqn:Eb;
    [| now split].
  destruct (build_nodes_for_text_fresh next original mode nodes next' Eb)
    as [Hle Hf].
  pose proof (build_nodes_for_text_text next original mode nodes next' Eb) as Ht.
  destruct (find_entry_some t o e Ef) as [He Eo].
  assert (Hs : is_str e = true) by (unfold is_str; now rewrite El).
  cbn [fst]. destruct nodes as [| first rest].
  - cbn [replace_text_node]. split; [| reflexivity].
    exact (wf_raise t next next' Hwf Hle).
  - split.
    + exact (proj1 (replace_text_node_step pass_kind (t, next) [] t next next'
                      o e first rest Hwf (evolve_refl pass_kind (t, next) Hwf)
                      He Eo Hs Hle Hf)).
    + rewrite replace_text_node_edit.
      * apply (edit_text o (first :: rest) original t Ht).
        intros e' He' Eo'. exists k.
        assert (e = e').
        { apply (NoDup_oid_eq (flat [] t)); [exact (proj1 Hwf) | exact He
                                              | exact He' | congruence]. }
        subst e'. exact El.
      * exact (proj1 Hf).
      * intros x Hx Hin.
        pose proof (fresh_nodes_oids pass_kind next next' _ x Hf Hx) as Hr.
        destruct Hwf as [_ Hb]. rewrite Forall_forall in Hb.
        specialize (Hb _ Hin). cbn [snd] in Hb. lia.
Qed.

Lemma fold_keeps (A : Type) (f : soup -> A -> soup) :
  (forall s a, wf s -> wf (f s a) /\ nodes_text (fst (f s a)) = nodes_text (fst s)) ->
  forall l s, wf s ->
    wf (fold_left f l s)
    /\ nodes_text (fst (fold_left f l s)) = nodes_text (fst s).
Proof.
  intros Hf. induction l as [| a l IH]; intros s Hwf; [now split |].
  cbn [fold_left]. destruct (Hf s a Hwf) as [H1 H2].
  destruct (IH (f s a) H1) as [H3 H4]. split; [exact H3 |].
  now rewrite H4.
Qed.

Lemma rewrite_paragraph_keeps (mode : string) (s : soup) (p : nat) :
  wf s ->
  wf (rewrite_paragraph mode s p)
  /\ nodes_text (fst (rewrite_paragraph mode s p)) = nodes_text (fst s).
Proof.
  intros Hwf. unfold rewrite_paragraph.
  apply (fold_keeps nat (rewrite_text_node mode)
                    (rewrite_text_node_keeps mode) _ s Hwf).
Qed.

(** X15. The annotation pass changes markup only: the text of the
    document, all strings in document order, is after the first loop what
    it was before, whatever the body and the mode. *)
Theorem annotate_paragraphs_keeps_text (mode : string) (s : soup) (body : nat) :
  wf s ->
  nodes_text (fst (annotate_paragraphs mode s body)) = nodes_text (fst s).
Proof.
  intros Hwf. unfold annotate_paragraphs.
  exact (proj2 (fold_keeps nat (rewrite_paragraph mode)
                           (rewrite_paragraph_keeps mode) _ s Hwf)).
Qed.

Lemma annotate_paragraphs_keeps_text_witness :
  wf doc_inline
  /\ nodes_text (fst (annotate_paragraphs "syllable" doc_inline 2))
     = nodes_text (fst doc_inline).
Proof.
  assert (H : wf doc_inline) by (apply wfb_wf; reflexivity).
  split; [exact H |].
  exact (annotate_paragraphs_keeps_text "syllable" doc_inline 2 H).
Defined.

Lemma replace_text_node_splices_witness :
  replace_text_node (fst doc_inline) 4
    [Str 8 NavigableString (utf8 "да"); Str 9 NavigableString (utf8 ", ")]
  = edit 4 (fun _ => [Str 8 NavigableString (utf8 "да");
                      Str 9 NavigableString (utf8 ", ")]) (fst doc_inline).
Proof.
  apply replace_text_node_splices.
  - discriminate.
  - unfold oids. cbn [flat flat_map flat_node map app e_oid].
    constructor; [intros [H | []]; discriminate H |].
    constructor; [intros [] | constructor].
  - intros x Hx Hin. unfold oids in Hx, Hin. cbn in Hx, Hin.
    destruct Hx as [<- | [<- | []]];
      repeat (destruct Hin as [Hin | Hin]; [discriminate Hin |]);
      exact Hin.
Defined.

(** ** Gaps after paragraphs *)

Lemma next_sibling_in_tag (o i : nat) (nm : string) (a : attrs) (cs : list node) :
  next_sibling_in o (Tag i nm a cs) = next_sibling_forest o cs.
Proof.
  induction cs as [| c r IH]; [reflexivity |].
  cbn [next_sibling_in next_sibling_forest] in *.
  destruct (Nat.eqb (oid c) o); [reflexivity |].
  destruct (next_sibling_in o c); [reflexivity | exact IH].
Qed.

Lemma find_next_sibling_forest (t : list node) (o : nat) :
  find_next_sibling t o = next_sibling_forest o t.
Proof. apply next_sibling_in_tag. Qed.

Lemma next_sibling_forest_absent_of (o : nat) (l : list node) :
  Forall (fun n => ~ In o (oids [n]) -> next_sibling_in o n = None) l ->
  ~ In o (oids l) -> next_sibling_forest o l = None.
Proof.
  induction 1 as [| c r Hc Hr IH]; intros H; [reflexivity |].
  rewrite oids_cons in H. cbn [next_sibling_forest].
  destruct (Nat.eqb_spec (oid c) o) as [E | _].
  - exfalso. apply H, in_or_app. left. rewrite <- E. apply oid_in_oids.
  - rewrite Hc by (intros X; apply H, in_or_app; now left).
    apply IH. intros X. apply H, in_or_app. now right.
Qed.

Lemma next_sibling_in_absent (o : nat) (n : node) :
  ~ In o (oids [n]) -> next_sibling_in o n = None.
Proof.
  induction n as [i k s | i nm a cs IH] using node_induction; intros H.
  - reflexivity.
  - rewrite next_sibling_in_tag. apply next_sibling_forest_absent_of; [exact IH |].
    rewrite oids_tag in H. intros X. apply H. now right.
Qed.

Lemma next_sibling_forest_absent (o : nat) (l : list node) :
  ~ In o (oids l) -> next_sibling_forest o l = None.
Proof.
  apply next_sibling_forest_absent_of. apply Forall_forall.
  intros n _. apply next_sibling_in_absent.
Qed.

Lemma next_sibling_forest_found (o : nat) (l : list node) (x : option node) :
  next_sibling_forest o l = Some x -> In o (oids l).
Proof.
  intros H. destruct (in_dec Nat.eq_dec o (oids l)) as [Hin | Hout];
    [exact Hin |].
  rewrite (next_sibling_forest_absent o l Hout) in H. discriminate H.
Qed.

Lemma is_gap_tag (g : node) :
  is_gap g = true -> forall r, first_tag (g :: r) = Some g.
Proof. destruct g; [discriminate | reflexivity]. Qed.

Section Gaps.
Variable p : nat.
Variable g : node.
Hypothesis Hg : is_gap g = true.

(** Inserting the gap after [p] makes it the next sibling element of
    [p]. *)
Lemma insert_gap_found_of (l : list node) :
  Forall (fun n => oid n <> p -> In p (oids [n]) ->
                   forall rest,
                     next_sibling_forest p
                       (edit_node p (fun x => [x; g]) n ++ rest)
                     = Some (Some g)) l ->
  In p (oids l) ->
  next_sibling_forest p (edit p (fun x => [x; g]) l) = Some (Some g).
Proof.
  induction 1 as [| c r Hc Hr IH]; intros Hin; [contradiction |].
  unfold edit. cbn [flat_map]. fold (edit p (fun x => [x; g]) r).
  destruct (Nat.eq_dec (oid c) p) as [E | Hne].
  - destruct c as [i k s | i nm a cs]; cbn [edit_node oid] in *; subst i;
      rewrite Nat.eqb_refl; cbn [app next_sibling_forest oid];
      rewrite Nat.eqb_refl; now rewrite (is_gap_tag g Hg).
  - destruct (in_dec Nat.eq_dec p (oids [c])) as [Hc' | Hc'].
    + apply Hc; assumption.
    + rewrite (edit_absent p _ c Hc'). cbn [app next_sibling_forest].
      destruct (Nat.eqb_spec (oid c) p) as [E | _]; [contradiction |].
      rewrite (next_sibling_in_absent p c Hc'). apply IH.
      rewrite oids_cons in Hin. apply in_app_or in Hin as [Hin | Hin];
        [contradiction | exact Hin].
Qed.

Lemma insert_gap_found_node (n : node) :
  oid n <> p -> In p (oids [n]) ->
  forall rest,
    next_sibling_forest p (edit_node p (fun x => [x; g]) n ++ rest)
    = Some (Some g).
Proof.
  induction n as [i k s | i nm a cs IH] using node_induction;
    intros Hne Hin rest.
  - exfalso. unfold oids in Hin. cbn in Hin. destruct Hin as [E | []].
    apply Hne. exact E.
  - cbn [edit_node oid] in *.
    destruct (Nat.eqb_spec i p) as [E | _]; [contradiction |].
    cbn [app next_sibling_forest oid].
    destruct (Nat.eqb_spec i p) as [E | _]; [contradiction |].
    rewrite next_sibling_in_tag. fold (edit p (fun x => [x; g]) cs).
    rewrite (insert_gap_found_of cs IH); [reflexivity |].
    rewrite oids_tag in Hin. destruct Hin as [E | Hin];
      [contradiction | exact Hin].
Qed.

Lemma insert_gap_found (t : list node) :
  In p (oids t) ->
  next_sibling_forest p (insert_after t p g) = Some (Some g).
Proof.
  apply insert_gap_found_of. apply Forall_forall.
  intros n _. apply insert_gap_found_node.
Qed.

(** A gap inserted after another node [p'] does not come between [p]
    and the gap that follows it. *)
Variable p' : nat.
Hypothesis Hpp : p <> p'.
Hypothesis Hfresh : ~ In p (oids [g]).

Lemma first_tag_edit (r : list node) :
  is_gap_opt (first_tag r) = true ->
  is_gap_opt (first_tag (edit p' (fun x => [x; g]) r)) = true.
Proof.
  induction r as [| c r IH]; [discriminate |].
  unfold edit. cbn [flat_map]. fold (edit p' (fun x => [x; g]) r).
  destruct c as [i k s | i nm a cs]; cbn [edit_node oid];
    destruct (Nat.eqb i p'); cbn [app]; intros H.
  - change (first_tag (Str i k s :: g :: edit p' (fun x => [x; g]) r))
      with (first_tag (g :: edit p' (fun x => [x; g]) r)).
    rewrite (is_gap_tag g Hg). exact Hg.
  - apply IH. exact H.
  - exact H.
  - exact H.
Qed.

Lemma gap_oid_fresh : oid g <> p.
Proof. intros E. apply Hfresh. rewrite <- E. apply oid_in_oids. Qed.

Lemma skip_gap (rest : list node) :
  next_sibling_forest p (g :: rest) = next_sibling_forest p rest.
Proof.
  cbn [next_sibling_forest].
  destruct (Nat.eqb_spec (oid g) p) as [E | _];
    [exfalso; exact (gap_oid_fresh E) |].
  now rewrite (next_sibling_in_absent p g Hfresh).
Qed.

Lemma keep_gap_of (l : list node) :
  Forall (fun n =>
            oid n <> p ->
            match next_sibling_in p n with
            | None =>
              forall rest,
                next_sibling_forest p
                  (edit_node p' (fun x => [x; g]) n ++ rest)
                = next_sibling_forest p rest
            | Some x =>
              exists x',
                (forall rest,
                    next_sibling_forest p
                      (edit_node p' (fun x => [x; g]) n ++ rest) = Some x')
                /\ (is_gap_opt x = true -> is_gap_opt x' = true)
            end) l ->
  match next_sibling_forest p l with
  | None => next_sibling_forest p (edit p' (fun x => [x; g]) l) = None
  | Some x =>
    exists x',
      next_sibling_forest p (edit p' (fun x => [x; g]) l) = Some x'
      /\ (is_gap_opt x = true -> is_gap_opt x' = true)
  end.
Proof.
  induction 1 as [| c r Hc Hr IH]; [reflexivity |].
  unfold edit. cbn [flat_map]. fold (edit p' (fun x => [x; g]) r).
  cbn [next_sibling_forest].
  destruct (Nat.eqb_spec (oid c) p) as [E | Hne].
  - exists (first_tag (edit p' (fun x => [x; g]) r)).
    split; [| apply first_tag_edit].
    destruct c as [i k s | i nm a cs]; cbn [edit_node oid] in *; subst i;
      (destruct (Nat.eqb_spec p p') as [E' | _]; [contradiction |]);
      cbn [app next_sibling_forest oid]; now rewrite Nat.eqb_refl.
  - specialize (Hc Hne). destruct (next_sibling_in p c) as [x |].
    + destruct Hc as (x' & Hx & Hgx). exists x'. split; [apply Hx | exact Hgx].
    + rewrite Hc. exact IH.
Qed.

Lemma keep_gap_node (n : node) :
  oid n <> p ->
  match next_sibling_in p n with
  | None =>
    forall rest,
      next_sibling_forest p (edit_node p' (fun x => [x; g]) n ++ rest)
      = next_sibling_forest p rest
  | Some x =>
    exists x',
      (forall rest,
          next_sibling_forest p
            (edit_node p' (fun x => [x; g]) n ++ rest) = Some x')
      /\ (is_gap_opt x = true -> is_gap_opt x' = true)
  end.
Proof.
  induction n as [i k s | i nm a cs IH] using node_induction; intros Hne.
  - cbn [next_sibling_in]. intros rest. cbn [edit_node oid] in *.
    destruct (Nat.eqb i p'); cbn [app next_sibling_forest oid next_sibling_in];
      (destruct (Nat.eqb_spec i p) as [E | _]; [contradiction |]);
      [apply skip_gap | reflexivity].
  - rewrite next_sibling_in_tag. pose proof (keep_gap_of cs IH) as Hcs.
    cbn [edit_node oid] in *. fold (edit p' (fun x => [x; g]) cs).
    destruct (next_sibling_forest p cs) as [x |].
    + destruct Hcs as (x' & Hx & Hgx). exists x'. split; [| exact Hgx].
      intros rest.
      destruct (Nat.eqb i p'); cbn [app next_sibling_forest oid];
        (destruct (Nat.eqb_spec i p) as [E | _]; [contradiction |]);
        now rewrite next_sibling_in_tag, Hx.
    + intros rest.
      destruct (Nat.eqb i p'); cbn [app next_sibling_forest oid];
        (destruct (Nat.eqb_spec i p) as [E | _]; [contradiction |]);
        rewrite next_sibling_in_tag, Hcs; [apply skip_gap | reflexivity].
Qed.

Lemma keep_gap (t : list node) :
  gap_follows t p = true -> gap_follows (insert_after t p' g) p = true.
Proof.
  unfold gap_follows. rewrite !find_next_sibling_forest.
  assert (H : Forall (fun n => oid n <> p ->
            match next_sibling_in p n with
            | None =>
              forall rest,
                next_sibling_forest p
                  (edit_node p' (fun x => [x; g]) n ++ rest)
                = next_sibling_forest p rest
            | Some x =>
              exists x',
                (forall rest,
                    next_sibling_forest p
                      (edit_node p' (fun x => [x; g]) n ++ rest) = Some x')
                /\ (is_gap_opt x = true -> is_gap_opt x' = true)
            end) t).
  { apply Forall_forall. intros n _. apply keep_gap_node. }
  pose proof (keep_gap_of t H) as Hk. unfold insert_after.
  destruct (next_sibling_forest p t) as [[n |] |]; try discriminate.
  destruct Hk as (x' & -> & Hgx). intros Hn.
  specialize (Hgx Hn). destruct x' as [n' |]; [exact Hgx | discriminate Hgx].
Qed.

End Gaps.

Lemma insert_gap_unfold (t : list node) (next p : nat) :
  insert_gap (t, next) p
  = if gap_follows t p then (t, next)
    else (insert_after t p (fst (new_gap next)), snd (new_gap next)).
Proof.
  unfold insert_gap, gap_follows.
  destruct (find_next_sibling t p) as [[[i k s | i nm a cs] |] |];
    cbn [is_gap]; reflexivity.
Qed.

Lemma insert_keeps_oids_of (o x : nat) (g : node) (l : list node) :
  Forall (fun n => In x (oids [n]) ->
                   In x (oids (edit_node o (fun y => [y; g]) n))) l ->
  In x (oids l) -> In x (oids (edit o (fun y => [y; g]) l)).
Proof.
  induction 1 as [| c r Hc Hr IH]; intros H; [contradiction |].
  rewrite oids_cons in H. unfold edit. cbn [flat_map].
  fold (edit o (fun y => [y; g]) r). rewrite oids_app.
  apply in_or_app. apply in_app_or in H as [H | H]; [left | right]; auto.
Qed.

Lemma insert_keeps_oids_node (o x : nat) (g : node) (n : node) :
  In x (oids [n]) -> In x (oids (edit_node o (fun y => [y; g]) n)).
Proof.
  induction n as [i k s | i nm a cs IH] using node_induction; intros H.
  - cbn [edit_node oid]. destruct (Nat.eqb i o); [| exact H].
    rewrite oids_cons. apply in_or_app. now left.
  - assert (H' : In x (oids [Tag i nm a (edit o (fun y => [y; g]) cs)])).
    { rewrite oids_tag in *. destruct H as [H | H]; [now left | right].
      now apply insert_keeps_oids_of. }
    cbn [edit_node oid]. fold (edit o (fun y => [y; g]) cs).
    destruct (Nat.eqb i o); [| exact H'].
    rewrite oids_cons. apply in_or_app. now left.
Qed.

Lemma insert_after_keeps_oids (t : list node) (o x : nat) (g : node) :
  In x (oids t) -> In x (oids (insert_after t o g)).
Proof.
  apply insert_keeps_oids_of. apply Forall_forall.
  intros n _. apply insert_keeps_oids_node.
Qed.

Lemma insert_gap_keeps_oids (s : soup) (p x : nat) :
  In x (oids (fst s)) -> In x (oids (fst (insert_gap s p))).
Proof.
  destruct s as [t next]. rewrite insert_gap_unfold.
  destruct (gap_follows t p); [auto |]. cbn [fst].
  apply insert_after_keeps_oids.
Qed.

(** After its turn in the second loop a paragraph is followed by a gap. *)
Lemma insert_gap_follows (s : soup) (p : nat) :
  In p (oids (fst s)) -> gap_follows (fst (insert_gap s p)) p = true.
Proof.
  destruct s as [t next]. cbn [fst]. intros Hin. rewrite insert_gap_unfold.
  destruct (gap_follows t p) eqn:E; [exact E |]. cbn [fst].
  unfold gap_follows. rewrite find_next_sibling_forest.
  rewrite (insert_gap_found p (fst (new_gap next)) eq_refl t Hin).
  reflexivity.
Qed.

(** The turn of another paragraph does not undo it. *)
Lemma insert_gap_keeps_follow (s : soup) (p q : nat) :
  wf s -> q <> p ->
  gap_follows (fst s) q = true -> gap_follows (fst (insert_gap s p)) q = true.
Proof.
  destruct s as [t next]. cbn [fst]. intros Hwf Hne Hq.
  rewrite insert_gap_unfold.
  destruct (gap_follows t p); [exact Hq |]. cbn [fst].
  apply (keep_gap q (fst (new_gap next)) eq_refl p Hne); [| exact Hq].
  assert (Hin : In q (oids t)).
  { unfold gap_follows in Hq. rewrite find_next_sibling_forest in Hq.
    destruct (next_sibling_forest q t) as [x |] eqn:E; [| discriminate Hq].
    exact (next_sibling_forest_found q t x E). }
  destruct Hwf as [_ Hb]. rewrite Forall_forall in Hb.
  specialize (Hb _ Hin). cbn [snd] in Hb.
  unfold oids. cbn. intros [E | [E | []]]; lia.
Qed.

Lemma insert_gaps_fold (s0 : soup) (body : nat) :
  forall ps s,
    run_invariant pass_kind s0 body s ->
    NoDup ps ->
    (forall q, In q ps -> In q (oids (fst s))) ->
    (forall q, In q ps ->
               gap_follows (fst (fold_left insert_gap ps s)) q = true)
    /\ (forall q, ~ In q ps -> gap_follows (fst s) q = true ->
                  gap_follows (fst (fold_left insert_gap ps s)) q = true).
Proof.
  induction ps as [| p ps IH]; intros s Hinv Hnd Hin.
  - split; [intros q [] | auto].
  - cbn [fold_left]. inversion Hnd as [| ? ? Hp Hnd']; subst.
    destruct (IH (insert_gap s p)
                 (insert_gap_invariant pass_kind (fun e H => H) s0 body s p Hinv)
                 Hnd'
                 (fun q Hq => insert_gap_keeps_oids s p q
                                (Hin q (or_intror Hq))))
      as [I1 I2].
    split.
    + intros q [<- | Hq]; [| exact (I1 q Hq)].
      apply (I2 p Hp). apply insert_gap_follows. apply Hin. now left.
    + intros q Hq Hf. apply I2; [intros X; apply Hq; now right |].
      apply insert_gap_keeps_follow;
        [exact (proj1 Hinv) | intros E; apply Hq; now left | exact Hf].
Qed.

Lemma NoDup_map_filter (A B : Type) (f : A -> B) (P : A -> bool) (l : list A) :
  NoDup (map f l) -> NoDup (map f (filter P l)).
Proof.
  induction l as [| a l IH]; intros H; [constructor |].
  cbn [map] in H. inversion H as [| ? ? Ha Hl]; subst.
  cbn [filter]. destruct (P a); [| auto].
  cbn [map]. constructor; [| auto].
  intros X. apply Ha. apply in_map_iff in X as (b & Eb & Hb).
  apply filter_In in Hb as [Hb _]. apply in_map_iff. eauto.
Qed.

Lemma insert_gaps_follow (s : soup) (body p : nat) :
  wf s ->
  In p (find_all_named (fst s) body "p") ->
  gap_follows (fst (insert_gaps s body)) p = true.
Proof.
  intros Hwf Hp. unfold insert_gaps.
  assert (Hnd : NoDup (find_all_named (fst s) body "p")).
  { unfold find_all_named. apply NoDup_map_filter. exact (proj1 Hwf). }
  assert (Hin : forall q, In q (find_all_named (fst s) body "p") ->
                          In q (oids (fst s))).
  { intros q Hq. unfold find_all_named in Hq.
    apply in_map_iff in Hq as (e & Eq & He).
    apply filter_In in He as [He _]. unfold oids. apply in_map_iff. eauto. }
  exact (proj1 (insert_gaps_fold s body (find_all_named (fst s) body "p") s
                  (run_invariant_start pass_kind s body Hwf) Hnd Hin) p Hp).
Qed.

(** X16. After the second loop every paragraph of the body (every [p]
    element the loop took from [body.find_all]) has a gap paragraph, a
    [p] of class [sr-gap], as its next sibling element. *)
Theorem gaps_follow_paragraphs (s : soup) (body p : nat) :
  wf s ->
  In p (find_all_named (fst s) body "p") ->
  gap_follows (fst (insert_gaps s body)) p = true.
Proof. exact (insert_gaps_follow s body p). Qed.

Lemma gaps_follow_paragraphs_witness :
  wf doc_inline
  /\ In 3 (find_all_named (fst doc_inline) 2 "p")
  /\ gap_follows (fst (insert_gaps doc_inline 2)) 3 = true.
Proof.
  assert (H : wf doc_inline) by (apply wfb_wf; reflexivity).
  assert (Hp : In 3 (find_all_named (fst doc_inline) 2 "p")) by (now left).
  split; [exact H |]. split; [exact Hp |].
  exact (gaps_follow_paragraphs doc_inline 2 3 H Hp).
Defined.

(** The paragraphs of the body are still there, under the body, when the
    second loop starts. *)
Lemma paragraphs_kept (K : entry -> bool) (s0 s : soup) (body p : nat) :
  run_invariant K s0 body s ->
  In p (find_all_named (fst s0) body "p") ->
  In p (find_all_named (fst s) body "p").
Proof.
  intros (_ & rm & (_ & Hfil & _) & Hrm) Hp. unfold find_all_named in *.
  apply in_map_iff in Hp as (e & Eo & He). apply in_map_iff.
  exists e. split; [exact Eo |].
  apply filter_In in He as [He Hc]. apply filter_In. split; [| exact Hc].
  assert (Hkeep : In e (filter (fun e => negb (mem (e_oid e) rm))
                               (flat [] (fst s0)))).
  { apply filter_In. split; [exact He |].
    destruct (mem (e_oid e) rm) eqn:Em; [| reflexivity].
    apply mem_In in Em.
    pose proof (replaceable_is_str body e (Hrm _ Em e He eq_refl)) as Hs.
    apply andb_true_iff in Hc as [Hn _].
    rewrite (is_str_not_named "p" e Hs) in Hn. discriminate Hn. }
  rewrite <- Hfil in Hkeep. apply filter_In in Hkeep as [Hkeep _].
  exact Hkeep.
Qed.

(** X17. The rewriter as a whole: in the tree that [process_html_bytes]
    serialises, every paragraph that the body of the parsed document
    contained, at any depth, is followed by a gap paragraph as its next
    sibling element. *)
Theorem rewrite_soup_gaps (mode : string) (s : soup) (body : entry) (p : nat) :
  wf s ->
  soup_find (fst s) "body" = Some body ->
  In p (find_all_named (fst s) (e_oid body) "p") ->
  exists s',
    rewrite_soup mode s = Some s' /\ gap_follows (fst s') p = true.
Proof.
  intros Hwf Hb Hp. unfold rewrite_soup. rewrite Hb.
  eexists. split; [reflexivity |].
  assert (Hinv : run_invariant added_kind s (e_oid body)
                   (annotate_paragraphs mode (ensure_style s) (e_oid body))).
  { apply (annotate_paragraphs_invariant added_kind pass_kind_added s Hwf).
    destruct (ensure_style_step s [] s Hwf (evolve_refl added_kind s Hwf))
      as [H1 H2].
    split; [exact H1 |]. exists []. split; [exact H2 |]. intros x []. }
  apply insert_gaps_follow; [exact (proj1 Hinv) |].
  exact (paragraphs_kept added_kind s _ (e_oid body) p Hinv Hp).
Qed.

Lemma rewrite_soup_gaps_witness :
  wf doc_inline
  /\ exists s',
      rewrite_soup "bionic" doc_inline = Some s'
      /\ gap_follows (fst s') 3 = true.
Proof.
  assert (H : wf doc_inline) by (apply wfb_wf; reflexivity).
  split; [exact H |].
  apply (rewrite_soup_gaps "bionic" doc_inline
           {| e_oid := 2; e_anc := [(0, "html"%string)];
              e_label := LTag "body" [] |} 3 H).
  - reflexivity.
  - now left.
Defined.

(** ** What the tokenizer leaves out *)

Lemma slice_empty (t : pystr) (a : Z) : slice t a a = [].
Proof. unfold slice. now rewrite Nat.sub_diag. Qed.

Lemma slice_head (pre s' : pystr) (c : char) (b : Z) :
  (len pre + 1 <= b)%Z ->
  slice (pre ++ c :: s') (len pre) b
  = c :: slice (pre ++ c :: s') (len pre + 1) b.
Proof.
  intros Hb. pose proof (len_nonneg pre) as Hp. unfold slice.
  rewrite !norm_index_nonneg by lia. unfold len in *.
  rewrite length_app. cbn [List.length].
  set (nb := Nat.min (Z.to_nat b) (List.length pre + S (List.length s'))).
  replace (Nat.min (Z.to_nat (Z.of_nat (List.length pre)))
                   (List.length pre + S (List.length s')))
    with (List.length pre + 0) by lia.
  replace (Nat.min (Z.to_nat (Z.of_nat (List.length pre) + 1))
                   (List.length pre + S (List.length s')))
    with (List.length pre + 1) by lia.
  rewrite !skipn_app.
  rewrite (skipn_all2 pre (n := List.length pre + 0)) by lia.
  rewrite (skipn_all2 pre (n := List.length pre + 1)) by lia.
  replace (List.length pre + 0 - List.length pre) with 0 by lia.
  replace (List.length pre + 1 - List.length pre) with 1 by lia.
  cbn [app skipn].
  replace (nb - (List.length pre + 0)) with (S (nb - (List.length pre + 1)))
    by (subst nb; lia).
  reflexivity.
Qed.

Lemma slice_from_head (pre s' : pystr) (c : char) :
  slice_from (pre ++ c :: s') (len pre)
  = c :: slice_from (pre ++ c :: s') (len pre + 1).
Proof.
  pose proof (len_nonneg pre) as Hp. unfold slice_from.
  rewrite !norm_index_nonneg by lia. unfold len in *.
  rewrite length_app. cbn [List.length].
  replace (Nat.min (Z.to_nat (Z.of_nat (List.length pre)))
                   (List.length pre + S (List.length s')))
    with (List.length pre + 0) by lia.
  replace (Nat.min (Z.to_nat (Z.of_nat (List.length pre) + 1))
                   (List.length pre + S (List.length s')))
    with (List.length pre + 1) by lia.
  rewrite !skipn_app.
  rewrite (skipn_all2 pre (n := List.length pre + 0)) by lia.
  rewrite (skipn_all2 pre (n := List.length pre + 1)) by lia.
  replace (List.length pre + 0 - List.length pre) with 0 by lia.
  replace (List.length pre + 1 - List.length pre) with 1 by lia.
  reflexivity.
Qed.

Lemma gaps_plain_step (pre s' : pystr) (c : char) (ms : list Match) :
  is_token_char c = false ->
  ordered (pre ++ c :: s') (len pre + 1) ms ->
  gaps_plain (pre ++ c :: s') (len pre + 1) ms = true ->
  gaps_plain (pre ++ c :: s') (len pre) ms = true.
Proof.
  intros Hc Ho H. destruct ms as [| m r]; cbn [gaps_plain] in *.
  - rewrite slice_from_head. cbn [forallb]. now rewrite Hc, H.
  - destruct Ho as ((Hs & _) & _ & _).
    rewrite slice_head by exact Hs. cbn [forallb]. now rewrite Hc.
Qed.

Lemma scan_gaps_plain (text : pystr) :
  forall s pre skip,
    text = pre ++ s -> skip <= List.length s ->
    gaps_plain text (len pre + Z.of_nat skip) (scan text s (len pre) skip)
    = true.
Proof.
  induction s as [| c s' IH]; intros pre skip Et Hs.
  - cbn [List.length] in Hs. assert (skip = 0) by lia. subst skip.
    cbn [scan gaps_plain]. rewrite slice_from_end; [reflexivity |].
    rewrite Et, app_nil_r. lia.
  - assert (Et' : text = (pre ++ [c]) ++ s') by (rewrite <- app_assoc; exact Et).
    assert (El : (len pre + 1)%Z = len (pre ++ [c]))
      by (rewrite len_app; reflexivity).
    assert (IH0 : gaps_plain text (len pre + 1) (scan text s' (len pre + 1) 0)
                  = true).
    { pose proof (IH (pre ++ [c]) 0 Et' ltac:(lia)) as H0.
      rewrite <- El in H0. cbn [Z.of_nat] in H0.
      now rewrite Z.add_0_r in H0. }
    cbn [scan]. destruct skip as [| k].
    + rewrite Z.add_0_r. destruct (is_word_char c) eqn:Ew.
      * pose proof (word_run_pos c s' Ew) as Hr1.
        pose proof (word_run_le (c :: s')) as Hr2.
        cbn [gaps_plain m_start m_end]. rewrite slice_empty. cbn [forallb andb].
        cbn [List.length] in Hr2.
        pose proof (IH (pre ++ [c]) (word_run (c :: s') - 1) Et' ltac:(lia))
          as H0.
        rewrite <- El in H0.
        replace (len pre + 1 + Z.of_nat (word_run (c :: s') - 1))%Z
          with (len pre + Z.of_nat (word_run (c :: s')))%Z in H0 by lia.
        exact H0.
      * destruct (is_punct_char c) eqn:Ep.
        -- cbn [gaps_plain m_start m_end]. rewrite slice_empty.
           cbn [forallb andb]. exact IH0.
        -- rewrite Et. apply gaps_plain_step.
           ++ unfold is_token_char. now rewrite Ew, Ep.
           ++ rewrite <- Et. apply scan_ordered. lia.
           ++ rewrite <- Et. exact IH0.
    + cbn [List.length] in Hs.
      pose proof (IH (pre ++ [c]) k Et' ltac:(lia)) as H0.
      rewrite <- El in H0.
      replace (len pre + 1 + Z.of_nat k)%Z
        with (len pre + Z.of_nat (S k))%Z in H0 by lia.
      exact H0.
Qed.

(** X18. The tokenizer misses nothing: before the first match, between
    two matches and after the last one there is no letter of the word
    alphabet and no punctuation character of [PUNCT_CHARS]. *)
Theorem TOKEN_RE_finditer_covers (text : pystr) :
  gaps_plain text 0 (TOKEN_RE_finditer text) = true.
Proof.
  exact (scan_gaps_plain text text [] 0 eq_refl (Nat.le_0_l _)).
Qed.

(** ** The name of the download *)

(** X19. When the name of the upload passes the extension test, the
    five characters that [convert] cuts off are the extension itself, in
    whatever case it was written: the download is named by the stem of
    the upload followed by [-speedread.epub]. *)
Theorem out_name_replaces_extension (filename : pystr) :
  is_epub_name filename = true ->
  exists stem ext,
    filename = stem ++ ext
    /\ lower ext = utf8 ".epub"
    /\ out_name filename = stem ++ utf8 "-speedread.epub".
Proof.
  unfold is_epub_name, out_name. intros H.
  pose proof H as Hlen. unfold endswith in Hlen.
  apply andb_prop in Hlen as [Hlen _]. apply Z.leb_le in Hlen.
  apply endswith_split in H.
  unfold lower in H, Hlen. unfold len in Hlen.
  rewrite length_map in H, Hlen.
  change (List.length (utf8 ".epub")) with 5 in H, Hlen.
  exists (firstn (List.length filename - 5) filename),
         (skipn (List.length filename - 5) filename).
  split; [symmetry; apply firstn_skipn |]. split.
  - unfold lower. rewrite <- skipn_map. exact H.
  - f_equal. unfold slice_to, norm_index, len. cbn [Z.ltb Z.compare].
    f_equal. lia.
Qed.

Lemma out_name_replaces_extension_witness :
  is_epub_name (utf8 "Book.EPUB") = true
  /\ out_name (utf8 "Book.EPUB") = utf8 "Book-speedread.epub".
Proof.
  assert (H : is_epub_name (utf8 "Book.EPUB") = true) by reflexivity.
  split; [exact H |].
  destruct (out_name_replaces_extension (utf8 "Book.EPUB") H)
    as (stem & ext & _ & _ & _).
  reflexivity.
Defined.

(** ** The scope of the rewriter *)

Lemma in_paragraph_app (body : nat) (pre anc : list (nat * string)) :
  in_paragraph body anc = true -> in_paragraph body (pre ++ anc) = true.
Proof.
  induction pre as [| [q nm] pre IH]; intros H; [exact H |].
  cbn [app in_paragraph]. rewrite (IH H). apply orb_true_r.
Qed.

Lemma flat_anc (anc : list (nat * string)) (ns : list node) (e : entry) :
  In e (flat anc ns) -> exists pre, e_anc e = pre ++ anc.
Proof.
  unfold flat. intros H. apply in_flat_map in H as (n & _ & He).
  destruct (ancestors_listed_node n anc e He) as (pre & E & _). eauto.
Qed.

Lemma evolve_old_in (K : entry -> bool) (s0 s : soup) (rm : list nat)
      (e : entry) :
  evolve K s0 s rm -> In e (flat [] (fst s)) -> e_oid e < snd s0 ->
  In e (flat [] (fst s0)).
Proof.
  intros (_ & Hfil & _) He Hlt.
  assert (Hin : In e (filter (fun e => e_oid e <? snd s0) (flat [] (fst s)))).
  { apply filter_In. split; [exact He |]. now apply Nat.ltb_lt. }
  rewrite Hfil in Hin. now apply filter_In in Hin as [Hin _].
Qed.

(** An edit at the node of [e] keeps every node where it was and puts
    the new ones at the place of [e]. *)
Lemma edit_placed (P : entry -> bool) (bound : nat) (t : list node) (o : nat)
      (mk : node -> list node) (e : entry) :
  NoDup (oids t) -> In e (flat [] t) -> e_oid e = o ->
  placed P bound t ->
  (forall x tl,
      flat_node (e_anc e) x = e :: tl ->
      Forall (fun e' => bound <= e_oid e' -> P e' = true) (e :: tl) ->
      Forall (fun e' => bound <= e_oid e' -> P e' = true)
             (flat (e_anc e) (mk x))) ->
  placed P bound (edit o mk t).
Proof.
  intros Hnd He Eo Hp Hmk.
  destruct (edit_found o mk t e Hnd He Eo)
    as (x & tl & l1 & l2 & Ex & Et & Et').
  unfold placed in *. rewrite Et'. rewrite Et in Hp.
  apply Forall_app in Hp as [H1 H2]. apply Forall_app in H2 as [H2 H3].
  apply Forall_app. split; [exact H1 |].
  apply Forall_app. split; [| exact H3].
  exact (Hmk x tl Ex H2).
Qed.

Lemma edit_entries (t : list node) (o : nat) (mk : node -> list node)
      (e : entry) :
  NoDup (oids t) -> In e (flat [] t) -> e_oid e = o ->
  forall e',
    In e' (flat [] (edit o mk t)) ->
    In e' (flat [] t)
    \/ exists x tl, flat_node (e_anc e) x = e :: tl
                    /\ (forall e'', In e'' (e :: tl) -> In e'' (flat [] t))
                    /\ In e' (flat (e_anc e) (mk x)).
Proof.
  intros Hnd He Eo e' He'.
  destruct (edit_found o mk t e Hnd He Eo)
    as (x & tl & l1 & l2 & Ex & Et & Et').
  rewrite Et' in He'. rewrite Et.
  apply in_app_or in He' as [H | H]; [left; apply in_or_app; now left |].
  apply in_app_or in H as [H | H].
  - right. exists x, tl. split; [exact Ex |]. split; [| exact H].
    intros e'' He''. apply in_or_app. right. apply in_or_app. now left.
  - left. apply in_or_app. right. apply in_or_app. now right.
Qed.

Section Places.
Variable K : entry -> bool.
Hypothesis HK : forall e, pass_kind e = true -> K e = true.
Variable s0 : soup.
Hypothesis Hwf0 : wf s0.
Variable body : nat.
Variable head : option nat.
Variable mode : string.

(** Annotation output put at a place below a paragraph of the body. *)
Lemma ann_nodes_placed (next next' : nat) (anc : list (nat * string))
      (nodes : list node) :
  fresh_nodes ann_kind next next' nodes ->
  in_paragraph body anc = true ->
  Forall (fun e' => snd s0 <= e_oid e' -> added_place head body e' = true)
         (flat anc nodes).
Proof.
  intros [_ Hk] Hin. apply Forall_forall. intros e' He' _.
  destruct (Hk anc e' He') as [_ Ha].
  destruct (flat_anc anc nodes e' He') as [pre Ea].
  pose proof (in_paragraph_app body pre anc Hin) as Hp.
  unfold added_place, ann_kind in *. rewrite Ea.
  destruct (e_label e') as [k str | nm a].
  - now rewrite Hp.
  - apply orb_true_iff in Ha as [Ha | Ha];
      apply andb_true_iff in Ha as [Hn _];
      apply String.eqb_eq in Hn; subst nm.
    + change (String.eqb "strong" "style") with false.
      change (String.eqb "strong" "p") with false. exact Hp.
    + change (String.eqb "span" "style") with false.
      change (String.eqb "span" "p") with false. exact Hp.
Qed.

Lemma rewrite_text_node_placed (s : soup) (p o : nat) :
  run_invariant K s0 body s ->
  placed (added_place head body) (snd s0) (fst s) ->
  (forall e, In e (flat [] (fst s0)) -> e_oid e = p ->
             is_tag_named "p" e = true /\ under body e = true) ->
  (forall e, In e (flat [] (fst s0)) -> e_oid e = o -> under p e = true) ->
  placed (added_place head body) (snd s0) (fst (rewrite_text_node mode s o)).
Proof.
  intros Hinv Hpl Hp Ho. destruct s as [t next]. unfold rewrite_text_node.
  destruct (find_entry t o) as [e |] eqn:Ef; [| exact Hpl].
  destruct (e_label e) as [k original | nm a] eqn:El; [| exact Hpl].
  destruct (String.eqb (parent_name e) "script"
            || String.eqb (parent_name e) "style") eqn:Epar; [exact Hpl |].
  destruct (build_nodes_for_text next original mode) as [[nodes next'] |] eqn:Eb;
    [| exact Hpl].
  destruct (build_nodes_for_text_fresh_ann next original mode nodes next' Eb)
    as [Hle Hf].
  destruct Hinv as (Hwf & rm & Hev & Hrm).
  destruct (find_entry_some t o e Ef) as [He Eo].
  assert (Hs : is_str e = true) by (unfold is_str; now rewrite El).
  cbn [fst] in *. destruct nodes as [| first rest]; [exact Hpl |].
  assert (Hpar : in_paragraph body (e_anc e) = true).
  { destruct (Nat.lt_ge_cases (e_oid e) (snd s0)) as [Hold | Hnew].
    - pose proof (evolve_old_in K s0 (t, next) rm e Hev He Hold) as He0.
      pose proof (replaceable_from s0 body p e Hwf0 Hp He0 Hs Epar
                                   (Ho e He0 Eo)) as Hr.
      unfold replaceable in Hr. now apply andb_true_iff in Hr as [_ Hr].
    - unfold placed in Hpl. rewrite Forall_forall in Hpl.
      pose proof (Hpl e He Hnew) as Ha. unfold added_place in Ha.
      rewrite El in Ha. apply orb_true_iff in Ha as [Ha | Ha]; [exact Ha |].
      exfalso. apply orb_false_iff in Epar as [_ Epar].
      unfold parent_name in Epar.
      destruct (e_anc e) as [| [q nm] [| [h nm2] r]]; try discriminate Ha.
      apply andb_true_iff in Ha as [Ha _]. rewrite Ha in Epar.
      discriminate Epar. }
  rewrite replace_text_node_edit.
  - apply (edit_placed _ _ t o _ e (proj1 Hwf) He Eo Hpl).
    intros x tl _ _.
    exact (ann_nodes_placed next next' (e_anc e) (first :: rest) Hf Hpar).
  - exact (proj1 Hf).
  - intros x Hx Hin.
    pose proof (fresh_nodes_oids ann_kind next next' _ x Hf Hx) as Hr.
    destruct Hwf as [_ Hb]. rewrite Forall_forall in Hb.
    specialize (Hb _ Hin). cbn [snd] in Hb. lia.
Qed.

Lemma rewrite_paragraph_placed (s : soup) (p : nat) :
  run_invariant K s0 body s ->
  placed (added_place head body) (snd s0) (fst s) ->
  (forall e, In e (flat [] (fst s0)) -> e_oid e = p ->
             is_tag_named "p" e = true /\ under body e = true) ->
  placed (added_place head body) (snd s0) (fst (rewrite_paragraph mode s p)).
Proof.
  intros Hinv Hpl Hp. unfold rewrite_paragraph.
  assert (Hos : forall o, In o (find_all_strings (fst s) p) ->
                forall e, In e (flat [] (fst s0)) -> e_oid e = o ->
                          under p e = true).
  { intros o Ho e0 He0 Eo0. unfold find_all_strings in Ho.
    apply in_map_iff in Ho as (e & Eo & He).
    apply filter_In in He as [He Hc]. apply andb_true_iff in Hc as [_ Hu].
    destruct Hinv as (_ & rm & Hev & _).
    assert (e = e0) by (apply (transfer K s0 s rm); auto; congruence).
    now subst e0. }
  revert Hinv Hpl Hos. generalize (find_all_strings (fst s) p). intros os.
  revert s. induction os as [| o os IH]; intros s Hinv Hpl Hos; [exact Hpl |].
  cbn [fold_left]. apply IH.
  - apply (rewrite_text_node_invariant K HK s0 Hwf0 body mode s p o);
      auto. apply Hos. now left.
  - apply (rewrite_text_node_placed s p o); auto. apply Hos. now left.
  - intros o' Ho'. apply Hos. now right.
Qed.

Lemma annotate_paragraphs_placed (s : soup) :
  run_invariant K s0 body s ->
  placed (added_place head body) (snd s0) (fst s) ->
  placed (added_place head body) (snd s0)
         (fst (annotate_paragraphs mode s body)).
Proof.
  intros Hinv Hpl. unfold annotate_paragraphs.
  assert (Hps : forall p, In p (find_all_named (fst s) body "p") ->
                forall e, In e (flat [] (fst s0)) -> e_oid e = p ->
                          is_tag_named "p" e = true /\ under body e = true).
  { intros p Hp e0 He0 Eo0. unfold find_all_named in Hp.
    apply in_map_iff in Hp as (e & Eo & He).
    apply filter_In in He as [He Hc]. apply andb_true_iff in Hc as [Hn Hu].
    destruct Hinv as (_ & rm & Hev & _).
    assert (e = e0) by (apply (transfer K s0 s rm); auto; congruence).
    subst e0. auto. }
  revert Hinv Hpl Hps. generalize (find_all_named (fst s) body "p"). intros ps.
  revert s. induction ps as [| p ps IH]; intros s Hinv Hpl Hps; [exact Hpl |].
  cbn [fold_left]. apply IH.
  - apply (rewrite_paragraph_invariant K HK s0 Hwf0 body mode s p); auto.
    apply Hps. now left.
  - apply rewrite_paragraph_placed; auto. apply Hps. now left.
  - intros p' Hp'. apply Hps. now right.
Qed.

(** The entries of a gap put after a node whose ancestors are [anc]. *)
Lemma gap_entries (anc : list (nat * string)) (next : nat) (e : entry) :
  In e (flat_node anc (fst (new_gap next))) ->
  (e_label e = LTag "p" [("class", AList ["sr-gap"])]%string /\ e_anc e = anc)
  \/ (exists k str, e_label e = LStr k str
                    /\ e_anc e = (next, "p"%string) :: anc).
Proof.
  cbn. intros [<- | [<- | []]]; cbn; eauto.
Qed.

Lemma gap_entries_placed (anc : list (nat * string)) (next : nat) :
  existsb (fun a => Nat.eqb (fst a) body) anc = true ->
  Forall (fun e' => snd s0 <= e_oid e' -> added_place head body e' = true)
         (flat_node anc (fst (new_gap next))).
Proof.
  intros H. apply Forall_forall. intros e He _.
  unfold added_place, under.
  destruct (gap_entries anc next e He) as [[El Ea] | (k & str & El & Ea)];
    rewrite El, Ea.
  - change (String.eqb "p" "style") with false.
    change (String.eqb "p" "p") with true. exact H.
  - cbn [in_paragraph]. change (String.eqb "p" "p") with true.
    now rewrite H.
Qed.

Lemma insert_gap_placed (s : soup) (p : nat) :
  wf s ->
  placed (added_place head body) (snd s0) (fst s) ->
  (forall e, In e (flat [] (fst s)) -> e_oid e = p -> under body e = true) ->
  placed (added_place head body) (snd s0) (fst (insert_gap s p)).
Proof.
  destruct s as [t next]. cbn [fst]. intros Hwf Hpl Hu.
  rewrite insert_gap_unfold.
  destruct (gap_follows t p); [exact Hpl |]. cbn [fst]. unfold insert_after.
  destruct (in_dec Nat.eq_dec p (oids t)) as [Hin | Hout].
  - unfold oids in Hin. apply in_map_iff in Hin as (e & Eo & He).
    apply (edit_placed _ _ t p _ e (proj1 Hwf) He Eo Hpl).
    intros x tl Ex Hold. rewrite flat_cons, flat_single, Ex.
    apply Forall_app. split; [exact Hold |].
    apply gap_entries_placed. exact (Hu e He Eo).
  - rewrite edit_absent_forest by exact Hout. exact Hpl.
Qed.

Lemma insert_gap_under (s : soup) (p q : nat) :
  wf s ->
  (forall e, In e (flat [] (fst s)) -> e_oid e = p -> under body e = true) ->
  (forall e, In e (flat [] (fst s)) -> e_oid e = q -> under body e = true) ->
  forall e, In e (flat [] (fst (insert_gap s p))) -> e_oid e = q ->
            under body e = true.
Proof.
  destruct s as [t next]. cbn [fst]. intros Hwf Hp Hq.
  rewrite insert_gap_unfold.
  destruct (gap_follows t p); [exact Hq |]. cbn [fst]. unfold insert_after.
  destruct (in_dec Nat.eq_dec p (oids t)) as [Hin | Hout].
  - unfold oids in Hin. apply in_map_iff in Hin as (e & Eo & He).
    intros e' He' Eq.
    destruct (edit_entries t p _ e (proj1 Hwf) He Eo e' He')
      as [Hold | (x & tl & Ex & Hsub & Hnew)]; [exact (Hq e' Hold Eq) |].
    rewrite flat_cons, flat_single, Ex in Hnew.
    apply in_app_or in Hnew as [Hnew | Hnew].
    + exact (Hq e' (Hsub e' Hnew) Eq).
    + pose proof (Hp e He Eo) as Hb. unfold under in *.
      destruct (gap_entries (e_anc e) next e' Hnew)
        as [[_ Ea] | (k & str & _ & Ea)]; rewrite Ea; [exact Hb |].
      cbn [existsb]. rewrite Hb. apply orb_true_r.
  - rewrite edit_absent_forest by exact Hout. exact Hq.
Qed.

Lemma insert_gaps_placed :
  forall ps s,
    run_invariant K s0 body s ->
    placed (added_place head body) (snd s0) (fst s) ->
    (forall p, In p ps ->
               forall e, In e (flat [] (fst s)) -> e_oid e = p ->
                         under body e = true) ->
    placed (added_place head body) (snd s0) (fst (fold_left insert_gap ps s)).
Proof.
  induction ps as [| p ps IH]; intros s Hinv Hpl Hu; [exact Hpl |].
  cbn [fold_left]. apply IH.
  - exact (insert_gap_invariant K HK s0 body s p Hinv).
  - apply insert_gap_placed; [exact (proj1 Hinv) | exact Hpl |].
    apply Hu. now left.
  - intros q Hq. apply insert_gap_under; [exact (proj1 Hinv) | |].
    + apply Hu. now left.
    + apply Hu. now right.
Qed.

End Places.

Lemma ensure_style_placed (s : soup) (body : nat) :
  wf s ->
  placed (added_place (option_map e_oid (soup_find (fst s) "head")) body)
         (snd s) (fst (ensure_style s)).
Proof.
  intros Hwf. destruct s as [t next]. rewrite ensure_style_unfold.
  cbn [fst snd].
  assert (Hstart : forall P, placed P next t).
  { intros P. apply Forall_forall. intros e He Hge.
    pose proof (wf_bound (t, next) e Hwf He) as Hlt. cbn [snd] in Hlt. lia. }
  destruct (soup_find t "head") as [h |] eqn:Eh; [| apply Hstart].
  destruct (find_style t (e_oid h) STYLE_ID); [apply Hstart |].
  destruct (soup_find_some t "head" h Eh) as [Hin [a El]].
  destruct (append_step added_kind (t, next) [] t next (S (S next)) (e_oid h)
              h "head" a (style_node next) Hwf
              (evolve_refl added_kind (t, next) Hwf) ltac:(lia) Hin eq_refl El
              (style_node_insertable (t, next) t next Hwf (le_n _)))
    as (_ & _ & l1 & l2 & E1 & E2).
  cbn [fst option_map]. unfold placed. rewrite E2.
  pose proof (Hstart (added_place (Some (e_oid h)) body)) as Hs.
  unfold placed in Hs. rewrite E1 in Hs. apply Forall_app in Hs as [H1 H2].
  apply Forall_app. split; [exact H1 |].
  apply Forall_app. split; [| exact H2].
  cbn [style_node flat_node flat_map app].
  constructor; [| constructor; [| constructor]]; intros _;
    unfold added_place; cbn [e_label e_anc is_head];
    change (String.eqb "style" "style") with true;
    rewrite Nat.eqb_refl; [reflexivity | apply orb_true_r].
Qed.

(** C7 (as amended). On a document with a body whose paragraphs hold
    text only (no comment or other special string where the loop looks),
    the rewriter replaces nothing but text nodes that lie, at any depth,
    below a paragraph of the body and whose parent is neither [script]
    nor [style]: every other node of the input is still there, in the
    same order, under the same ancestors and with the same content.
    Every node that was not in the input is a plain string, a bare
    [strong], a [span] of class [punct], a paragraph of class [sr-gap] or
    the reserved [style] element, and it stands where such a node
    belongs: annotation output and the text of a gap below a paragraph
    of the body, a gap paragraph below the body, the style element as a
    child of the head with its text inside it. *)
Theorem rewrite_soup_scope (mode : string) (s : soup) (body : entry) :
  wf s ->
  soup_find (fst s) "body" = Some body ->
  text_only (e_oid body) (fst s) = true ->
  exists s',
    rewrite_soup mode s = Some s'
    /\ filter (fun e => (e_oid e <? snd s) && negb (eligible (e_oid body) e))
              (flat [] (fst s'))
       = filter (fun e => negb (eligible (e_oid body) e)) (flat [] (fst s))
    /\ Forall (fun e =>
                 snd s <= e_oid e ->
                 added_kind e = true
                 /\ added_place (option_map e_oid (soup_find (fst s) "head"))
                                (e_oid body) e = true)
              (flat [] (fst s')).
Proof.
  intros Hwf Hb Ht.
  destruct (rewrite_soup mode s) as [s' |] eqn:E;
    [| unfold rewrite_soup in E; rewrite Hb in E; discriminate E].
  exists s'. split; [reflexivity |].
  destruct (rewrite_soup_invariant mode s s' Hwf E)
    as (body' & Hb' & _ & rm & (Hlo & Hfil & Hk) & Hrm).
  rewrite Hb in Hb'. injection Hb' as <-.
  split.
  - transitivity (filter (fun e => negb (eligible (e_oid body) e))
                         (filter (fun e => e_oid e <? snd s)
                                 (flat [] (fst s')))).
    + rewrite filter_filter. apply filter_ext. intros e. apply andb_comm.
    + rewrite Hfil, filter_filter. apply filter_ext_in. intros e He.
      destruct (eligible (e_oid body) e) eqn:Ee; [reflexivity |].
      cbn [negb andb].
      destruct (mem (e_oid e) rm) eqn:Em; [| reflexivity].
      apply mem_In in Em. pose proof (Hrm _ Em e He eq_refl) as Hr.
      unfold text_only in Ht. rewrite forallb_forall in Ht.
      pose proof (Ht e He) as Hi. rewrite Hr in Hi. cbn [implb] in Hi.
      unfold eligible in Ee. rewrite Hr, Hi in Ee. discriminate Ee.
  - unfold rewrite_soup in E. rewrite Hb in E. injection E as <-.
    assert (Hinv1 : run_invariant added_kind s (e_oid body) (ensure_style s)).
    { destruct (ensure_style_step s [] s Hwf (evolve_refl added_kind s Hwf))
        as [H1 H2].
      split; [exact H1 |]. exists []. split; [exact H2 |]. intros x []. }
    pose proof (ensure_style_placed s (e_oid body) Hwf) as Hpl1.
    pose proof (annotate_paragraphs_invariant added_kind pass_kind_added s Hwf
                  (e_oid body) mode (ensure_style s) Hinv1) as Hinv2.
    pose proof (annotate_paragraphs_placed added_kind pass_kind_added s Hwf
                  (e_oid body) (option_map e_oid (soup_find (fst s) "head"))
                  mode (ensure_style s) Hinv1 Hpl1) as Hpl2.
    assert (Hpl3 : placed (added_place
                             (option_map e_oid (soup_find (fst s) "head"))
                             (e_oid body)) (snd s)
                     (fst (insert_gaps
                             (annotate_paragraphs mode (ensure_style s)
                                                  (e_oid body))
                             (e_oid body)))).
    { unfold insert_gaps.
      apply (insert_gaps_placed added_kind pass_kind_added s (e_oid body));
        [exact Hinv2 | exact Hpl2 |].
      intros p Hp e He Eo. unfold find_all_named in Hp.
      apply in_map_iff in Hp as (e1 & Eo1 & He1).
      apply filter_In in He1 as [He1 Hc]. apply andb_true_iff in Hc as [_ Hu].
      assert (e1 = e).
      { apply (NoDup_oid_eq (flat [] (fst (annotate_paragraphs mode
                                             (ensure_style s) (e_oid body)))));
          [exact (proj1 (proj1 Hinv2)) | exact He1 | exact He | congruence]. }
      now subst e1. }
    unfold placed in Hpl3. rewrite Forall_forall in Hk, Hpl3.
    apply Forall_forall. intros e He Hge. split; [apply Hk | apply Hpl3]; auto.
Qed.

Lemma rewrite_soup_scope_witness :
  wf doc_inline
  /\ text_only 2 (fst doc_inline) = true
  /\ exists s',
      rewrite_soup "syllable" doc_inline = Some s'
      /\ filter (fun e => (e_oid e <? snd doc_inline) && negb (eligible 2 e))
                (flat [] (fst s'))
         = filter (fun e => negb (eligible 2 e)) (flat [] (fst doc_inline)).
Proof.
  assert (Hwf : wf doc_inline) by (apply wfb_wf; reflexivity).
  assert (Ht : text_only 2 (fst doc_inline) = true) by reflexivity.
  split; [exact Hwf |]. split; [exact Ht |].
  destruct (rewrite_soup_scope "syllable" doc_inline
              {| e_oid := 2; e_anc := [(0, "html"%string)];
                 e_label := LTag "body" [] |} Hwf eq_refl Ht)
    as (s' & E & Hf & _).
  exists s'. split; [exact E | exact Hf].
Defined.

(** What the hypothesis on the paragraphs leaves out.  The loop lists
    with [find_all(string=True)] the strings of every class, so a comment
    inside a paragraph is taken for text: in [doc_comment] the comment
    node is replaced, and its content comes back as an element. *)
Example comment_is_annotated :
  text_only 1 (fst doc_comment) = false
  /\ option_map (fun s => (find_entry (fst s) 3,
                           nodes_text (fst s)))
                (rewrite_soup "syllable" doc_comment)
     = Some (None, utf8 "данет" ++ [160%N]).
Proof. split; vm_compute; reflexivity. Qed.
